(** * WrenchDimensionCalculator: layout of a hex-wrench tool holder

    A shallow embedding of [WrenchDimensionCalculator.py].

    The Python functions are written once, over an interface [PyNum] of the
    arithmetic they use (the operators [+ - * /], the comparison behind
    [max], [math.sqrt], [float(...)] and number literals), and the interface
    has two instances:

    - [binary64]: Python's [float], as the primitive IEEE 754 binary64
      numbers of Rocq, with round-to-nearest-even operations.  This is the
      arithmetic the program runs on, and every definition evaluates in it.
    - [exact]: the real numbers, the same program text read without rounding.

    Facts that only depend on the shape of the computation are proved once,
    for every instance.  Equations between differently rounded expressions
    hold in [exact] only; inequalities are proved in both instances, in
    [binary64] from the specification of the primitive operations.

    Conventions of the embedding:
    - the [int] arguments of the script (24, 36, 5, ...) are read as the
      floats they convert to in the first float operation they meet;
    - every divisor in the module is one of the constants [2], [2.0] and
      [math.sqrt(3)], and [math.sqrt] is applied to [2] and [3] only, so
      [ZeroDivisionError] and the [ValueError] of [math.sqrt] cannot occur
      and are not modelled;
    - a wrench size is a finite decimal number, except for
      [AnySize.create_hex_wrench], which takes every value that [float]
      converts or refuses;
    - a [str] is a [string], a text of characters with codes below 256, and
      what the text functions print is the list of the arguments of their
      [print] calls; the report at the end of the script, which formats
      floats, is not modelled beyond the rows of its table. *)

From Stdlib Require Import String Ascii.
From Stdlib Require Import ZArith List Bool Lia.
From Stdlib Require Import Floats.
From Stdlib Require Import Reals Lra.
Import ListNotations.

Set Warnings "-inexact-float".

(** ** Decimal numbers and exceptions *)

(** A finite [decimal.Decimal]: sign, coefficient and exponent, that is
    [(-1)^sign * coefficient * 10^exponent]. *)
Record Decimal := mkDecimal {
  dec_sign : bool;
  dec_coefficient : N;
  dec_exponent : Z
}.

(** The exceptions the script and its functions can raise. *)
Inductive PyExc :=
| IndexError
| ValueError
| AttributeError
| OverflowError.

Inductive result (A : Type) :=
| Ok (a : A)
| Raise (e : PyExc).
Arguments Ok {A} a.
Arguments Raise {A} e.

Definition bind {A B : Type} (r : result A) (k : A -> result B) : result B :=
  match r with
  | Ok a => k a
  | Raise e => Raise e
  end.

Declare Scope py_scope.
Delimit Scope py_scope with py.
Notation "'let*' v ':=' r 'in' k" := (bind r (fun v => k))
  (at level 10, v name, r at level 100, k at level 200) : py_scope.

(** ** The arithmetic interface *)

Class PyNum (T : Type) := {
  add : T -> T -> T;
  sub : T -> T -> T;
  mul : T -> T -> T;
  div : T -> T -> T;
  (** [ltb a b] is Python's [a < b], equivalently [b > a]. *)
  ltb : T -> T -> bool;
  (** [math.sqrt] *)
  sqrt : T -> T;
  (** an [int] literal used in float arithmetic *)
  lit : Z -> T;
  (** [float(d)] for a decimal [d]; also the value of a float literal *)
  float_of : Decimal -> T
}.

Infix "+" := add : py_scope.
Infix "-" := sub : py_scope.
Infix "*" := mul : py_scope.
Infix "/" := div : py_scope.

(** *** Python's [float] *)

Definition float_of_Z (z : Z) : float :=
  SF2Prim (binary_normalize prec emax z 0 false).

(** Correctly rounded [n / 10^k]. *)
Definition float_of_quotient (s : bool) (n : positive) (k : positive) : float :=
  let '(q, e, l) := SFdiv_core_binary prec emax (Zpos n) 0 (Zpos (10 ^ k)) 0 in
  SF2Prim (binary_round_aux prec emax s q e l).

Definition float_of_Decimal (d : Decimal) : float :=
  match dec_coefficient d with
  | N0 => SF2Prim (S754_zero (dec_sign d))
  | Npos n =>
      match dec_exponent d with
      | Zneg k => float_of_quotient (dec_sign d) n k
      | e => SF2Prim (binary_normalize prec emax
                        (cond_Zopp (dec_sign d) (Zpos n) * 10 ^ e) 0 false)
      end
  end.

#[export] Instance binary64 : PyNum float := {
  add := PrimFloat.add;
  sub := PrimFloat.sub;
  mul := PrimFloat.mul;
  div := PrimFloat.div;
  ltb := PrimFloat.ltb;
  sqrt := PrimFloat.sqrt;
  lit := float_of_Z;
  float_of := float_of_Decimal
}.

(** *** Exact arithmetic *)

Definition Rltb (a b : R) : bool := if Rlt_dec a b then true else false.

Definition R_of_Decimal (d : Decimal) : R :=
  ((if dec_sign d then -1 else 1)
   * IZR (Z.of_N (dec_coefficient d)) * powerRZ 10 (dec_exponent d))%R.

#[export] Instance exact : PyNum R := {
  add := Rplus;
  sub := Rminus;
  mul := Rmult;
  div := Rdiv;
  ltb := Rltb;
  sqrt := R_sqrt.sqrt;
  lit := IZR;
  float_of := R_of_Decimal
}.

(** ** Data model *)

Record HexWrench (T : Type) := mkHexWrench {
  size : Decimal;
  head_width : T;
  head_short_length : T;
  size_f : T;
  circumference : T;
  square : T;
  area : T
}.
Arguments mkHexWrench {T}.
Arguments size {T}.
Arguments head_width {T}.
Arguments head_short_length {T}.
Arguments size_f {T}.
Arguments circumference {T}.
Arguments square {T}.
Arguments area {T}.

Record HexWrenchHolderParameters (T : Type) := mkHexWrenchHolderParameters {
  lengthwise_border : T;
  lengthwise_inner_spacing : T;
  widthwise_border : T;
  height : T;
  hole_enlarge_factor : T;
  hole_enlarge_min : T
}.
Arguments mkHexWrenchHolderParameters {T}.
Arguments lengthwise_border {T}.
Arguments lengthwise_inner_spacing {T}.
Arguments widthwise_border {T}.
Arguments height {T}.
Arguments hole_enlarge_factor {T}.
Arguments hole_enlarge_min {T}.

Record HoleCoords (T : Type) := mkHoleCoords {
  x : T;
  y : T
}.
Arguments mkHoleCoords {T}.
Arguments x {T}.
Arguments y {T}.

(** [hole_coords] is [None] until the centers are merged in. *)
Record HoleDetails (T : Type) := mkHoleDetails {
  hex_size : Decimal;
  hex_long_diameter : T;
  hole_diameter : T;
  hole_coords : option (HoleCoords T)
}.
Arguments mkHoleDetails {T}.
Arguments hex_size {T}.
Arguments hex_long_diameter {T}.
Arguments hole_diameter {T}.
Arguments hole_coords {T}.

(** ** The functions of the module *)

Section Functions.
Context {T : Type} {num : PyNum T}.
Local Open Scope py_scope.

(** [max(a, b)]: the first argument unless the second is greater. *)
Definition pymax (a b : T) : T := if ltb a b then b else a.

(** [max(l)] on a list: [ValueError] when it is empty, otherwise the
    first greatest item. *)
Definition pymax_list (l : list T) : result T :=
  match l with
  | [] => Raise ValueError
  | a :: l' => Ok (fold_left pymax l' a)
  end.

(** [l[0]] *)
Definition py_first {A : Type} (l : list A) : result A :=
  match l with
  | [] => Raise IndexError
  | a :: _ => Ok a
  end.

(** [l[-1]] *)
Fixpoint py_last {A : Type} (l : list A) : result A :=
  match l with
  | [] => Raise IndexError
  | [a] => Ok a
  | _ :: l' => py_last l'
  end.

Definition create_hex_wrench (size : Decimal) (head_width head_short_length : T)
  : HexWrench T :=
  let size_f := float_of size in
  mkHexWrench size head_width head_short_length size_f
    (lit 6 * size_f)
    (sqrt (lit 2) * size_f)
    (lit 3 / lit 2 * sqrt (lit 3) * size_f * size_f).

Definition compute_hex_long_diameter (hex_size : T) : T :=
  lit 2 / sqrt (lit 3) * hex_size.

Definition compute_hole_diameter (hex_long_dia hole_enlarge_factor hole_enlarge_min : T) : T :=
  pymax (hex_long_dia + hole_enlarge_min) (hex_long_dia * hole_enlarge_factor).

Definition compute_hole_detail (hex_size : Decimal)
    (hex_long_dia hole_enlarge_factor hole_enlarge_min : T) : HoleDetails T :=
  mkHoleDetails hex_size hex_long_dia
    (compute_hole_diameter hex_long_dia hole_enlarge_factor hole_enlarge_min)
    None.

(** The body of the [for] loop of [compute_hole_centers], with its two
    mutable variables [pre_center] and [centers]. *)
Fixpoint centers_loop (y_center inner_spacing : T) (half_widths : list T)
    (pre_center : T) (centers : list (HoleCoords T)) : list (HoleCoords T) :=
  match half_widths with
  | [] => centers
  | half_width :: rest =>
      let x_center := pre_center + half_width in
      centers_loop y_center inner_spacing rest
        (x_center + half_width + inner_spacing)
        (centers ++ [mkHoleCoords x_center y_center])
  end.

Definition compute_hole_centers (hex_wrench_widths : list T)
    (inner_spacing lengthwise_border widthwise_border max_short_handle_length : T)
  : result (list (HoleCoords T)) :=
  let y_center := widthwise_border + max_short_handle_length in
  let half_widths := map (fun w => w / lit 2) hex_wrench_widths in
  let* h0 := py_first half_widths in
  let pre_center := lengthwise_border - h0 in
  Ok (centers_loop y_center inner_spacing half_widths pre_center []).

Definition compute_holder_length (last_hole_x_center hole_dia lengthwise_border : T) : T :=
  last_hole_x_center + hole_dia / lit 2 + lengthwise_border.

Definition compute_holder_width (max_handle_short_length max_hex_diameter width_border : T) : T :=
  width_border + max_handle_short_length + max_hex_diameter + width_border.

End Functions.

(** ** [create_hex_wrench] on every value of [size]

    [float(size)] is the one call of the module that can fail on a number.
    [size] is annotated as a [Decimal] and the script passes [int]s and a
    [float]; these are the values of [PySize].  [float] raises [ValueError]
    on a signaling NaN and [OverflowError] on an [int] that rounds past the
    greatest float; a [Decimal] infinity or quiet NaN, and a finite [Decimal]
    of any magnitude, convert without error.  [create_hex_wrench] above is
    this function on the finite decimals, where [float] never fails. *)

Inductive PySize :=
| Size_Decimal (d : Decimal)
| Size_Decimal_Infinity (sign : bool)
| Size_Decimal_NaN (sign : bool)
| Size_Decimal_sNaN (sign : bool)
| Size_int (z : Z)
| Size_float (f : float).

(** [float(size)] *)
Definition py_float (size : PySize) : result float :=
  match size with
  | Size_Decimal d => Ok (float_of_Decimal d)
  | Size_Decimal_Infinity sign => Ok (if sign then neg_infinity else infinity)
  | Size_Decimal_NaN _ => Ok nan
  | Size_Decimal_sNaN _ => Raise ValueError
  | Size_int z =>
      let f := float_of_Z z in
      if is_infinity f then Raise OverflowError else Ok f
  | Size_float f => Ok f
  end.

Module AnySize.

(** [HexWrench], with the [size] as it was given. *)
Record HexWrench := mkHexWrench {
  size : PySize;
  head_width : float;
  head_short_length : float;
  size_f : float;
  circumference : float;
  square : float;
  area : float
}.

Definition create_hex_wrench (size : PySize) (head_width head_short_length : float)
  : result HexWrench :=
  (let* size_f := py_float size in
   Ok (mkHexWrench size head_width head_short_length size_f
         (lit 6 * size_f)
         (sqrt (lit 2) * size_f)
         (lit 3 / lit 2 * sqrt (lit 3) * size_f * size_f)))%py.

End AnySize.

(** ** The script

    The [__main__] block, as a function of the wrench set and the holder
    parameters it hard-codes.  Its statements run in order; a run records
    the statements that completed and either the computed dimensions or the
    statement that raised, with its exception. *)

Inductive Stmt :=
| S_hole_details              (* hole_details = [ compute_hole_detail(...) ... ] *)
| S_hex_wrench_widths         (* hex_wrench_widths = [ max(...) ... ] *)
| S_max_handle_short_length   (* max_handle_short_length = max([...]) *)
| S_max_hole_diameter         (* max_hole_diameter = max([...]) *)
| S_hole_centers              (* hole_centers = compute_hole_centers(...) *)
| S_merge_hole_details        (* hole_details = [ HoleDetails(...) ... zip ... ] *)
| S_holder_length             (* holder_length = compute_holder_length(...) *)
| S_holder_width.             (* holder_width = compute_holder_width(...) *)

Inductive outcome (A : Type) :=
| Finished (a : A)
| Fault (s : Stmt) (e : PyExc).
Arguments Finished {A} a.
Arguments Fault {A} s e.

Definition Script (A : Type) : Type := list Stmt * outcome A.

Definition stmt {A : Type} (s : Stmt) (r : result A) : Script A :=
  match r with
  | Ok a => ([s], Finished a)
  | Raise e => ([], Fault s e)
  end.

Definition done {A : Type} (a : A) : Script A := ([], Finished a).

Definition then_ {A B : Type} (m : Script A) (k : A -> Script B) : Script B :=
  match m with
  | (ran, Finished a) => let (ran', o) := k a in (ran ++ ran', o)
  | (ran, Fault s e) => (ran, Fault s e)
  end.

Notation "v '<-' m ';;' k" := (then_ m (fun v => k))
  (at level 61, m at next level, right associativity) : py_scope.

Record Dimensions (T : Type) := mkDimensions {
  final_hole_details : list (HoleDetails T);
  holder_length : T;
  holder_width : T
}.
Arguments mkDimensions {T}.
Arguments final_hole_details {T}.
Arguments holder_length {T}.
Arguments holder_width {T}.

(** A line of the "Hole details" table: the loop prints the text [None] for
    a hole without coordinates and the pair of coordinates otherwise. *)
Inductive TableRow (T : Type) :=
| Row_None (hex_size : Decimal) (hex_long_diameter hole_diameter : T)
| Row_coords (hex_size : Decimal) (hex_long_diameter hole_diameter x y : T).
Arguments Row_None {T}.
Arguments Row_coords {T}.

Section Main.
Context {T : Type} {num : PyNum T}.
Local Open Scope py_scope.

(** [obj.x] where [obj] may be [None] *)
Definition attr_x (c : option (HoleCoords T)) : result T :=
  match c with
  | Some c => Ok (x c)
  | None => Raise AttributeError
  end.

(** The three list comprehensions of the script. *)
Definition initial_hole_details (hex_set : list (HexWrench T))
    (p : HexWrenchHolderParameters T) : list (HoleDetails T) :=
  map (fun hw => compute_hole_detail (size hw)
                   (compute_hex_long_diameter (size_f hw))
                   (hole_enlarge_factor p) (hole_enlarge_min p))
      hex_set.

Definition spacing_widths (hex_set : list (HexWrench T))
    (hole_details : list (HoleDetails T)) : list T :=
  map (fun '(hw, hd) => pymax (hole_diameter hd) (head_width hw))
      (combine hex_set hole_details).

Definition merge_hole_details (hole_details : list (HoleDetails T))
    (hole_centers : list (HoleCoords T)) : list (HoleDetails T) :=
  map (fun '(hd, coord) =>
         mkHoleDetails (hex_size hd) (hex_long_diameter hd)
                       (hole_diameter hd) (Some coord))
      (combine hole_details hole_centers).

Definition main (hex_set : list (HexWrench T)) (p : HexWrenchHolderParameters T)
  : Script (Dimensions T) :=
  hole_details <- stmt S_hole_details (Ok (initial_hole_details hex_set p)) ;;
  hex_wrench_widths <- stmt S_hex_wrench_widths (Ok (
      spacing_widths hex_set hole_details)) ;;
  max_handle_short_length <- stmt S_max_handle_short_length (
      pymax_list (map head_short_length hex_set)) ;;
  max_hole_diameter <- stmt S_max_hole_diameter (
      pymax_list (map hole_diameter hole_details)) ;;
  hole_centers <- stmt S_hole_centers (
      compute_hole_centers hex_wrench_widths
        (lengthwise_inner_spacing p) (lengthwise_border p)
        (widthwise_border p) max_handle_short_length) ;;
  hole_details <- stmt S_merge_hole_details (Ok (
      merge_hole_details hole_details hole_centers)) ;;
  holder_length <- stmt S_holder_length (
      let* last := py_last hole_details in
      let* last_hole_x_center := attr_x (hole_coords last) in
      Ok (compute_holder_length last_hole_x_center
            (hex_long_diameter last) (lengthwise_border p))) ;;
  holder_width <- stmt S_holder_width (
      let* max_handle_short_length := pymax_list (map head_short_length hex_set) in
      Ok (compute_holder_width max_handle_short_length max_hole_diameter
            (widthwise_border p))) ;;
  done (mkDimensions hole_details holder_length holder_width).

Definition table_row (hd : HoleDetails T) : TableRow T :=
  match hole_coords hd with
  | None => Row_None (hex_size hd) (hex_long_diameter hd) (hole_diameter hd)
  | Some c => Row_coords (hex_size hd) (hex_long_diameter hd) (hole_diameter hd)
                (x c) (y c)
  end.

Definition hole_table (d : Dimensions T) : list (TableRow T) :=
  map table_row (final_hole_details d).

(** The configuration hard-coded in the script. *)
Definition dec (n : N) (e : Z) : Decimal := mkDecimal false n e.

Definition hex_set : list (HexWrench T) :=
  [ create_hex_wrench (dec 2 0)  (lit 24) (lit 36);
    create_hex_wrench (dec 25 (-1)) (lit 24) (lit 36);
    create_hex_wrench (dec 3 0)  (lit 24) (lit 36);
    create_hex_wrench (dec 4 0)  (lit 24) (lit 36);
    create_hex_wrench (dec 5 0)  (lit 24) (lit 36);
    create_hex_wrench (dec 6 0)  (lit 24) (lit 36);
    create_hex_wrench (dec 8 0)  (lit 24) (lit 36);
    create_hex_wrench (dec 10 0) (lit 31) (lit 46) ].

Definition hex_wrench_holder_parameters : HexWrenchHolderParameters T :=
  mkHexWrenchHolderParameters
    (lit 5) (float_of (dec 25 (-1))) (lit 5) (lit 38)
    (float_of (dec 120 (-2))) (lit 1).

End Main.

(** Whether a line of the table is the one printed for missing coordinates. *)
Definition prints_None {T : Type} (r : TableRow T) : bool :=
  match r with
  | Row_None _ _ _ => true
  | Row_coords _ _ _ _ _ => false
  end.

(** The statements of a run that reaches the end of the script. *)
Definition all_statements : list Stmt :=
  [S_hole_details; S_hex_wrench_widths; S_max_handle_short_length;
   S_max_hole_diameter; S_hole_centers; S_merge_hole_details;
   S_holder_length; S_holder_width].

(** ** The value of a binary64 number

    Every finite binary64 number, and every exact sum or product of two of
    them, is an integer multiple of [2^(-2148)]; [SFval] is the value of a
    number in that unit, with the infinities at [+-2^1024].  [nearest_even_Z]
    is round-to-nearest-even on such values, the rounding of the IEEE
    operations. *)

Section Binary64_values.
Local Open Scope Z_scope.

Definition kscale : Z := 2148.

Definition SFval (f : spec_float) : Z :=
  match f with
  | S754_zero _ => 0
  | S754_infinity s => cond_Zopp s (2 ^ (1024 + kscale))
  | S754_nan => 0
  | S754_finite s m e => cond_Zopp s (Zpos m * 2 ^ (e + kscale))
  end.

Definition float_val (f : float) : Z := SFval (Prim2SF f).

(** Zero or finite: a number. *)
Definition SFnum (f : spec_float) : Prop :=
  match f with
  | S754_zero _ | S754_finite _ _ _ => True
  | _ => False
  end.

(** The exponent of the last kept bit of a positive value. *)
Definition cexp (V : Z) : Z := Z.max (Z.log2 V + 1 - 53) 1074.

(** Whether quotient [q] with remainder [r] out of [p] rounds up. *)
Definition round_up (q r p : Z) : bool :=
  match 2 * r ?= p with
  | Lt => false
  | Eq => negb (Z.even q)
  | Gt => true
  end.

Definition nearest_even (V : Z) : Z :=
  let c := cexp V in
  let q := V / 2 ^ c in
  let r := V mod 2 ^ c in
  (if round_up q r (2 ^ c) then q + 1 else q) * 2 ^ c.

(** Rounding of a positive value, with overflow to infinity. *)
Definition nearest_even_ov (V : Z) : Z :=
  let R := nearest_even V in
  if R <? 2 ^ (1024 + kscale) then R else 2 ^ (1024 + kscale).

Definition nearest_even_Z (z : Z) : Z :=
  match z with
  | 0 => 0
  | Zpos _ => nearest_even_ov z
  | Zneg p => - nearest_even_ov (Zpos p)
  end.

(** The rounding information kept for a remainder [r] out of [p]. *)
Definition loc_of_rem (r p : Z) : location :=
  if r =? 0 then loc_Exact else loc_Inexact (2 * r ?= p).

(** The least integer that [float] refuses: half a unit in the last place
    above the greatest float. *)
Definition int_overflow : Z := 2 ^ 1024 - 2 ^ 970.

(** The number 2 of [w / 2]. *)
Definition SFtwo : spec_float := S754_finite false 4503599627370496 (-51).

(** A finite number that is not negative: what a half width and the inner
    spacing have to be for the centers to move right. *)
Definition float_step (h : float) : Prop := SFnum (Prim2SF h) /\ 0 <= float_val h.

End Binary64_values.

(** ** The inputs of a layout in binary64

    What the numbers given to the script have to be for its layout to be in
    order whatever the rounding: finite and not negative, with long
    diameters and hole diameters that do not overflow. *)

Definition nonneg_finite (a : float) : bool :=
  (is_finite a && (0 <=? a)%float)%bool.

Definition wrench_ok (p : HexWrenchHolderParameters float) (hw : HexWrench float) : bool :=
  (nonneg_finite (size_f hw)
   && nonneg_finite (head_width hw)
   && nonneg_finite (head_short_length hw)
   && is_finite (compute_hex_long_diameter (size_f hw))
   && is_finite (compute_hole_diameter (compute_hex_long_diameter (size_f hw))
                   (hole_enlarge_factor p) (hole_enlarge_min p)))%bool.

Definition layout_inputs_ok (hs : list (HexWrench float))
    (p : HexWrenchHolderParameters float) : bool :=
  (forallb (wrench_ok p) hs
   && nonneg_finite (lengthwise_border p)
   && nonneg_finite (lengthwise_inner_spacing p)
   && nonneg_finite (widthwise_border p)
   && (0 <=? hole_enlarge_min p)%float)%bool.

(** ** Text output

    A [str] is a [string] (characters with codes below 256); what a
    function prints is the list of the texts of its [print] calls, in order
    (each is followed by a newline on the terminal). *)

(** [s * n]: [n] copies of [s], none when [n <= 0]. *)
Fixpoint str_repeat (s : string) (n : nat) : string :=
  match n with
  | O => EmptyString
  | S n' => String.append s (str_repeat s n')
  end.

Definition str_times (s : string) (n : Z) : string := str_repeat s (Z.to_nat n).

(** [len(s)] *)
Definition len (s : string) : Z := Z.of_nat (String.length s).

(** [s.expandtabs()]: a tab is replaced by the spaces that lead to the next
    multiple of 8 of the column, and the column restarts after a line feed
    or a carriage return. *)
Fixpoint expandtabs_from (column : nat) (s : string) : string :=
  match s with
  | EmptyString => EmptyString
  | String ch rest =>
      if Ascii.eqb ch "009"%char then
        let incr := (8 - column mod 8)%nat in
        String.append (str_repeat " " incr) (expandtabs_from (column + incr) rest)
      else
        String ch (expandtabs_from
                     (if (Ascii.eqb ch "010"%char || Ascii.eqb ch "013"%char)%bool
                      then 0%nat else S column) rest)
  end.

Definition expandtabs (s : string) : string := expandtabs_from 0 s.

Definition print_top_bottom (width : Z) : list string :=
  [String.append "+" (String.append (str_times "-" width) "+")].

Definition print_blank_line (width nbr_blank_lines : Z) : list string :=
  repeat (String.append "|" (String.append (str_times " " width) "|"))
         (Z.to_nat nbr_blank_lines).

Definition print_text (width : Z) (text : string) : list string :=
  let line_filler := str_times " " (width - len (expandtabs text) - 1) in
  [String.append "| " (String.append text (String.append line_filler "|"))].

(** [width] is [None] when the caller leaves it out; the default of
    [nbr_blank_lines] is 1. *)
Definition print_boxed_text (text : string) (width : option Z)
    (nbr_blank_lines : Z) : list string :=
  let width := match width with
               | None => (2 + len text)%Z
               | Some w => w
               end in
  print_top_bottom width
  ++ print_blank_line width nbr_blank_lines
  ++ print_text width text
  ++ print_blank_line width nbr_blank_lines
  ++ print_top_bottom width.

(** The defaults are [line_separator_char = '-'] and [nbr_blank_lines = 2]. *)
Definition print_table_header (title header line_separator_char : string)
    (nbr_blank_lines : Z) : list string :=
  repeat EmptyString (Z.to_nat nbr_blank_lines)
  ++ [String.append title ":";
      header;
      str_times line_separator_char (len (expandtabs header))].

(** Whether a text has a tab character. *)
Fixpoint has_tab (s : string) : bool :=
  match s with
  | EmptyString => false
  | String ch rest => (Ascii.eqb ch "009"%char || has_tab rest)%bool
  end.



(** What a sequence of [print] calls writes to the standard output: each
    text, followed by a line feed. *)
Fixpoint stdout (out : list string) : string :=
  match out with
  | [] => EmptyString
  | text :: rest => String.append text (String "010" (stdout rest))
  end.

(** The lines of an output: the texts that its line feeds end, and what
    follows the last line feed if it is not empty. *)
Fixpoint lines (s : string) : list string :=
  match s with
  | EmptyString => []
  | String ch rest =>
      if Ascii.eqb ch "010"%char then EmptyString :: lines rest
      else match lines rest with
           | [] => [String ch EmptyString]
           | line :: more => String ch line :: more
           end
  end.

(** ** Sums of real numbers *)

Definition Rsum (l : list R) : R := fold_right Rplus 0%R l.

(** * Properties *)

(** ** The loop of [compute_hole_centers] *)

Section Loop.
Context {T : Type} {num : PyNum T}.
Local Open Scope py_scope.

Lemma centers_loop_acc (yc s : T) (hs : list T) :
  forall pre acc,
    centers_loop yc s hs pre acc = acc ++ centers_loop yc s hs pre [].
Proof.
  induction hs as [|h hs IH]; intros pre acc; simpl.
  - now rewrite app_nil_r.
  - rewrite IH. rewrite (IH _ [_]). now rewrite app_assoc.
Qed.

Lemma centers_loop_cons (yc s h : T) (hs : list T) (pre : T) :
  centers_loop yc s (h :: hs) pre [] =
  mkHoleCoords (pre + h) yc :: centers_loop yc s hs (pre + h + h + s) [].
Proof. simpl. now rewrite centers_loop_acc. Qed.

Lemma centers_loop_length (yc s : T) (hs : list T) :
  forall pre, length (centers_loop yc s hs pre []) = length hs.
Proof.
  induction hs as [|h hs IH]; intros pre; [reflexivity|].
  rewrite centers_loop_cons. simpl. now rewrite IH.
Qed.

Lemma centers_loop_y (yc s : T) (hs : list T) :
  forall pre, Forall (fun c => y c = yc) (centers_loop yc s hs pre []).
Proof.
  induction hs as [|h hs IH]; intros pre; [constructor|].
  rewrite centers_loop_cons. constructor; [reflexivity | apply IH].
Qed.

(** Each center is the previous one moved right by the two half widths
    and the inner spacing, added in the order of the loop body. *)
Lemma centers_loop_step (yc s : T) (hs : list T) :
  forall pre i hi hi1 ci ci1,
    nth_error hs i = Some hi ->
    nth_error hs (S i) = Some hi1 ->
    nth_error (centers_loop yc s hs pre []) i = Some ci ->
    nth_error (centers_loop yc s hs pre []) (S i) = Some ci1 ->
    x ci1 = x ci + hi + s + hi1.
Proof.
  induction hs as [|h hs IH]; intros pre i hi hi1 ci ci1 Hi Hi1 Hc Hc1.
  - destruct i; discriminate.
  - rewrite centers_loop_cons in Hc, Hc1.
    destruct i as [|i].
    + simpl in Hi, Hc. injection Hi as <-. injection Hc as <-.
      destruct hs as [|h' hs]; [discriminate|].
      rewrite centers_loop_cons in Hc1. simpl in Hi1, Hc1.
      injection Hi1 as <-. injection Hc1 as <-. reflexivity.
    + simpl in Hi, Hi1, Hc. change (nth_error (?a :: ?l) (S (S i))) with (nth_error l (S i)) in Hc1.
      eapply IH; eassumption.
Qed.

Lemma compute_hole_centers_cons (w : T) (ws : list T) (s b wb m : T) :
  compute_hole_centers (w :: ws) s b wb m =
  Ok (mkHoleCoords (b - w / lit 2 + w / lit 2) (wb + m)
      :: centers_loop (wb + m) s (map (fun w => w / lit 2) ws)
           (b - w / lit 2 + w / lit 2 + w / lit 2 + s) []).
Proof.
  unfold compute_hole_centers. simpl py_first. cbn [bind map].
  now rewrite centers_loop_cons.
Qed.

Lemma compute_hole_centers_nil (s b wb m : T) :
  compute_hole_centers [] s b wb m = Raise IndexError.
Proof. reflexivity. Qed.

Lemma compute_hole_centers_Ok (ws : list T) (s b wb m : T) cs :
  compute_hole_centers ws s b wb m = Ok cs ->
  cs = centers_loop (wb + m) s (map (fun w => w / lit 2) ws)
         (b - hd (lit 0) (map (fun w => w / lit 2) ws)) []
  /\ ws <> [].
Proof.
  destruct ws as [|w ws]; [discriminate|].
  unfold compute_hole_centers. simpl py_first. cbn [bind].
  intros [= <-]. split; [reflexivity | discriminate].
Qed.

Lemma compute_hole_centers_length (ws : list T) (s b wb m : T) cs :
  compute_hole_centers ws s b wb m = Ok cs -> length cs = length ws.
Proof.
  intros H. apply compute_hole_centers_Ok in H as [-> _].
  now rewrite centers_loop_length, length_map.
Qed.

End Loop.

(** ** The script *)

Section ScriptLaws.
Context {T : Type} {num : PyNum T}.
Local Open Scope py_scope.

Lemma py_last_nonempty {A : Type} (l : list A) :
  l <> [] -> exists a, py_last l = Ok a.
Proof.
  induction l as [|b l IH]; [congruence|]. intros _.
  destruct l as [|c l]; [now exists b|].
  apply IH. discriminate.
Qed.

Lemma py_last_In {A : Type} (l : list A) (a : A) :
  py_last l = Ok a -> In a l.
Proof.
  induction l as [|b l IH]; [discriminate|].
  destruct l as [|c l].
  - intros [= <-]. now left.
  - intros H. right. now apply IH.
Qed.

Lemma initial_hole_details_length (hs : list (HexWrench T)) p :
  length (initial_hole_details hs p) = length hs.
Proof. apply length_map. Qed.

Lemma spacing_widths_length (hs : list (HexWrench T)) p :
  length (spacing_widths hs (initial_hole_details hs p)) = length hs.
Proof.
  unfold spacing_widths.
  rewrite length_map, length_combine, initial_hole_details_length. lia.
Qed.

Lemma merge_hole_details_length (ds : list (HoleDetails T)) cs :
  length cs = length ds -> length (merge_hole_details ds cs) = length ds.
Proof.
  intros H. unfold merge_hole_details. rewrite length_map, length_combine. lia.
Qed.

(** Every merged entry carries one of the centers. *)
Lemma merge_hole_details_coords (ds : list (HoleDetails T)) cs hd :
  In hd (merge_hole_details ds cs) ->
  exists c, In c cs /\ hole_coords hd = Some c.
Proof.
  unfold merge_hole_details. rewrite in_map_iff.
  intros [[d c] [<- Hin]]. exists c. split; [|reflexivity].
  eapply in_combine_r; eassumption.
Qed.

(** What a run that reaches the end has computed. *)
Lemma main_Finished (hs : list (HexWrench T)) p ran d :
  main hs p = (ran, Finished d) ->
  exists ms md cs last c,
    pymax_list (map head_short_length hs) = Ok ms
    /\ pymax_list (map hole_diameter (initial_hole_details hs p)) = Ok md
    /\ compute_hole_centers (spacing_widths hs (initial_hole_details hs p))
         (lengthwise_inner_spacing p) (lengthwise_border p)
         (widthwise_border p) ms = Ok cs
    /\ final_hole_details d = merge_hole_details (initial_hole_details hs p) cs
    /\ py_last (final_hole_details d) = Ok last
    /\ hole_coords last = Some c
    /\ holder_length d =
         compute_holder_length (x c) (hex_long_diameter last) (lengthwise_border p)
    /\ holder_width d = compute_holder_width ms md (widthwise_border p)
    /\ ran = all_statements.
Proof.
  unfold main.
  cbn [stmt then_ app].
  destruct (pymax_list (map head_short_length hs)) as [ms|e] eqn:Hms;
    cbn [stmt then_ app bind]; [|discriminate].
  destruct (pymax_list (map hole_diameter (initial_hole_details hs p)))
    as [md|e] eqn:Hmd; cbn [stmt then_ app bind]; [|discriminate].
  destruct (compute_hole_centers _ _ _ _ ms) as [cs|e] eqn:Hcs;
    cbn [stmt then_ app bind]; [|discriminate].
  destruct (py_last (merge_hole_details (initial_hole_details hs p) cs))
    as [last|e] eqn:Hlast; cbn [stmt then_ app bind]; [|discriminate].
  destruct (hole_coords last) as [c|] eqn:Hc;
    cbn [attr_x stmt then_ app bind done]; [|discriminate].
  intros [= <- <-]. exists ms, md, cs, last, c. cbn [final_hole_details holder_length holder_width].
  repeat split; assumption.
Qed.

(** A non-empty wrench set always reaches the end of the script. *)
Lemma main_finishes (hs : list (HexWrench T)) p :
  hs <> [] -> exists d, main hs p = (all_statements, Finished d).
Proof.
  destruct hs as [|hw hs]; [congruence|]. intros _.
  unfold main. cbn [stmt then_ app].
  cbn [map pymax_list stmt then_ app bind initial_hole_details].
  fold (initial_hole_details hs p).
  cbn [spacing_widths combine map].
  rewrite compute_hole_centers_cons.
  cbn [stmt then_ app bind].
  match goal with
  | |- context [py_last ?l] =>
      destruct (py_last_nonempty l) as [last Hlast];
        [cbn [merge_hole_details combine map]; discriminate|];
      rewrite Hlast;
      destruct (merge_hole_details_coords _ _ _ (py_last_In _ _ Hlast))
        as [c [_ Hc]]
  end.
  cbn [stmt then_ app bind]. rewrite Hc.
  cbn [attr_x stmt then_ app bind done].
  eexists. reflexivity.
Qed.

Lemma map_hole_diameter_merge (ds : list (HoleDetails T)) :
  forall cs, length cs = length ds ->
    map hole_diameter (merge_hole_details ds cs) = map hole_diameter ds.
Proof.
  unfold merge_hole_details.
  induction ds as [|d ds IH]; intros [|c cs] H; try discriminate; [reflexivity|].
  cbn [combine map hole_diameter]. f_equal. apply IH. simpl in H. lia.
Qed.

(** The last merged entry is the last phase-one entry with the last center. *)
Lemma py_last_merge (ds : list (HoleDetails T)) :
  forall cs last, length cs = length ds ->
    py_last (merge_hole_details ds cs) = Ok last ->
    exists d c, py_last ds = Ok d /\ py_last cs = Ok c
      /\ last = mkHoleDetails (hex_size d) (hex_long_diameter d)
                  (hole_diameter d) (Some c).
Proof.
  unfold merge_hole_details.
  induction ds as [|d ds IH]; intros [|c cs] last H; try discriminate.
  destruct ds as [|d' ds]; destruct cs as [|c' cs]; try discriminate.
  - intros [= <-]. now exists d, c.
  - intros Hl. apply (IH (c' :: cs)); [simpl in H |- *; lia | exact Hl].
Qed.

Lemma py_last_map {A B : Type} (f : A -> B) (l : list A) b :
  py_last (map f l) = Ok b -> exists a, py_last l = Ok a /\ b = f a.
Proof.
  induction l as [|a l IH]; [discriminate|].
  destruct l as [|a' l].
  - intros [= <-]. now exists a.
  - exact IH.
Qed.

Lemma main_centers_length (hs : list (HexWrench T)) p ms cs :
  compute_hole_centers (spacing_widths hs (initial_hole_details hs p))
    (lengthwise_inner_spacing p) (lengthwise_border p)
    (widthwise_border p) ms = Ok cs ->
  length cs = length (initial_hole_details hs p).
Proof.
  intros H. apply compute_hole_centers_length in H.
  now rewrite H, spacing_widths_length, initial_hole_details_length.
Qed.

(** The run on the empty wrench set. *)
Lemma main_nil (p : HexWrenchHolderParameters T) :
  main [] p = ([S_hole_details; S_hex_wrench_widths],
               Fault S_max_handle_short_length ValueError).
Proof. reflexivity. Qed.

End ScriptLaws.

(** ** Exact arithmetic *)

Section ExactLaws.
Local Open Scope R_scope.

Lemma Rltb_true (a b : R) : Rltb a b = true <-> a < b.
Proof. unfold Rltb. destruct (Rlt_dec a b); split; intros; try easy. Qed.

Lemma exact_pymax (a b : R) : pymax a b = Rmax a b.
Proof.
  unfold pymax, Rmax. cbn [ltb exact]. unfold Rltb.
  destruct (Rlt_dec a b), (Rle_dec a b); lra.
Qed.

Lemma exact_fold_pymax_ge (l : list R) :
  forall a, a <= fold_left pymax l a
            /\ forall z, In z l -> z <= fold_left pymax l a.
Proof.
  induction l as [|b l IH]; intros a; cbn [fold_left].
  - split; [lra | intros z []].
  - destruct (IH (pymax a b)) as [H1 H2].
    pose proof (Rmax_l a b) as Hl. pose proof (Rmax_r a b) as Hr.
    rewrite <- exact_pymax in Hl, Hr.
    split; [lra|]. intros z [Hz|Hz]; [subst z; lra | now apply H2].
Qed.

Lemma exact_fold_pymax_In (l : list R) :
  forall a, In (fold_left pymax l a) (a :: l).
Proof.
  induction l as [|b l IH]; intros a; cbn [fold_left]; [now left|].
  destruct (IH (pymax a b)) as [H|H].
  - rewrite <- H. unfold pymax. destruct (ltb a b); [right; now left | now left].
  - right. now right.
Qed.

(** In exact arithmetic [max(l)] is the greatest element of [l]. *)
Lemma exact_pymax_list_greatest (l : list R) (m : R) :
  pymax_list l = Ok m -> In m l /\ forall z, In z l -> z <= m.
Proof.
  destruct l as [|a l]; [discriminate|]. intros [= <-].
  split; [apply exact_fold_pymax_In|].
  destruct (exact_fold_pymax_ge l a) as [H1 H2].
  intros z [<-|Hz]; [exact H1 | now apply H2].
Qed.

(** The hole diameter in exact arithmetic. *)
Lemma exact_compute_hole_diameter (d f m : R) :
  compute_hole_diameter d f m = Rmax (d + m) (d * f).
Proof. unfold compute_hole_diameter. now rewrite exact_pymax. Qed.

Lemma exact_hole_diameter_ge (d f m : R) :
  0 <= m -> d <= compute_hole_diameter d f m.
Proof.
  intros Hm. rewrite exact_compute_hole_diameter.
  pose proof (Rmax_l (d + m) (d * f)). lra.
Qed.

Lemma exact_hole_diameter_mono_factor (d f1 f2 m : R) :
  0 <= d -> f1 <= f2 ->
  compute_hole_diameter d f1 m <= compute_hole_diameter d f2 m.
Proof.
  intros Hd Hf. rewrite !exact_compute_hole_diameter.
  apply Rle_max_compat_l. now apply Rmult_le_compat_l.
Qed.

Lemma exact_hole_diameter_mono_min (d f m1 m2 : R) :
  m1 <= m2 ->
  compute_hole_diameter d f m1 <= compute_hole_diameter d f m2.
Proof.
  intros Hm. rewrite !exact_compute_hole_diameter.
  apply Rle_max_compat_r. lra.
Qed.

End ExactLaws.

(** ** Binary64 arithmetic

    Rounding to nearest is monotone, so binary64 addition and multiplication
    by a non-negative number are monotone on finite numbers.  The proofs go
    through the specification of the primitive operations. *)

Section Binary64.
  Local Open Scope Z_scope.

(** *** Rounding a positive value is monotone *)

Lemma cexp_ge V : 1074 <= cexp V.
Proof. unfold cexp. lia. Qed.

Lemma cexp_mono V1 V2 : 0 < V1 -> V1 <= V2 -> cexp V1 <= cexp V2.
Proof.
  intros H1 H2. unfold cexp.
  pose proof (Z.log2_le_mono V1 V2 H2). lia.
Qed.

Lemma pow2_pos c : 0 <= c -> 0 < 2 ^ c.
Proof. intros. apply Z.pow_pos_nonneg; lia. Qed.

Lemma pow2_le a b : 0 <= a <= b -> 2 ^ a <= 2 ^ b.
Proof. intros. apply Z.pow_le_mono_r; lia. Qed.

Lemma pow2_split a b : 0 <= a <= b -> 2 ^ b = 2 ^ (b - a) * 2 ^ a.
Proof. intros. rewrite <- Z.pow_add_r by lia. f_equal. lia. Qed.

Lemma nearest_even_bounds V :
  0 < V ->
  let c := cexp V in
  (V / 2 ^ c) * 2 ^ c <= nearest_even V <= (V / 2 ^ c + 1) * 2 ^ c.
Proof.
  intros HV c. unfold nearest_even. fold c.
  pose proof (pow2_pos c ltac:(pose proof (cexp_ge V); unfold c; lia)).
  destruct (round_up _ _ _); nia.
Qed.

Lemma nearest_even_upper V :
  0 < V -> nearest_even V <= Z.max (2 ^ (Z.log2 V + 1)) (2 ^ cexp V).
Proof.
  intros HV. pose proof (nearest_even_bounds V HV) as [_ Hu]. cbv zeta in Hu.
  set (c := cexp V) in *. set (L := Z.log2 V) in *.
  assert (Hc : 1074 <= c) by apply cexp_ge.
  pose proof (pow2_pos c ltac:(lia)) as Hp.
  assert (HL : 0 <= L) by apply Z.log2_nonneg.
  assert (HVlt : V < 2 ^ (L + 1)).
  { pose proof (Z.log2_spec V HV). unfold L. replace (Z.log2 V + 1) with (Z.succ (Z.log2 V)) by lia. lia. }
  destruct (Z_le_gt_dec c (L + 1)) as [Hle|Hgt].
  - rewrite (pow2_split c (L + 1)) in HVlt |- * by lia.
    assert (V / 2 ^ c < 2 ^ (L + 1 - c)).
    { apply Z.div_lt_upper_bound; lia. }
    nia.
  - assert (2 ^ (L + 1) <= 2 ^ c) by (apply pow2_le; lia).
    rewrite Z.div_small in Hu by lia. lia.
Qed.

Lemma nearest_even_lower V :
  0 < V -> 2 ^ Z.log2 V <= nearest_even V \/ (cexp V = 1074 /\ Z.log2 V < 1074 + 52).
Proof.
  intros HV. pose proof (nearest_even_bounds V HV) as [Hl _]. cbv zeta in Hl.
  set (c := cexp V) in *. set (L := Z.log2 V) in *.
  assert (Hc : 1074 <= c) by apply cexp_ge.
  pose proof (pow2_pos c ltac:(lia)) as Hp.
  assert (HL : 0 <= L) by apply Z.log2_nonneg.
  destruct (Z_le_gt_dec c L) as [Hle|Hgt].
  - left.
    assert (HVge : 2 ^ L <= V) by (pose proof (Z.log2_spec V HV); unfold L; lia).
    rewrite (pow2_split c L) in HVge |- * by lia.
    assert (2 ^ (L - c) <= V / 2 ^ c).
    { apply Z.div_le_lower_bound; lia. }
    nia.
  - right. unfold c, cexp in *. fold L in Hgt |- *. lia.
Qed.

(** The main step: a larger value never rounds below a smaller one. *)
Lemma nearest_even_mono V1 V2 : 0 < V1 -> V1 <= V2 -> nearest_even V1 <= nearest_even V2.
Proof.
  intros H1 H12.
  pose proof (cexp_mono V1 V2 H1 H12) as Hc.
  pose proof (cexp_ge V1) as Hc1.
  destruct (Z.eq_dec (cexp V1) (cexp V2)) as [E|NE].
  - unfold nearest_even. rewrite <- E. set (c := cexp V1) in *.
    pose proof (pow2_pos c ltac:(lia)) as Hp.
    pose proof (Z.div_mod V1 (2 ^ c) ltac:(lia)) as D1.
    pose proof (Z.div_mod V2 (2 ^ c) ltac:(lia)) as D2.
    pose proof (Z.mod_pos_bound V1 (2 ^ c) Hp) as B1.
    pose proof (Z.mod_pos_bound V2 (2 ^ c) Hp) as B2.
    set (q1 := V1 / 2 ^ c) in *. set (q2 := V2 / 2 ^ c) in *.
    set (r1 := V1 mod 2 ^ c) in *. set (r2 := V2 mod 2 ^ c) in *.
    assert (Hq : q1 <= q2) by (apply Z.div_le_mono; lia).
    destruct (Z.eq_dec q1 q2) as [Eq|Nq].
    + rewrite <- Eq in *. assert (r1 <= r2) by nia.
      unfold round_up.
      destruct (Z.compare_spec (2 * r1) (2 ^ c)), (Z.compare_spec (2 * r2) (2 ^ c));
        try lia; destruct (Z.even q1); cbn; nia.
    + destruct (round_up q1 r1 _), (round_up q2 r2 _); nia.
  - assert (Hlt : cexp V1 < cexp V2) by lia.
    assert (H2 : 0 < V2) by lia.
    pose proof (nearest_even_upper V1 H1) as U.
    pose proof (nearest_even_lower V2 H2) as [Lw|[Lw _]]; [|lia].
    assert (HL : Z.log2 V1 < Z.log2 V2) by (unfold cexp in *; lia).
    assert (cexp V2 <= Z.log2 V2) by (unfold cexp in *; lia).
    pose proof (Z.log2_nonneg V1).
    assert (2 ^ (Z.log2 V1 + 1) <= 2 ^ Z.log2 V2) by (apply pow2_le; lia).
    assert (2 ^ cexp V1 <= 2 ^ Z.log2 V2) by (apply pow2_le; lia).
    lia.
Qed.

(** *** The shifts of [binary_round_aux] *)

Lemma fexp64 x : fexp prec emax x = Z.max (x - 53) (-1074).
Proof. reflexivity. Qed.

Lemma digits2_pos_size p : digits2_pos p = Pos.size p.
Proof. induction p; simpl; congruence. Qed.

Lemma Zdigits2_log2 p : Zdigits2 (Zpos p) = Z.log2 (Zpos p) + 1.
Proof.
  unfold Zdigits2. rewrite digits2_pos_size.
  destruct p; simpl; try reflexivity; rewrite Pos2Z.inj_succ; lia.
Qed.

Lemma digits_bounds p :
  2 ^ (Zdigits2 (Zpos p) - 1) <= Zpos p < 2 ^ Zdigits2 (Zpos p).
Proof.
  rewrite Zdigits2_log2.
  pose proof (Z.log2_spec (Zpos p) ltac:(lia)).
  replace (Z.log2 (Zpos p) + 1 - 1) with (Z.log2 (Zpos p)) by lia.
  replace (Z.log2 (Zpos p) + 1) with (Z.succ (Z.log2 (Zpos p))) by lia. lia.
Qed.

(** [iter_pos] iterates. *)
Lemma iter_pos_nat {A} (f : A -> A) p : forall x,
  SpecFloat.iter_pos f p x = Nat.iter (Pos.to_nat p) f x.
Proof.
  induction p as [p IH|p IH|]; intros x; simpl SpecFloat.iter_pos.
  - rewrite !IH. rewrite Pos2Nat.inj_xI.
    replace (S (2 * Pos.to_nat p))%nat with (Pos.to_nat p + (Pos.to_nat p + 1))%nat by lia.
    rewrite !Nat.iter_add. reflexivity.
  - rewrite !IH. rewrite Pos2Nat.inj_xO.
    replace (2 * Pos.to_nat p)%nat with (Pos.to_nat p + Pos.to_nat p)%nat by lia.
    rewrite Nat.iter_add. reflexivity.
  - reflexivity.
Qed.

Lemma shr_1_spec m r s :
  0 <= m ->
  shr_1 (Build_shr_record m r s) = Build_shr_record (m / 2) (Z.odd m) (r || s).
Proof.
  intros Hm. destruct m as [|p|p]; [reflexivity| |lia].
  destruct p as [p|p|]; unfold shr_1.
  - f_equal. rewrite Pos2Z.inj_xI. rewrite Z.mul_comm, Z.div_add_l by lia.
    rewrite Z.div_small; lia.
  - f_equal. rewrite Pos2Z.inj_xO. rewrite Z.mul_comm, Z.div_mul; lia.
  - reflexivity.
Qed.

(** After [k] one-bit shifts the record holds the quotient by [2^k] and
    the position of the remainder with respect to one half. *)
Lemma shr_iter_spec m : 0 <= m -> forall k,
  let rec := Nat.iter k shr_1 (Build_shr_record m false false) in
  shr_m rec = m / 2 ^ Z.of_nat k
  /\ (shr_r rec || shr_s rec) = negb (m mod 2 ^ Z.of_nat k =? 0)
  /\ loc_of_shr_record rec = loc_of_rem (m mod 2 ^ Z.of_nat k) (2 ^ Z.of_nat k).
Proof.
  intros Hm. induction k as [|k IH].
  - cbn. rewrite Z.div_1_r, Z.mod_1_r. repeat split.
  - cbv zeta in IH |- *. rewrite Nat.iter_succ.
    destruct (Nat.iter k shr_1 _) as [mk rk sk].
    cbn [shr_m shr_r shr_s] in IH. destruct IH as (Hmk & Hrs & Hloc).
    assert (Hp : 0 < 2 ^ Z.of_nat k) by (apply pow2_pos; lia).
    assert (Hmk0 : 0 <= mk) by (subst mk; apply Z.div_pos; lia).
    rewrite shr_1_spec by assumption. cbn [shr_m shr_r shr_s].
    rewrite Nat2Z.inj_succ, Z.pow_succ_r by lia.
    set (p := 2 ^ Z.of_nat k) in *.
    assert (Hdiv : m / (2 * p) = mk / 2).
    { subst mk. rewrite Z.div_div by lia. f_equal. lia. }
    assert (Hmod : m mod (2 * p) = m mod p + p * (mk mod 2)).
    { subst mk. rewrite Z.mul_comm. rewrite Z.rem_mul_r by lia. reflexivity. }
    pose proof (Z.mod_pos_bound m p Hp) as Hb.
    rewrite Hdiv, Hmod. split; [reflexivity|].
    rewrite Hrs. pose proof Hloc as Hloc0. clear Hloc.
    assert (Hodd : mk mod 2 = if Z.odd mk then 1 else 0).
    { rewrite Zmod_odd. reflexivity. }
    rewrite Hodd. unfold loc_of_rem. clear Hloc0.
    destruct (Z.odd mk); destruct (Z.eqb_spec (m mod p) 0) as [E|E];
      cbn [negb orb loc_of_shr_record];
      repeat match goal with
        | |- context [?a =? ?b] => destruct (Z.eqb_spec a b); try lia
        | |- context [?a ?= ?b] => destruct (Z.compare_spec a b); try lia
        end;
      split; reflexivity.
Qed.

Lemma round_nearest_even_rem q r p :
  0 < p -> 0 <= r ->
  round_nearest_even q (loc_of_rem r p) = if round_up q r p then q + 1 else q.
Proof.
  intros Hp Hr. unfold loc_of_rem, round_up.
  destruct (Z.eqb_spec r 0) as [->|E].
  - replace (2 * 0) with 0 by lia.
    destruct (Z.compare_spec 0 p); try lia. reflexivity.
  - destruct (2 * r ?= p); cbn [round_nearest_even negb]; try reflexivity.
    destruct (Z.even q); reflexivity.
Qed.

Lemma shr_fexp_exact m e :
  0 <= m ->
  let n := fexp prec emax (Zdigits2 m + e) - e in
  0 <= n ->
  exists rec,
    shr_fexp prec emax m e loc_Exact = (rec, e + n)
    /\ shr_m rec = m / 2 ^ n
    /\ loc_of_shr_record rec = loc_of_rem (m mod 2 ^ n) (2 ^ n).
Proof.
  intros Hm n Hn. unfold shr_fexp. fold n. unfold shr. cbn [shr_record_of_loc].
  destruct n as [|p|p] eqn:En; [| |lia].
  - eexists. split; [rewrite Z.add_0_r; reflexivity|].
    cbn [shr_m loc_of_shr_record]. rewrite Z.pow_0_r, Z.div_1_r, Z.mod_1_r.
    split; reflexivity.
  - rewrite iter_pos_nat.
    destruct (shr_iter_spec m Hm (Pos.to_nat p)) as (H1 & _ & H3).
    cbv zeta in H1, H3. rewrite positive_nat_Z in H1, H3.
    eexists. split; [reflexivity|]. split; assumption.
Qed.

Lemma pow2_add a b : 0 <= a -> 0 <= b -> 2 ^ (a + b) = 2 ^ a * 2 ^ b.
Proof. intros. apply Z.pow_add_r; lia. Qed.

Lemma round_up_scale q r p s :
  0 < s -> round_up q (r * s) (p * s) = round_up q r p.
Proof.
  intros Hs. unfold round_up.
  replace (2 * (r * s)) with ((2 * r) * s) by lia.
  rewrite <- (Zmult_compare_compat_r (2 * r) p s) by lia. reflexivity.
Qed.

(** The integer quotient kept by the first shift, and what is known of it. *)
Lemma first_shift_facts (m : positive) e :
  let n := fexp prec emax (Zdigits2 (Zpos m) + e) - e in
  0 <= n ->
  let q := Zpos m / 2 ^ n in
  -1074 <= e + n /\ 0 <= q < 2 ^ 53 /\ (e + n = -1074 \/ 2 ^ 52 <= q).
Proof.
  intros n Hn q. subst n q. rewrite fexp64 in *.
  pose proof (digits_bounds m) as [Dl Du].
  set (d := Zdigits2 (Zpos m)) in *.
  assert (Hd : 1 <= d) by (unfold d; rewrite Zdigits2_log2; pose proof (Z.log2_nonneg (Zpos m)); lia).
  set (n := Z.max (d + e - 53) (-1074) - e) in *.
  assert (Hp : 0 < 2 ^ n) by (apply pow2_pos; lia).
  split; [lia|]. split; [split|].
  - apply Z.div_pos; lia.
  - apply Z.div_lt_upper_bound; [lia|].
    rewrite <- pow2_add by lia.
    assert (2 ^ d <= 2 ^ (n + 53)) by (apply pow2_le; lia). lia.
  - destruct (Z_le_gt_dec (d + e - 53) (-1074)) as [H|H]; [left; lia|right].
    assert (En : n = d - 53) by lia.
    apply Z.div_le_lower_bound; [lia|].
    rewrite Z.mul_comm, <- pow2_add by lia.
    replace (52 + n) with (d - 1) by lia. exact Dl.
Qed.

Lemma nearest_even_first_shift (m : positive) e :
  let n := fexp prec emax (Zdigits2 (Zpos m) + e) - e in
  0 <= n -> 0 <= e + kscale ->
  let q := Zpos m / 2 ^ n in
  let r := Zpos m mod 2 ^ n in
  nearest_even (Zpos m * 2 ^ (e + kscale))
  = (if round_up q r (2 ^ n) then q + 1 else q) * 2 ^ (e + n + kscale).
Proof.
  intros n Hn He q r.
  assert (Hc : cexp (Zpos m * 2 ^ (e + kscale)) = e + n + kscale).
  { unfold cexp. rewrite Z.log2_mul_pow2 by lia.
    subst n. rewrite fexp64, Zdigits2_log2. unfold kscale in *. clear. lia. }
  unfold nearest_even. rewrite Hc.
  assert (Hs : 0 < 2 ^ (e + kscale)) by (apply pow2_pos; lia).
  assert (Hp : 0 < 2 ^ n) by (apply pow2_pos; lia).
  replace (e + n + kscale) with (n + (e + kscale)) by lia.
  rewrite (pow2_add n (e + kscale)) by lia.
  rewrite Z.div_mul_cancel_r by lia.
  rewrite Zmult_mod_distr_r.
  rewrite round_up_scale by lia. reflexivity.
Qed.

Lemma shr_fexp_noshift m e :
  fexp prec emax (Zdigits2 m + e) - e <= 0 ->
  shr_fexp prec emax m e loc_Exact = (Build_shr_record m false false, e).
Proof.
  intros H. unfold shr_fexp, shr. cbn [shr_record_of_loc].
  destruct (fexp prec emax (Zdigits2 m + e) - e); try reflexivity. lia.
Qed.

Lemma Zdigits2_small q :
  0 < q < 2 ^ 53 -> 1 <= Zdigits2 q <= 53.
Proof.
  intros [H0 H1]. destruct q as [|p|p]; try lia.
  pose proof (digits_bounds p) as [Dl _].
  rewrite Zdigits2_log2 in *. pose proof (Z.log2_nonneg (Zpos p)).
  split; [lia|].
  destruct (Z_le_gt_dec (Z.log2 (Zpos p) + 1) 53); [assumption|].
  assert (2 ^ 53 <= 2 ^ (Z.log2 (Z.pos p) + 1 - 1)) by (apply pow2_le; lia). lia.
Qed.

Lemma Zdigits2_normal q :
  2 ^ 52 <= q < 2 ^ 53 -> Zdigits2 q = 53.
Proof.
  intros [H0 H1]. assert (Hq : 0 < q) by (pose proof (pow2_pos 52); lia).
  pose proof (Zdigits2_small q ltac:(lia)) as [_ Hu].
  destruct q as [|p|p]; try lia.
  pose proof (digits_bounds p) as [_ Du].
  destruct (Z_le_gt_dec 53 (Zdigits2 (Zpos p))); [lia|].
  assert (2 ^ Zdigits2 (Zpos p) <= 2 ^ 52).
  { apply pow2_le. rewrite Zdigits2_log2 in *. pose proof (Z.log2_nonneg (Zpos p)). lia. }
  lia.
Qed.

(** [binary_round_aux] on an exact mantissa rounds the value to nearest
    even, with overflow to infinity. *)
Lemma binary_round_aux_val s (m : positive) e :
  let n := fexp prec emax (Zdigits2 (Zpos m) + e) - e in
  0 <= n -> 0 <= e + kscale ->
  let r := binary_round_aux prec emax s (Zpos m) e loc_Exact in
  r <> S754_nan /\ SFval r = cond_Zopp s (nearest_even_ov (Zpos m * 2 ^ (e + kscale))).
Proof.
  intros n Hn He r.
  destruct (shr_fexp_exact (Zpos m) e ltac:(lia) Hn) as (rec & E1 & Hm1 & Hloc1).
  fold n in E1, Hm1, Hloc1.
  destruct (first_shift_facts m e Hn) as (He' & Hq & Hq52). fold n in He', Hq, Hq52.
  pose proof (nearest_even_first_shift m e Hn He) as HR. fold n in HR. cbv zeta in HR.
  assert (Hp : 0 < 2 ^ n) by (apply pow2_pos; lia).
  pose proof (Z.mod_pos_bound (Zpos m) (2 ^ n) Hp) as Hrm.
  subst r. unfold binary_round_aux. rewrite E1, Hloc1, Hm1.
  rewrite round_nearest_even_rem by lia.
  set (q := Zpos m / 2 ^ n) in *. set (rm := Zpos m mod 2 ^ n) in *.
  set (q' := if round_up q rm (2 ^ n) then q + 1 else q) in *.
  set (e' := e + n) in *.
  assert (Hq' : q <= q' <= q + 1) by (subst q'; destruct (round_up _ _ _); lia).
  assert (Hs : 0 < 2 ^ (e' + kscale)) by (apply pow2_pos; unfold kscale in *; lia).
  unfold nearest_even_ov. rewrite HR. clear HR E1 Hloc1 Hm1.
  assert (C53 : 2 ^ 53 = 9007199254740992) by reflexivity.
  assert (C52 : 2 ^ 52 = 4503599627370496) by reflexivity.
  destruct (Z.eq_dec q' 0) as [Z0|NZ0]; [|destruct (Z.eq_dec q' (2 ^ 53)) as [Z53|NZ53]].
  - (* rounds to zero *)
    rewrite Z0. rewrite shr_fexp_noshift by (rewrite fexp64; cbn [Zdigits2]; lia).
    cbn [shr_m]. split; [discriminate|].
    cbn [SFval]. rewrite Z.mul_0_l.
    destruct (Z.ltb_spec 0 (2 ^ (1024 + kscale))); [destruct s; reflexivity|].
    pose proof (pow2_pos (1024 + kscale) ltac:(unfold kscale; lia)). lia.
  - (* the rounded mantissa needs one more bit *)
    rewrite Z53. rewrite C53.
    unfold shr_fexp. cbn [Zdigits2 digits2_pos Pos.succ shr_record_of_loc].
    rewrite fexp64. replace (Z.max (54 + e' - 53) (-1074) - e') with 1 by lia.
    cbn [shr SpecFloat.iter_pos shr_1 shr_m].
    assert (Hv : 9007199254740992 * 2 ^ (e' + kscale) = 4503599627370496 * 2 ^ (e' + 1 + kscale)).
    { replace (e' + 1 + kscale) with (1 + (e' + kscale)) by lia.
      rewrite (pow2_add 1 (e' + kscale)) by (unfold kscale in *; lia). lia. }
    destruct (Z.leb_spec (e' + 1) (emax - prec)) as [Hle|Hgt];
      (split; [discriminate|]); cbn [SFval]; f_equal; rewrite Hv.
    + assert (2 ^ (e' + 1 + kscale) <= 2 ^ (971 + kscale))
        by (apply pow2_le; unfold emax, prec, kscale in *; lia).
      assert (2 ^ (1024 + kscale) = 2 ^ 53 * 2 ^ (971 + kscale))
        by (rewrite <- pow2_add by (unfold kscale; lia); f_equal; lia).
      destruct (Z.ltb_spec (4503599627370496 * 2 ^ (e' + 1 + kscale)) (2 ^ (1024 + kscale))); [reflexivity|].
      pose proof (pow2_pos (971 + kscale) ltac:(unfold kscale; lia)). nia.
    + assert (2 ^ (972 + kscale) <= 2 ^ (e' + 1 + kscale))
        by (apply pow2_le; unfold emax, prec, kscale in *; lia).
      assert (2 ^ (1024 + kscale) = 2 ^ 52 * 2 ^ (972 + kscale))
        by (rewrite <- pow2_add by (unfold kscale; lia); f_equal; lia).
      destruct (Z.ltb_spec (4503599627370496 * 2 ^ (e' + 1 + kscale)) (2 ^ (1024 + kscale))); [|reflexivity].
      pose proof (pow2_pos (972 + kscale) ltac:(unfold kscale; lia)). nia.
  - (* the rounded mantissa fits *)
    assert (Hq'r : 0 < q' < 2 ^ 53) by lia.
    pose proof (Zdigits2_small q' Hq'r) as Hd.
    assert (Hfe : fexp prec emax (Zdigits2 q' + e') = e').
    { rewrite fexp64. destruct Hq52 as [Em|Hq52]; [lia|].
      rewrite (Zdigits2_normal q') by lia. lia. }
    rewrite shr_fexp_noshift by lia. cbn [shr_m].
    destruct q' as [|pq|pq] eqn:Eq'; try lia.
    destruct (Z.leb_spec e' (emax - prec)) as [Hle|Hgt];
      (split; [discriminate|]); cbn [SFval]; f_equal.
    + assert (2 ^ (e' + kscale) <= 2 ^ (971 + kscale))
        by (apply pow2_le; unfold emax, prec, kscale in *; lia).
      assert (2 ^ (1024 + kscale) = 2 ^ 53 * 2 ^ (971 + kscale))
        by (rewrite <- pow2_add by (unfold kscale; lia); f_equal; lia).
      destruct (Z.ltb_spec (Zpos pq * 2 ^ (e' + kscale)) (2 ^ (1024 + kscale))); [reflexivity|].
      pose proof (pow2_pos (971 + kscale) ltac:(unfold kscale; lia)). nia.
    + assert (2 ^ (972 + kscale) <= 2 ^ (e' + kscale))
        by (apply pow2_le; unfold emax, prec, kscale in *; lia).
      assert (2 ^ (1024 + kscale) = 2 ^ 52 * 2 ^ (972 + kscale))
        by (rewrite <- pow2_add by (unfold kscale; lia); f_equal; lia).
      assert (2 ^ 52 <= Zpos pq) by (unfold emax, prec in *; lia).
      destruct (Z.ltb_spec (Zpos pq * 2 ^ (e' + kscale)) (2 ^ (1024 + kscale))); [|reflexivity].
      pose proof (pow2_pos (972 + kscale) ltac:(unfold kscale; lia)). nia.
Qed.

(** *** Valid finite numbers *)

Lemma bounded_facts (m : positive) e :
  SpecFloat.bounded prec emax m e = true ->
  -1074 <= e <= 971 /\ Zpos m < 2 ^ 53 /\ (e = -1074 \/ 2 ^ 52 <= Zpos m)
  /\ fexp prec emax (Zdigits2 (Zpos m) + e) = e.
Proof.
  unfold SpecFloat.bounded, canonical_mantissa. intros H.
  apply andb_true_iff in H as [Hc Hb].
  apply Z.eqb_eq in Hc. apply Z.leb_le in Hb.
  change (Zpos (digits2_pos m)) with (Zdigits2 (Zpos m)) in Hc.
  pose proof (digits_bounds m) as [Dl Du].
  pose proof Hc as Hc'. rewrite fexp64 in Hc'.
  set (d := Zdigits2 (Zpos m)) in *.
  assert (Hd : 1 <= d) by (unfold d; rewrite Zdigits2_log2; pose proof (Z.log2_nonneg (Zpos m)); lia).
  unfold emax, prec in Hb.
  split; [lia|]. split; [|split; [|exact Hc]].
  - assert (2 ^ d <= 2 ^ 53) by (apply pow2_le; lia). lia.
  - destruct (Z.eq_dec e (-1074)); [now left|right].
    assert (d = 53) by lia.
    replace 52 with (d - 1) by lia. exact Dl.
Qed.

Lemma nearest_even_representable (m : positive) e :
  SpecFloat.bounded prec emax m e = true ->
  nearest_even_ov (Zpos m * 2 ^ (e + kscale)) = Zpos m * 2 ^ (e + kscale).
Proof.
  intros Hb. destruct (bounded_facts m e Hb) as (He & Hm & Hn & Hc).
  assert (Hn0 : 0 <= fexp prec emax (Zdigits2 (Zpos m) + e) - e) by lia.
  pose proof (nearest_even_first_shift m e Hn0 ltac:(unfold kscale; lia)) as HR.
  cbv zeta in HR. rewrite Hc in HR.
  replace (e - e) with 0 in HR by lia.
  rewrite Z.pow_0_r, Z.div_1_r, Z.mod_1_r in HR.
  change (round_up (Zpos m) 0 1) with false in HR. cbv iota in HR.
  replace (e + 0 + kscale) with (e + kscale) in HR by lia.
  unfold nearest_even_ov. rewrite HR.
  assert (2 ^ (e + kscale) <= 2 ^ (971 + kscale)) by (apply pow2_le; unfold kscale; lia).
  assert (2 ^ (1024 + kscale) = 2 ^ 53 * 2 ^ (971 + kscale))
    by (rewrite <- pow2_add by (unfold kscale; lia); f_equal; lia).
  pose proof (pow2_pos (971 + kscale) ltac:(unfold kscale; lia)).
  destruct (Z.ltb_spec (Zpos m * 2 ^ (e + kscale)) (2 ^ (1024 + kscale))); [reflexivity|nia].
Qed.

(** *** The symmetric rounding *)

Lemma nearest_even_nonneg V : 0 < V -> 0 <= nearest_even V.
Proof.
  intros HV. pose proof (nearest_even_bounds V HV) as [Hl _]. cbv zeta in Hl.
  pose proof (pow2_pos (cexp V) ltac:(pose proof (cexp_ge V); lia)).
  assert (0 <= V / 2 ^ cexp V) by (apply Z.div_pos; lia). nia.
Qed.

Lemma nearest_even_ov_bounds V : 0 < V -> 0 <= nearest_even_ov V <= 2 ^ (1024 + kscale).
Proof.
  intros HV. unfold nearest_even_ov. pose proof (nearest_even_nonneg V HV).
  pose proof (pow2_pos (1024 + kscale) ltac:(unfold kscale; lia)).
  destruct (Z.ltb_spec (nearest_even V) (2 ^ (1024 + kscale))); lia.
Qed.

Lemma nearest_even_ov_mono V1 V2 : 0 < V1 -> V1 <= V2 -> nearest_even_ov V1 <= nearest_even_ov V2.
Proof.
  intros H1 H2. pose proof (nearest_even_mono V1 V2 H1 H2). unfold nearest_even_ov.
  destruct (Z.ltb_spec (nearest_even V1) (2 ^ (1024 + kscale))),
           (Z.ltb_spec (nearest_even V2) (2 ^ (1024 + kscale))); lia.
Qed.

Lemma nearest_even_Z_pos z : 0 < z -> nearest_even_Z z = nearest_even_ov z.
Proof. destruct z; try lia. reflexivity. Qed.

Lemma nearest_even_Z_neg z : z < 0 -> nearest_even_Z z = - nearest_even_ov (- z).
Proof. destruct z; try lia. reflexivity. Qed.

Lemma nearest_even_Z_cond_Zopp s V : 0 < V -> nearest_even_Z (cond_Zopp s V) = cond_Zopp s (nearest_even_ov V).
Proof.
  intros HV. destruct s; cbn [cond_Zopp].
  - rewrite nearest_even_Z_neg by lia. now rewrite Z.opp_involutive.
  - now apply nearest_even_Z_pos.
Qed.

Lemma nearest_even_Z_bounds z : - 2 ^ (1024 + kscale) <= nearest_even_Z z <= 2 ^ (1024 + kscale).
Proof.
  pose proof (pow2_pos (1024 + kscale) ltac:(unfold kscale; lia)).
  destruct (Z.lt_trichotomy z 0) as [H0|[->|H0]].
  - rewrite nearest_even_Z_neg by lia. pose proof (nearest_even_ov_bounds (- z) ltac:(lia)). lia.
  - cbn. lia.
  - rewrite nearest_even_Z_pos by lia. pose proof (nearest_even_ov_bounds z ltac:(lia)). lia.
Qed.

Lemma nearest_even_Z_mono z1 z2 : z1 <= z2 -> nearest_even_Z z1 <= nearest_even_Z z2.
Proof.
  intros H.
  destruct (Z.lt_trichotomy z1 0) as [H1|[->|H1]];
  destruct (Z.lt_trichotomy z2 0) as [H2|[->|H2]]; try lia.
  - rewrite (nearest_even_Z_neg z1), (nearest_even_Z_neg z2) by lia.
    pose proof (nearest_even_ov_mono (- z2) (- z1) ltac:(lia) ltac:(lia)). lia.
  - rewrite (nearest_even_Z_neg z1) by lia. pose proof (nearest_even_ov_bounds (- z1) ltac:(lia)). cbn. lia.
  - rewrite (nearest_even_Z_neg z1), (nearest_even_Z_pos z2) by lia.
    pose proof (nearest_even_ov_bounds (- z1) ltac:(lia)). pose proof (nearest_even_ov_bounds z2 ltac:(lia)). lia.
  - rewrite (nearest_even_Z_pos z2) by lia. pose proof (nearest_even_ov_bounds z2 ltac:(lia)). cbn. lia.
  - rewrite (nearest_even_Z_pos z1), (nearest_even_Z_pos z2) by lia. apply nearest_even_ov_mono; lia.
Qed.

(** *** [binary_round] and [binary_normalize] *)

Lemma Pos_iter_xO (m d : positive) :
  Zpos (Pos.iter xO m d) = Zpos m * 2 ^ Zpos d.
Proof.
  induction d as [|d IH] using Pos.peano_ind.
  - cbn [Pos.iter]. rewrite Z.pow_1_r. lia.
  - rewrite Pos.iter_succ. rewrite Pos2Z.inj_xO, IH.
    rewrite Pos2Z.inj_succ, Z.pow_succ_r by lia. lia.
Qed.

Lemma binary_round_val s (m : positive) e :
  0 <= e + kscale ->
  let r := binary_round prec emax s m e in
  r <> S754_nan /\ SFval r = cond_Zopp s (nearest_even_ov (Zpos m * 2 ^ (e + kscale))).
Proof.
  intros He r. subst r. unfold binary_round, shl_align.
  change (Zpos (digits2_pos m)) with (Zdigits2 (Zpos m)).
  set (f := fexp prec emax (Zdigits2 (Zpos m) + e)).
  assert (Hf : f = Z.max (Zdigits2 (Zpos m) + e - 53) (-1074)) by (unfold f; apply fexp64).
  destruct (f - e) as [|d|d] eqn:Ed.
  - apply binary_round_aux_val; [fold f; lia | exact He].
  - apply binary_round_aux_val; [fold f; lia | exact He].
  - assert (Hd : Zpos d = e - f) by lia.
    pose proof (binary_round_aux_val s (Pos.iter xO m d) f) as H.
    cbv zeta in H.
    assert (Hdig : Zdigits2 (Zpos (Pos.iter xO m d)) + f = Zdigits2 (Zpos m) + e).
    { rewrite !Zdigits2_log2, Pos_iter_xO, Z.log2_mul_pow2 by lia. lia. }
    rewrite Hdig in H. fold f in H.
    destruct H as [H1 H2]; [lia | unfold kscale in *; lia |].
    split; [exact H1|]. rewrite H2. do 2 f_equal.
    rewrite Pos_iter_xO, Hd, <- Z.mul_assoc, <- pow2_add by (unfold kscale in *; lia).
    do 2 f_equal. lia.
Qed.

Lemma binary_normalize_val M e :
  0 <= e + kscale ->
  let r := binary_normalize prec emax M e false in
  r <> S754_nan /\ SFval r = nearest_even_Z (M * 2 ^ (e + kscale)).
Proof.
  intros He r. subst r.
  assert (Hs : 0 < 2 ^ (e + kscale)) by (apply pow2_pos; lia).
  destruct M as [|m|m]; cbn [binary_normalize].
  - split; [discriminate | reflexivity].
  - destruct (binary_round_val false m e He) as [H1 H2].
    split; [exact H1|]. rewrite H2. cbn [cond_Zopp].
    rewrite nearest_even_Z_pos by nia. reflexivity.
  - destruct (binary_round_val true m e He) as [H1 H2].
    split; [exact H1|]. rewrite H2. cbn [cond_Zopp].
    rewrite nearest_even_Z_neg by nia. do 2 f_equal. lia.
Qed.

(** *** Comparison is comparison of values *)

Lemma cond_Zopp_mul s a b : cond_Zopp s a * b = cond_Zopp s (a * b).
Proof. destruct s; cbn [cond_Zopp]; lia. Qed.

Lemma finite_val_bounds (m : positive) e :
  SpecFloat.bounded prec emax m e = true ->
  0 < Zpos m * 2 ^ (e + kscale) < 2 ^ (1024 + kscale).
Proof.
  intros Hb. destruct (bounded_facts m e Hb) as (He & Hm & _).
  assert (0 < 2 ^ (e + kscale)) by (apply pow2_pos; unfold kscale; lia).
  assert (2 ^ (e + kscale) <= 2 ^ (971 + kscale)) by (apply pow2_le; unfold kscale; lia).
  assert (2 ^ (1024 + kscale) = 2 ^ 53 * 2 ^ (971 + kscale))
    by (rewrite <- pow2_add by (unfold kscale; lia); f_equal; lia).
  nia.
Qed.

Lemma finite_lt (m1 m2 : positive) e1 e2 :
  SpecFloat.bounded prec emax m1 e1 = true -> SpecFloat.bounded prec emax m2 e2 = true ->
  e1 < e2 -> Zpos m1 * 2 ^ (e1 + kscale) < Zpos m2 * 2 ^ (e2 + kscale).
Proof.
  intros B1 B2 Hlt.
  destruct (bounded_facts m1 e1 B1) as (He1 & Hm1 & _).
  destruct (bounded_facts m2 e2 B2) as (He2 & _ & Hn2 & _).
  destruct Hn2 as [E|Hn2]; [lia|].
  assert (Hp1 : 0 < 2 ^ (e1 + kscale)) by (apply pow2_pos; unfold kscale; lia).
  assert (Hp : 2 ^ (e1 + 1 + kscale) <= 2 ^ (e2 + kscale)) by (apply pow2_le; unfold kscale; lia).
  replace (e1 + 1 + kscale) with (1 + (e1 + kscale)) in Hp by lia.
  rewrite pow2_add in Hp by (unfold kscale; lia).
  change (2 ^ 1) with 2 in Hp.
  change (2 ^ 53) with (2 * 2 ^ 52) in Hm1.
  assert (0 < 2 ^ 52) by reflexivity. nia.
Qed.

Lemma finite_compare (m1 m2 : positive) e1 e2 :
  SpecFloat.bounded prec emax m1 e1 = true -> SpecFloat.bounded prec emax m2 e2 = true ->
  (Zpos m1 * 2 ^ (e1 + kscale) ?= Zpos m2 * 2 ^ (e2 + kscale))
  = match e1 ?= e2 with
    | Lt => Lt
    | Gt => Gt
    | Eq => Pos.compare_cont Eq m1 m2
    end.
Proof.
  intros B1 B2. destruct (Z.compare_spec e1 e2) as [E|L|G].
  - subst e2. destruct (bounded_facts m1 e1 B1) as (He1 & _).
    rewrite <- Zmult_compare_compat_r
      by (apply Z.lt_gt, pow2_pos; unfold kscale; lia).
    reflexivity.
  - apply Z.compare_lt_iff. now apply finite_lt.
  - apply Z.compare_gt_iff. now apply finite_lt.
Qed.

(** On valid numbers the comparison of the specification is the comparison
    of values. *)
Lemma SFcompare_val x y :
  valid_binary x = true -> valid_binary y = true ->
  x <> S754_nan -> y <> S754_nan ->
  SFcompare x y = Some (SFval x ?= SFval y).
Proof.
  intros Vx Vy Nx Ny.
  pose proof (pow2_pos (1024 + kscale) ltac:(unfold kscale; lia)) as HI.
  destruct x as [sx|sx| |sx mx ex]; [| |congruence|];
  destruct y as [sy|sy| |sy my ey]; try congruence;
  cbn [valid_binary SpecFloat.valid_binary] in Vx, Vy;
  try (pose proof (finite_val_bounds mx ex Vx) as Bx);
  try (pose proof (finite_val_bounds my ey Vy) as By);
  cbn [SFcompare SFval]; f_equal; symmetry;
  try destruct sx; try destruct sy; cbn [cond_Zopp];
  try first [ reflexivity
            | apply Z.compare_eq_iff; lia
            | apply Z.compare_lt_iff; lia
            | apply Z.compare_gt_iff; lia ].
  - rewrite Z.compare_opp, Z.compare_antisym, finite_compare by assumption.
    destruct (ex ?= ey); reflexivity.
  - now apply finite_compare.
Qed.

(** *** Addition and multiplication round the exact result *)

Lemma SFval_num_representable x :
  valid_binary x = true -> SFnum x -> nearest_even_Z (SFval x) = SFval x.
Proof.
  intros V N. destruct x as [s|s| |s m e]; try contradiction; [reflexivity|].
  cbn [SFval]. cbn [valid_binary SpecFloat.valid_binary] in V.
  pose proof (finite_val_bounds m e V).
  rewrite nearest_even_Z_cond_Zopp by lia. now rewrite nearest_even_representable.
Qed.

Lemma shl_align_fst (mx : positive) ex ez :
  ez <= ex -> Zpos (fst (shl_align mx ex ez)) = Zpos mx * 2 ^ (ex - ez).
Proof.
  intros H. unfold shl_align. destruct (ez - ex) as [|d|d] eqn:E; cbn [fst].
  - replace (ex - ez) with 0 by lia. rewrite Z.pow_0_r. lia.
  - lia.
  - rewrite Pos_iter_xO. do 2 f_equal. lia.
Qed.

(** The sum of two finite numbers is the rounded exact sum. *)
Lemma SFadd_num x y :
  valid_binary x = true -> valid_binary y = true -> SFnum x -> SFnum y ->
  SFadd prec emax x y <> S754_nan
  /\ SFval (SFadd prec emax x y) = nearest_even_Z (SFval x + SFval y).
Proof.
  intros Vx Vy Nx Ny.
  destruct x as [sx|sx| |sx mx ex]; try contradiction;
  destruct y as [sy|sy| |sy my ey]; try contradiction.
  - cbn [SFadd SFval]. destruct sx, sy; split; (discriminate || reflexivity).
  - cbn [SFadd]. split; [discriminate|].
    rewrite Z.add_0_l. symmetry. now apply SFval_num_representable.
  - cbn [SFadd]. split; [discriminate|].
    change (SFval (S754_zero sy)) with 0.
    rewrite Z.add_0_r. symmetry. now apply SFval_num_representable.
  - cbn [valid_binary SpecFloat.valid_binary] in Vx, Vy.
    destruct (bounded_facts mx ex Vx) as (Hex & _).
    destruct (bounded_facts my ey Vy) as (Hey & _).
    cbn [SFadd]. set (ez := Z.min ex ey).
    destruct (binary_normalize_val
                (cond_Zopp sx (Zpos (fst (shl_align mx ex ez)))
                 + cond_Zopp sy (Zpos (fst (shl_align my ey ez)))) ez) as [H1 H2];
      [unfold kscale, ez; lia|].
    split; [exact H1|]. rewrite H2. f_equal.
    rewrite !shl_align_fst by (unfold ez; lia).
    rewrite Z.mul_add_distr_r, !cond_Zopp_mul. cbn [SFval].
    rewrite <- !Z.mul_assoc, <- !pow2_add by (unfold kscale, ez; lia).
    do 4 f_equal; lia.
Qed.

(** The product of two finite numbers is the rounded exact product. *)
Lemma SFmul_num x y :
  valid_binary x = true -> valid_binary y = true -> SFnum x -> SFnum y ->
  SFmul prec emax x y <> S754_nan
  /\ SFval (SFmul prec emax x y) = nearest_even_Z (SFval x * SFval y / 2 ^ kscale).
Proof.
  intros Vx Vy Nx Ny.
  assert (HK : 0 < 2 ^ kscale) by reflexivity.
  destruct x as [sx|sx| |sx mx ex]; try contradiction;
  destruct y as [sy|sy| |sy my ey]; try contradiction.
  - cbn [SFmul SFval]. split; [discriminate|reflexivity].
  - cbn [SFmul SFval]. split; [discriminate|reflexivity].
  - cbn [SFmul]. split; [discriminate|]. cbn [SFval].
    rewrite Z.mul_0_r. reflexivity.
  - cbn [valid_binary SpecFloat.valid_binary] in Vx, Vy.
    destruct (bounded_facts mx ex Vx) as (Hex & Hmx & Hnx & Hcx).
    destruct (bounded_facts my ey Vy) as (Hey & Hmy & Hny & Hcy).
    cbn [SFmul].
    assert (Hn : 0 <= fexp prec emax (Zdigits2 (Zpos (mx * my)) + (ex + ey)) - (ex + ey)).
    { rewrite fexp64.
      destruct Hnx as [Ex|Hx52].
      - destruct Hny as [Ey|Hy52]; [lia|].
        assert (2 ^ 52 <= Zpos (mx * my)) by (rewrite Pos2Z.inj_mul; assert (0 < 2 ^ 52) by reflexivity; nia).
        pose proof (digits_bounds (mx * my)) as [_ Du].
        assert (53 <= Zdigits2 (Zpos (mx * my))).
        { destruct (Z_le_gt_dec 53 (Zdigits2 (Zpos (mx * my)))); [assumption|].
          assert (2 ^ Zdigits2 (Zpos (mx * my)) <= 2 ^ 52).
          { apply pow2_le. rewrite Zdigits2_log2 in *. pose proof (Z.log2_nonneg (Zpos (mx * my))). lia. }
          lia. }
        lia.
      - assert (2 ^ 52 <= Zpos (mx * my)) by (rewrite Pos2Z.inj_mul; assert (0 < 2 ^ 52) by reflexivity; nia).
        pose proof (digits_bounds (mx * my)) as [_ Du].
        assert (53 <= Zdigits2 (Zpos (mx * my))).
        { destruct (Z_le_gt_dec 53 (Zdigits2 (Zpos (mx * my)))); [assumption|].
          assert (2 ^ Zdigits2 (Zpos (mx * my)) <= 2 ^ 52).
          { apply pow2_le. rewrite Zdigits2_log2 in *. pose proof (Z.log2_nonneg (Zpos (mx * my))). lia. }
          lia. }
        lia. }
    destruct (binary_round_aux_val (xorb sx sy) (mx * my) (ex + ey) Hn) as [H1 H2];
      [unfold kscale; lia|].
    split; [exact H1|]. rewrite H2.
    assert (Hs : 0 < 2 ^ (ex + ey + kscale)) by (apply pow2_pos; unfold kscale; lia).
    rewrite <- nearest_even_Z_cond_Zopp by (rewrite Pos2Z.inj_mul; nia).
    f_equal. cbn [SFval].
    assert (P : 2 ^ (ex + kscale) * 2 ^ (ey + kscale) = 2 ^ (ex + ey + kscale) * 2 ^ kscale).
    { rewrite <- !pow2_add by (unfold kscale; lia). f_equal. lia. }
    assert (E : cond_Zopp sx (Zpos mx * 2 ^ (ex + kscale)) * cond_Zopp sy (Zpos my * 2 ^ (ey + kscale))
                = cond_Zopp (xorb sx sy) (Zpos (mx * my) * 2 ^ (ex + ey + kscale)) * 2 ^ kscale).
    { rewrite Pos2Z.inj_mul.
      transitivity (cond_Zopp (xorb sx sy)
                      (Zpos mx * Zpos my * (2 ^ (ex + kscale) * 2 ^ (ey + kscale)))).
      - destruct sx, sy; cbn [cond_Zopp xorb]; ring.
      - rewrite P. destruct (xorb sx sy); cbn [cond_Zopp]; ring. }
    rewrite E. rewrite Z.div_mul by lia. reflexivity.
Qed.

Lemma num_val_bounds x :
  valid_binary x = true -> SFnum x ->
  - 2 ^ (1024 + kscale) < SFval x < 2 ^ (1024 + kscale).
Proof.
  intros V N. pose proof (pow2_pos (1024 + kscale) ltac:(unfold kscale; lia)).
  destruct x as [s|s| |s m e]; try contradiction; cbn [SFval]; [lia|].
  cbn [valid_binary SpecFloat.valid_binary] in V.
  pose proof (finite_val_bounds m e V). destruct s; cbn [cond_Zopp]; lia.
Qed.

Lemma not_nan_cases x :
  x <> S754_nan -> SFnum x \/ exists s, x = S754_infinity s.
Proof.
  destruct x as [s|s| |s m e]; intros H; try congruence;
    [left; exact I | right; now exists s | left; exact I].
Qed.

Lemma SFadd_inf_r x s : SFnum x -> SFadd prec emax x (S754_infinity s) = S754_infinity s.
Proof. destruct x; try contradiction; reflexivity. Qed.

(** [x + y] for a finite [x]: never NaN, and monotone in [y]. *)
Lemma SFadd_num_l_not_nan x y :
  valid_binary x = true -> valid_binary y = true -> SFnum x -> y <> S754_nan ->
  SFadd prec emax x y <> S754_nan.
Proof.
  intros Vx Vy Nx Ny. destruct (not_nan_cases y Ny) as [Hy|[s ->]].
  - now apply SFadd_num.
  - rewrite SFadd_inf_r by assumption. discriminate.
Qed.

Lemma SFadd_mono x y1 y2 :
  valid_binary x = true -> valid_binary y1 = true -> valid_binary y2 = true ->
  SFnum x -> y1 <> S754_nan -> y2 <> S754_nan ->
  SFval y1 <= SFval y2 ->
  SFval (SFadd prec emax x y1) <= SFval (SFadd prec emax x y2).
Proof.
  intros Vx V1 V2 Nx N1 N2 Hle.
  pose proof (pow2_pos (1024 + kscale) ltac:(unfold kscale; lia)) as HI.
  destruct (not_nan_cases y1 N1) as [H1|[s1 ->]];
  destruct (not_nan_cases y2 N2) as [H2|[s2 ->]].
  - destruct (SFadd_num x y1 Vx V1 Nx H1) as [_ ->].
    destruct (SFadd_num x y2 Vx V2 Nx H2) as [_ ->].
    apply nearest_even_Z_mono. lia.
  - destruct (SFadd_num x y1 Vx V1 Nx H1) as [_ ->].
    rewrite SFadd_inf_r by assumption.
    pose proof (num_val_bounds y1 V1 H1).
    pose proof (nearest_even_Z_bounds (SFval x + SFval y1)).
    cbn [SFval] in *. destruct s2; cbn [cond_Zopp] in *; lia.
  - destruct (SFadd_num x y2 Vx V2 Nx H2) as [_ ->].
    rewrite SFadd_inf_r by assumption.
    pose proof (num_val_bounds y2 V2 H2).
    pose proof (nearest_even_Z_bounds (SFval x + SFval y2)).
    cbn [SFval] in *. destruct s1; cbn [cond_Zopp] in *; lia.
  - rewrite !SFadd_inf_r by assumption. exact Hle.
Qed.

Lemma SFadd_ge x y :
  valid_binary x = true -> valid_binary y = true ->
  SFnum x -> y <> S754_nan -> 0 <= SFval y ->
  SFval x <= SFval (SFadd prec emax x y).
Proof.
  intros Vx Vy Nx Ny Hy.
  pose proof (SFadd_mono x (S754_zero false) y Vx eq_refl Vy Nx
                ltac:(discriminate) Ny Hy) as H.
  destruct (SFadd_num x (S754_zero false) Vx eq_refl Nx I) as [_ E].
  rewrite E in H. cbn [SFval] in H. rewrite Z.add_0_r in H.
  rewrite SFval_num_representable in H by assumption. exact H.
Qed.

Lemma SFmul_mono x y1 y2 :
  valid_binary x = true -> valid_binary y1 = true -> valid_binary y2 = true ->
  SFnum x -> SFnum y1 -> SFnum y2 ->
  0 <= SFval x -> SFval y1 <= SFval y2 ->
  SFval (SFmul prec emax x y1) <= SFval (SFmul prec emax x y2).
Proof.
  intros Vx V1 V2 Nx N1 N2 Hx Hle.
  destruct (SFmul_num x y1 Vx V1 Nx N1) as [_ ->].
  destruct (SFmul_num x y2 Vx V2 Nx N2) as [_ ->].
  apply nearest_even_Z_mono. apply Z.div_le_mono; [reflexivity|].
  now apply Z.mul_le_mono_nonneg_l.
Qed.

(** *** Primitive floats *)

Lemma SFcompare_refl x : x <> S754_nan -> SFcompare x x = Some Eq.
Proof.
  destruct x as [s|s| |s m e]; intros H; try congruence; cbn [SFcompare].
  - reflexivity.
  - destruct s; reflexivity.
  - rewrite Z.compare_refl. change (Pos.compare_cont Eq m m) with (Zpos m ?= Zpos m).
    rewrite Z.compare_refl. destruct s; reflexivity.
Qed.

Lemma is_nan_false f : is_nan f = false -> Prim2SF f <> S754_nan.
Proof.
  unfold is_nan. rewrite FloatAxioms.eqb_spec. intros H E. rewrite E in H. discriminate.
Qed.

Lemma is_finite_num f : is_finite f = true -> SFnum (Prim2SF f).
Proof.
  unfold is_finite, is_nan, is_infinity.
  rewrite !FloatAxioms.eqb_spec, abs_spec.
  change (Prim2SF infinity) with (S754_infinity false).
  destruct (Prim2SF f) as [s|s| |s m e]; try (intros _; exact I);
    [destruct s|]; cbn; discriminate.
Qed.

Lemma num_not_nan x : SFnum x -> x <> S754_nan.
Proof. destruct x; intros H; try contradiction; discriminate. Qed.

Lemma leb_float_val x y :
  Prim2SF x <> S754_nan -> Prim2SF y <> S754_nan ->
  (x <=? y)%float = (float_val x <=? float_val y).
Proof.
  intros Nx Ny. rewrite FloatAxioms.leb_spec. unfold SFleb, float_val.
  rewrite SFcompare_val by (assumption || apply Prim2SF_valid).
  rewrite Z.leb_compare. destruct (_ ?= _); reflexivity.
Qed.

Lemma ltb_float_val x y :
  Prim2SF x <> S754_nan -> Prim2SF y <> S754_nan ->
  (x <? y)%float = (float_val x <? float_val y).
Proof.
  intros Nx Ny. rewrite FloatAxioms.ltb_spec. unfold SFltb, float_val.
  rewrite SFcompare_val by (assumption || apply Prim2SF_valid).
  rewrite Z.ltb_compare. destruct (_ ?= _); reflexivity.
Qed.

Lemma leb_true_inv x y :
  (x <=? y)%float = true ->
  Prim2SF x <> S754_nan /\ Prim2SF y <> S754_nan /\ float_val x <= float_val y.
Proof.
  intros H.
  assert (Nx : Prim2SF x <> S754_nan).
  { intros E. rewrite FloatAxioms.leb_spec, E in H. discriminate. }
  assert (Ny : Prim2SF y <> S754_nan).
  { intros E. rewrite FloatAxioms.leb_spec, E in H. unfold SFleb in H.
    destruct (Prim2SF x); discriminate. }
  rewrite leb_float_val in H by assumption. apply Z.leb_le in H. auto.
Qed.

Lemma ltb_nan_r a b : Prim2SF b = S754_nan -> (a <? b)%float = false.
Proof.
  intros E. rewrite FloatAxioms.ltb_spec, E. unfold SFltb. destruct (Prim2SF a); reflexivity.
Qed.

(** On numbers, [max(a, b)] has the greater of the two values. *)
Lemma pymax_float_val a b :
  Prim2SF a <> S754_nan -> Prim2SF b <> S754_nan ->
  Prim2SF (pymax a b) <> S754_nan /\ float_val (pymax a b) = Z.max (float_val a) (float_val b).
Proof.
  intros Na Nb. unfold pymax; cbn [ltb binary64]. rewrite ltb_float_val by assumption.
  destruct (Z.ltb_spec (float_val a) (float_val b)); split; try assumption; lia.
Qed.

Lemma pymax_float_nan_r a b : Prim2SF b = S754_nan -> pymax a b = a.
Proof. intros E. unfold pymax; cbn [ltb binary64]. now rewrite ltb_nan_r. Qed.

Lemma SFnan_dec x : {x = S754_nan} + {x <> S754_nan}.
Proof. destruct x; (now left) || (right; discriminate). Qed.

(** *** The hole diameter in binary64 *)

Lemma float_hole_diameter_ge d f m :
  is_finite d = true -> (0 <=? m)%float = true ->
  (d <=? pymax (d + m) (d * f))%float = true.
Proof.
  intros Fd Hm.
  pose proof (is_finite_num d Fd) as Nd.
  destruct (leb_true_inv _ _ Hm) as (_ & Nm & Hm0).
  change (float_val 0%float) with 0 in Hm0.
  assert (Na : Prim2SF (d + m)%float <> S754_nan).
  { rewrite add_spec. apply SFadd_num_l_not_nan; try apply Prim2SF_valid; assumption. }
  assert (Ha : float_val d <= float_val (d + m)%float).
  { unfold float_val. rewrite add_spec.
    apply SFadd_ge; try apply Prim2SF_valid; assumption. }
  destruct (SFnan_dec (Prim2SF (d * f)%float)) as [E|Nb].
  - rewrite pymax_float_nan_r by assumption.
    rewrite leb_float_val by (assumption || now apply num_not_nan).
    now apply Z.leb_le.
  - destruct (pymax_float_val _ _ Na Nb) as [Nr Er].
    rewrite leb_float_val by (assumption || now apply num_not_nan).
    apply Z.leb_le. lia.
Qed.

Lemma float_hole_diameter_mono_min d f m1 m2 :
  is_finite d = true -> (m1 <=? m2)%float = true ->
  (pymax (d + m1) (d * f) <=? pymax (d + m2) (d * f))%float = true.
Proof.
  intros Fd Hm.
  pose proof (is_finite_num d Fd) as Nd.
  destruct (leb_true_inv _ _ Hm) as (N1 & N2 & Hle).
  assert (Na1 : Prim2SF (d + m1)%float <> S754_nan).
  { rewrite add_spec. apply SFadd_num_l_not_nan; try apply Prim2SF_valid; assumption. }
  assert (Na2 : Prim2SF (d + m2)%float <> S754_nan).
  { rewrite add_spec. apply SFadd_num_l_not_nan; try apply Prim2SF_valid; assumption. }
  assert (Ha : float_val (d + m1)%float <= float_val (d + m2)%float).
  { unfold float_val. rewrite !add_spec.
    apply SFadd_mono; try apply Prim2SF_valid; assumption. }
  destruct (SFnan_dec (Prim2SF (d * f)%float)) as [E|Nb].
  - rewrite !pymax_float_nan_r by assumption.
    rewrite leb_float_val by assumption. now apply Z.leb_le.
  - destruct (pymax_float_val _ _ Na1 Nb) as [Nr1 Er1].
    destruct (pymax_float_val _ _ Na2 Nb) as [Nr2 Er2].
    rewrite leb_float_val by assumption. apply Z.leb_le. lia.
Qed.

Lemma float_hole_diameter_mono_factor d f1 f2 m :
  is_finite d = true -> (0 <=? d)%float = true ->
  is_finite f1 = true -> is_finite f2 = true -> (f1 <=? f2)%float = true ->
  is_nan m = false ->
  (pymax (d + m) (d * f1) <=? pymax (d + m) (d * f2))%float = true.
Proof.
  intros Fd Hd F1 F2 Hf Nm.
  pose proof (is_finite_num d Fd) as Nd.
  pose proof (is_finite_num f1 F1) as Nf1.
  pose proof (is_finite_num f2 F2) as Nf2.
  apply is_nan_false in Nm.
  destruct (leb_true_inv _ _ Hd) as (_ & _ & Hd0).
  change (float_val 0%float) with 0 in Hd0.
  destruct (leb_true_inv _ _ Hf) as (_ & _ & Hle).
  assert (Na : Prim2SF (d + m)%float <> S754_nan).
  { rewrite add_spec. apply SFadd_num_l_not_nan; try apply Prim2SF_valid; assumption. }
  assert (Nb1 : Prim2SF (d * f1)%float <> S754_nan).
  { rewrite mul_spec. apply SFmul_num; try apply Prim2SF_valid; assumption. }
  assert (Nb2 : Prim2SF (d * f2)%float <> S754_nan).
  { rewrite mul_spec. apply SFmul_num; try apply Prim2SF_valid; assumption. }
  assert (Hb : float_val (d * f1)%float <= float_val (d * f2)%float).
  { unfold float_val. rewrite !mul_spec.
    apply SFmul_mono; try apply Prim2SF_valid; assumption. }
  destruct (pymax_float_val _ _ Na Nb1) as [Nr1 Er1].
  destruct (pymax_float_val _ _ Na Nb2) as [Nr2 Er2].
  rewrite leb_float_val by assumption. apply Z.leb_le. lia.
Qed.

(** *** The conversion of an [int] *)

(** [binary_round_aux] on an exact mantissa returns a valid number. *)
Lemma binary_round_aux_valid s (m : positive) e :
  let n := fexp prec emax (Zdigits2 (Zpos m) + e) - e in
  0 <= n ->
  valid_binary (binary_round_aux prec emax s (Zpos m) e loc_Exact) = true.
Proof.
  intros n Hn.
  destruct (shr_fexp_exact (Zpos m) e ltac:(lia) Hn) as (rec & E1 & Hm1 & Hloc1).
  fold n in E1, Hm1, Hloc1.
  destruct (first_shift_facts m e Hn) as (He' & Hq & Hq52). fold n in He', Hq, Hq52.
  assert (Hp : 0 < 2 ^ n) by (apply pow2_pos; lia).
  pose proof (Z.mod_pos_bound (Zpos m) (2 ^ n) Hp) as Hrm.
  unfold binary_round_aux. rewrite E1, Hloc1, Hm1.
  rewrite round_nearest_even_rem by lia.
  set (q := Zpos m / 2 ^ n) in *. set (rm := Zpos m mod 2 ^ n) in *.
  set (q' := if round_up q rm (2 ^ n) then q + 1 else q) in *.
  set (e' := e + n) in *.
  assert (Hq' : q <= q' <= q + 1) by (subst q'; destruct (round_up _ _ _); lia).
  assert (C53 : 2 ^ 53 = 9007199254740992) by reflexivity.
  assert (C52 : 2 ^ 52 = 4503599627370496) by reflexivity.
  destruct (Z.eq_dec q' 0) as [Z0|NZ0]; [|destruct (Z.eq_dec q' (2 ^ 53)) as [Z53|NZ53]].
  - rewrite Z0. rewrite shr_fexp_noshift by (rewrite fexp64; cbn [Zdigits2]; lia).
    reflexivity.
  - rewrite Z53. rewrite C53.
    unfold shr_fexp. cbn [Zdigits2 digits2_pos Pos.succ shr_record_of_loc].
    rewrite fexp64. replace (Z.max (54 + e' - 53) (-1074) - e') with 1 by lia.
    cbn [shr SpecFloat.iter_pos shr_1 shr_m].
    destruct (Z.leb_spec (e' + 1) (emax - prec)) as [Hle|Hgt]; [|reflexivity].
    cbn [valid_binary SpecFloat.valid_binary]. unfold SpecFloat.bounded, canonical_mantissa.
    apply andb_true_iff. split; [|apply Z.leb_le; exact Hle].
    apply Z.eqb_eq. change (Zpos (digits2_pos 4503599627370496)) with 53.
    rewrite fexp64. lia.
  - assert (Hq'r : 0 < q' < 2 ^ 53) by lia.
    pose proof (Zdigits2_small q' Hq'r) as Hd.
    assert (Hfe : fexp prec emax (Zdigits2 q' + e') = e').
    { rewrite fexp64. destruct Hq52 as [Em|Hq52]; [lia|].
      rewrite (Zdigits2_normal q') by lia. lia. }
    rewrite shr_fexp_noshift by lia. cbn [shr_m].
    destruct q' as [|pq|pq] eqn:Eq'; try lia.
    destruct (Z.leb_spec e' (emax - prec)) as [Hle|Hgt]; [|reflexivity].
    cbn [valid_binary SpecFloat.valid_binary]. unfold SpecFloat.bounded, canonical_mantissa.
    apply andb_true_iff. split; [|apply Z.leb_le; exact Hle].
    apply Z.eqb_eq. change (Zpos (digits2_pos pq)) with (Zdigits2 (Zpos pq)). exact Hfe.
Qed.

Lemma binary_round_valid s (m : positive) e :
  valid_binary (binary_round prec emax s m e) = true.
Proof.
  unfold binary_round, shl_align.
  change (Zpos (digits2_pos m)) with (Zdigits2 (Zpos m)).
  set (f := fexp prec emax (Zdigits2 (Zpos m) + e)).
  destruct (f - e) as [|d|d] eqn:Ed.
  - apply binary_round_aux_valid. fold f. lia.
  - apply binary_round_aux_valid. fold f. lia.
  - assert (Hd : Zpos d = e - f) by lia.
    apply binary_round_aux_valid.
    assert (Hdig : Zdigits2 (Zpos (Pos.iter xO m d)) + f = Zdigits2 (Zpos m) + e).
    { rewrite !Zdigits2_log2, Pos_iter_xO, Z.log2_mul_pow2 by lia. lia. }
    rewrite Hdig. fold f. lia.
Qed.

Lemma binary_normalize_valid M e :
  valid_binary (binary_normalize prec emax M e false) = true.
Proof.
  destruct M as [|m|m]; cbn [binary_normalize];
    [reflexivity | apply binary_round_valid | apply binary_round_valid].
Qed.

Lemma Prim2SF_float_of_Z z :
  Prim2SF (float_of_Z z) = binary_normalize prec emax z 0 false.
Proof. unfold float_of_Z. apply Prim2SF_SF2Prim, binary_normalize_valid. Qed.

Lemma is_infinity_SF f :
  is_infinity f = true <-> exists s, Prim2SF f = S754_infinity s.
Proof.
  unfold is_infinity. rewrite FloatAxioms.eqb_spec, abs_spec.
  change (Prim2SF infinity) with (S754_infinity false).
  destruct (Prim2SF f) as [s|s| |s m e]; cbn; split;
    try discriminate; try (intros [s' H]; discriminate).
  - intros _. now exists s.
  - reflexivity.
Qed.

Lemma nearest_even_overflow :
  nearest_even (int_overflow * 2 ^ kscale) = 2 ^ (1024 + kscale).
Proof. vm_compute. reflexivity. Qed.

Lemma nearest_even_below_overflow :
  nearest_even ((int_overflow - 1) * 2 ^ kscale) < 2 ^ (1024 + kscale).
Proof. vm_compute. reflexivity. Qed.

(** [float(z)] overflows exactly from [2^1024 - 2^970], half a unit in the
    last place above the greatest float. *)
Lemma float_of_Z_overflow z :
  is_infinity (float_of_Z z) = true <-> int_overflow <= Z.abs z.
Proof.
  rewrite is_infinity_SF, Prim2SF_float_of_Z.
  pose proof (binary_normalize_valid z 0) as V.
  destruct (binary_normalize_val z 0 ltac:(unfold kscale; lia)) as [N E].
  cbv zeta in N, E. rewrite Z.add_0_l in E.
  set (r := binary_normalize prec emax z 0 false) in *.
  assert (HK : 0 < 2 ^ kscale) by reflexivity.
  assert (HI : 0 < 2 ^ (1024 + kscale)) by reflexivity.
  assert (HT : 0 < int_overflow) by reflexivity.
  assert (Hov : forall a, 0 < a ->
            (nearest_even_ov (a * 2 ^ kscale) = 2 ^ (1024 + kscale) <-> int_overflow <= a)).
  { intros a Ha. unfold nearest_even_ov.
    assert (0 < a * 2 ^ kscale) by nia.
    destruct (Z_le_gt_dec int_overflow a) as [Hge|Hlt].
    - assert (2 ^ (1024 + kscale) <= nearest_even (a * 2 ^ kscale)).
      { rewrite <- nearest_even_overflow. apply nearest_even_mono; nia. }
      destruct (Z.ltb_spec (nearest_even (a * 2 ^ kscale)) (2 ^ (1024 + kscale))); [lia|].
      split; [intros _; exact Hge | reflexivity].
    - assert (nearest_even (a * 2 ^ kscale) < 2 ^ (1024 + kscale)).
      { apply Z.le_lt_trans with (nearest_even ((int_overflow - 1) * 2 ^ kscale));
          [|apply nearest_even_below_overflow].
        apply nearest_even_mono; nia. }
      destruct (Z.ltb_spec (nearest_even (a * 2 ^ kscale)) (2 ^ (1024 + kscale))); [|lia].
      split; intros; lia. }
  assert (Hinf : (exists s, r = S754_infinity s) <-> Z.abs (SFval r) = 2 ^ (1024 + kscale)).
  { destruct r as [s|s| |s m e] eqn:Er.
    - split; [intros [s' H]; discriminate | cbn [SFval]; lia].
    - split; [intros _ | intros _; now exists s].
      cbn [SFval]. destruct s; cbn [cond_Zopp]; lia.
    - congruence.
    - split; [intros [s' H]; discriminate|].
      cbn [valid_binary SpecFloat.valid_binary] in V.
      pose proof (finite_val_bounds m e V).
      cbn [SFval]. destruct s; cbn [cond_Zopp]; lia. }
  rewrite Hinf, E.
  destruct z as [|p|p].
  - cbn [Z.mul nearest_even_Z Z.abs]. lia.
  - rewrite nearest_even_Z_pos by nia.
    pose proof (nearest_even_ov_bounds (Zpos p * 2 ^ kscale) ltac:(nia)).
    rewrite Z.abs_eq by lia. apply Hov. lia.
  - rewrite nearest_even_Z_neg by nia.
    replace (- (Zneg p * 2 ^ kscale)) with (Zpos p * 2 ^ kscale) by lia.
    pose proof (nearest_even_ov_bounds (Zpos p * 2 ^ kscale) ltac:(nia)).
    rewrite Z.abs_opp, Z.abs_eq by lia.
    change (Z.abs (Zneg p)) with (Zpos p). apply Hov. lia.
Qed.

End Binary64.

(** ** Concrete runs in binary64 *)

(** The shipped configuration: eight holes, the first centered at 5 and the
    last at 194, all at [y = 51]. *)
Example shipped_run :
  exists d,
    main (T:=float) hex_set hex_wrench_holder_parameters
      = (all_statements, Finished d)
    /\ map (fun hd => option_map x (hole_coords hd)) (final_hole_details d)
       = map Some [5; 31.5; 58; 84.5; 111; 137.5; 164; 194]%float
    /\ map (fun hd => option_map y (hole_coords hd)) (final_hole_details d)
       = map Some [51; 51; 51; 51; 51; 51; 51; 51]%float
    /\ holder_length d = 204.77350269189625%float
    /\ holder_width d = 69.856406460551014%float.
Proof. eexists. repeat split; vm_compute; reflexivity. Qed.

(** In the shipped run the holder length is not the one the enlarged
    diameter of the last hole would give. *)
Example shipped_holder_length_uses_raw_diameter :
  (194 + 11.547005383792516 / 2 + 5 = 204.77350269189625)%float
  /\ (194 + 13.856406460551019 / 2 + 5 = 205.92820323027551)%float.
Proof. split; vm_compute; reflexivity. Qed.

(** A single wrench of size 2 with the shipped parameters. *)
Example single_wrench_run :
  main (T:=float) [create_hex_wrench (dec 2 0) 24%float 36%float]
       hex_wrench_holder_parameters
  = (all_statements,
     Finished (mkDimensions
       [mkHoleDetails (dec 2 0) 2.3094010767585034%float 3.3094010767585034%float
          (Some (mkHoleCoords 5%float 41%float))]
       11.154700538379252%float 49.309401076758505%float)).
Proof. vm_compute. reflexivity. Qed.

(** Squaring [size_f] first can change the last bit of the area. *)
Example area_is_computed_left_to_right :
  area (create_hex_wrench (T:=float) (dec 1 (-1)) 24%float 36%float)
    = 0.025980762113533163%float
  /\ (3 / 2 * PrimFloat.sqrt 3 * (0.1 * 0.1) = 0.025980762113533167)%float.
Proof. split; vm_compute; reflexivity. Qed.

(** * The claims *)

(** ** C1: the first hole *)

(** C1, as stated, fails on the code: with wrench widths of 24 and 31, a
    border of 5 and the shipped spacing, the first center is at 5, so the
    left edge of the first hole, [x_center[0] - half_width[0]], is at -7 and
    not at the border. *)
Lemma C1_left_edge_counterexample :
  exists c,
    compute_hole_centers [24; 31]%float 2.5%float 5%float 5%float 46%float
      = Ok [c; mkHoleCoords 35%float 51%float]
    /\ x c = 5%float
    /\ PrimFloat.sub (x c) (24 / 2)%float = (-7)%float
    /\ PrimFloat.eqb (PrimFloat.sub (x c) (24 / 2)%float) 5%float = false.
Proof.
  eexists. split; [vm_compute; reflexivity|].
  repeat split; vm_compute; reflexivity.
Qed.

(** C1, amended: for every non-empty list of widths the loop puts the first
    center at [(lengthwise_border - half_width[0]) + half_width[0]]; in exact
    arithmetic that is [lengthwise_border] itself, so it is the center of the
    first hole that sits on the border, and its left edge is at
    [lengthwise_border - half_width[0]]. *)
Theorem C1_first_center_at_border :
  (forall (T : Type) (num : PyNum T) (w : T) (ws : list T) (s b wb m : T),
      exists c cs,
        compute_hole_centers (w :: ws) s b wb m = Ok (c :: cs)
        /\ x c = (b - w / lit 2 + w / lit 2)%py)
  /\ (forall (w : R) (ws : list R) (s b wb m : R),
      exists c cs,
        compute_hole_centers (w :: ws) s b wb m = Ok (c :: cs)
        /\ x c = b
        /\ (x c - w / 2 = b - w / 2)%R).
Proof.
  split.
  - intros T num w ws s b wb m. rewrite compute_hole_centers_cons.
    do 2 eexists. split; reflexivity.
  - intros w ws s b wb m. rewrite compute_hole_centers_cons.
    do 2 eexists. split; [reflexivity|].
    cbn [x add sub div lit exact]. split; lra.
Qed.

(** ** C2: adjacent holes *)

(** C2, as stated, fails on the code: for two widths of 10.1, a spacing of
    2.5 and a border of 5, binary64 gives centers 5 and 17.600000000000001,
    whose difference 12.600000000000001 is not
    [10.1/2 + 2.5 + 10.1/2 = 12.6]. *)
Lemma C2_adjacent_centers_counterexample :
  exists c0 c1,
    compute_hole_centers [10.1; 10.1]%float 2.5%float 5%float 5%float 36%float
      = Ok [c0; c1]
    /\ PrimFloat.sub (x c1) (x c0) = 12.600000000000001%float
    /\ (10.1 / 2 + 2.5 + 10.1 / 2)%float = 12.6%float
    /\ PrimFloat.eqb (PrimFloat.sub (x c1) (x c0))
                     (10.1 / 2 + 2.5 + 10.1 / 2)%float = false.
Proof.
  do 2 eexists. split; [vm_compute; reflexivity|].
  repeat split; vm_compute; reflexivity.
Qed.

(** C2, amended: for every list of widths and every index [i] with [i+1] in
    range, [x_center[i+1]] is computed as
    [((x_center[i] + half_width[i]) + inner_spacing) + half_width[i+1]];
    in exact arithmetic, therefore,
    [x_center[i+1] - x_center[i] = half_width[i] + inner_spacing + half_width[i+1]]. *)
Theorem C2_adjacent_centers :
  (forall (T : Type) (num : PyNum T) (ws : list T) (s b wb m : T)
          (i : nat) (wi wi1 : T),
      nth_error ws i = Some wi ->
      nth_error ws (S i) = Some wi1 ->
      exists cs ci ci1,
        compute_hole_centers ws s b wb m = Ok cs
        /\ nth_error cs i = Some ci
        /\ nth_error cs (S i) = Some ci1
        /\ x ci1 = (x ci + wi / lit 2 + s + wi1 / lit 2)%py)
  /\ (forall (ws : list R) (s b wb m : R) (i : nat) (wi wi1 : R),
      nth_error ws i = Some wi ->
      nth_error ws (S i) = Some wi1 ->
      exists cs ci ci1,
        compute_hole_centers ws s b wb m = Ok cs
        /\ nth_error cs i = Some ci
        /\ nth_error cs (S i) = Some ci1
        /\ (x ci1 - x ci = wi / 2 + s + wi1 / 2)%R).
Proof.
  assert (G : forall (T : Type) (num : PyNum T) (ws : list T) (s b wb m : T)
          (i : nat) (wi wi1 : T),
      nth_error ws i = Some wi ->
      nth_error ws (S i) = Some wi1 ->
      exists cs ci ci1,
        compute_hole_centers ws s b wb m = Ok cs
        /\ nth_error cs i = Some ci
        /\ nth_error cs (S i) = Some ci1
        /\ x ci1 = (x ci + wi / lit 2 + s + wi1 / lit 2)%py).
  { intros T num ws s b wb m i wi wi1 Hi Hi1.
    destruct ws as [|w ws]; [destruct i; discriminate|].
    destruct (compute_hole_centers (w :: ws) s b wb m) as [cs|e] eqn:E;
      [|rewrite compute_hole_centers_cons in E; discriminate].
    pose proof (compute_hole_centers_length _ _ _ _ _ _ E) as Hlen.
    destruct (compute_hole_centers_Ok _ _ _ _ _ _ E) as [Hcs _].
    assert (Hlt : (S i < length cs)%nat)
      by (rewrite Hlen; apply nth_error_Some; congruence).
    destruct (nth_error cs i) as [ci|] eqn:Hci;
      [|apply nth_error_None in Hci; lia].
    destruct (nth_error cs (S i)) as [ci1|] eqn:Hci1;
      [|apply nth_error_None in Hci1; lia].
    exists cs, ci, ci1. repeat split; try assumption.
    rewrite Hcs in Hci, Hci1.
    eapply centers_loop_step; try eassumption.
    - rewrite nth_error_map, Hi. reflexivity.
    - rewrite nth_error_map, Hi1. reflexivity. }
  split; [exact G|].
  intros ws s b wb m i wi wi1 Hi Hi1.
  destruct (G R exact ws s b wb m i wi wi1 Hi Hi1) as (cs & ci & ci1 & E & H0 & H1 & Hx).
  exists cs, ci, ci1. repeat split; try assumption.
  rewrite Hx. cbn [add div lit exact]. lra.
Qed.

Lemma C2_adjacent_centers_witness :
  exists cs ci ci1,
    compute_hole_centers [24; 31]%float 2.5%float 5%float 5%float 46%float = Ok cs
    /\ nth_error cs 0 = Some ci
    /\ nth_error cs 1 = Some ci1
    /\ x ci1 = (x ci + 24 / 2 + 2.5 + 31 / 2)%float.
Proof.
  exact (proj1 C2_adjacent_centers float binary64 [24; 31]%float
           2.5%float 5%float 5%float 46%float 0%nat 24%float 31%float
           eq_refl eq_refl).
Defined.

(** ** C3: the holder length *)

(** C3: for every non-empty wrench set the script finishes, and the holder
    length it computes is the x center of the last hole, plus half of that
    hole's raw [hex_long_diameter] (the long diameter of the last wrench,
    not the enlarged [hole_diameter]), plus the lengthwise border. *)
Theorem C3_holder_length (T : Type) (num : PyNum T)
    (hs : list (HexWrench T)) (p : HexWrenchHolderParameters T) :
  hs <> [] ->
  exists d last c hw,
    main hs p = (all_statements, Finished d)
    /\ py_last (final_hole_details d) = Ok last
    /\ hole_coords last = Some c
    /\ py_last hs = Ok hw
    /\ hex_long_diameter last = compute_hex_long_diameter (size_f hw)
    /\ holder_length d
       = (x c + hex_long_diameter last / lit 2 + lengthwise_border p)%py.
Proof.
  intros Hne. destruct (main_finishes hs p Hne) as [d Hd].
  destruct (main_Finished _ _ _ _ Hd)
    as (ms & md & cs & last & c & Hms & Hmd & Hcs & Hfin & Hlast & Hc & Hlen & _).
  pose proof (main_centers_length _ _ _ _ Hcs) as Hl.
  rewrite Hfin in Hlast.
  destruct (py_last_merge _ _ _ Hl Hlast) as (d0 & c0 & Hd0 & Hc0 & Elast).
  destruct (py_last_map _ _ _ Hd0) as (hw & Hhw & Ed0).
  exists d, last, c, hw. rewrite Hfin.
  repeat split; try assumption.
  rewrite Elast, Ed0. reflexivity.
Qed.

Lemma C3_holder_length_witness :
  exists d last c hw,
    main (T:=float) hex_set hex_wrench_holder_parameters = (all_statements, Finished d)
    /\ py_last (final_hole_details d) = Ok last
    /\ hole_coords last = Some c
    /\ py_last hex_set = Ok hw
    /\ hex_long_diameter last = compute_hex_long_diameter (size_f hw)
    /\ holder_length d
       = (x c + hex_long_diameter last / lit 2
          + lengthwise_border hex_wrench_holder_parameters)%py.
Proof.
  apply (C3_holder_length float binary64 hex_set hex_wrench_holder_parameters).
  discriminate.
Defined.

(** ** C4: the holder width *)

(** C4, as stated, fails on the code: for the shipped wrench set and a
    widthwise border of 3, binary64 gives a holder width of
    65.856406460551028, while [2*3 + 46 + 13.856406460551019] evaluates to
    65.856406460551014. *)
Lemma C4_holder_width_counterexample :
  let p := mkHexWrenchHolderParameters
             5%float 2.5%float 3%float 38%float 1.2%float 1%float in
  exists d,
    main (T:=float) hex_set p = (all_statements, Finished d)
    /\ pymax_list (map head_short_length (hex_set (T:=float))) = Ok 46%float
    /\ pymax_list (map hole_diameter (final_hole_details d)) = Ok 13.856406460551019%float
    /\ holder_width d = 65.856406460551028%float
    /\ (2 * 3 + 46 + 13.856406460551019)%float = 65.856406460551014%float
    /\ PrimFloat.eqb (holder_width d) (2 * 3 + 46 + 13.856406460551019)%float = false.
Proof.
  cbv zeta. eexists. split; [vm_compute; reflexivity|].
  repeat split; vm_compute; reflexivity.
Qed.

(** C4, amended: for every non-empty wrench set the holder width is
    [widthwise_border + max(head_short_length) + max(hole_diameter) +
    widthwise_border], added in that order, with the maxima taken over all
    wrenches and over all holes; in exact arithmetic that is
    [2*widthwise_border + max(head_short_length) + max(hole_diameter)], the
    maxima being the greatest elements. *)
Theorem C4_holder_width :
  (forall (T : Type) (num : PyNum T) (hs : list (HexWrench T))
          (p : HexWrenchHolderParameters T),
      hs <> [] ->
      exists d ms md,
        main hs p = (all_statements, Finished d)
        /\ pymax_list (map head_short_length hs) = Ok ms
        /\ pymax_list (map hole_diameter (final_hole_details d)) = Ok md
        /\ holder_width d
           = (widthwise_border p + ms + md + widthwise_border p)%py)
  /\ (forall (hs : list (HexWrench R)) (p : HexWrenchHolderParameters R),
      hs <> [] ->
      exists d ms md,
        main hs p = (all_statements, Finished d)
        /\ (In ms (map head_short_length hs)
            /\ forall z, In z (map head_short_length hs) -> z <= ms)%R
        /\ (In md (map hole_diameter (final_hole_details d))
            /\ forall z, In z (map hole_diameter (final_hole_details d)) -> z <= md)%R
        /\ holder_width d = (2 * widthwise_border p + ms + md)%R).
Proof.
  assert (G : forall (T : Type) (num : PyNum T) (hs : list (HexWrench T))
          (p : HexWrenchHolderParameters T),
      hs <> [] ->
      exists d ms md,
        main hs p = (all_statements, Finished d)
        /\ pymax_list (map head_short_length hs) = Ok ms
        /\ pymax_list (map hole_diameter (final_hole_details d)) = Ok md
        /\ holder_width d
           = (widthwise_border p + ms + md + widthwise_border p)%py).
  { intros T num hs p Hne. destruct (main_finishes hs p Hne) as [d Hd].
    destruct (main_Finished _ _ _ _ Hd)
      as (ms & md & cs & last & c & Hms & Hmd & Hcs & Hfin & _ & _ & _ & Hw & _).
    exists d, ms, md. repeat split; try assumption.
    rewrite Hfin, map_hole_diameter_merge; [exact Hmd|].
    eapply main_centers_length; eassumption. }
  split; [exact G|].
  intros hs p Hne.
  destruct (G R exact hs p Hne) as (d & ms & md & Hd & Hms & Hmd & Hw).
  exists d, ms, md. split; [exact Hd|].
  split; [now apply exact_pymax_list_greatest|].
  split; [now apply exact_pymax_list_greatest|].
  rewrite Hw. cbn [add exact]. lra.
Qed.

Lemma C4_holder_width_witness :
  exists d ms md,
    main (T:=float) hex_set hex_wrench_holder_parameters = (all_statements, Finished d)
    /\ pymax_list (map head_short_length hex_set) = Ok ms
    /\ pymax_list (map hole_diameter (final_hole_details d)) = Ok md
    /\ holder_width d
       = (widthwise_border hex_wrench_holder_parameters + ms + md
          + widthwise_border hex_wrench_holder_parameters)%py.
Proof.
  refine (proj1 C4_holder_width float binary64 hex_set hex_wrench_holder_parameters _).
  discriminate.
Defined.

(** ** C5: the hole diameter *)

(** C5: [compute_hole_diameter] returns the [max] of
    [long_dia + enlarge_min] and [long_dia * enlarge_factor], and for every
    [d], [f >= 1] and [m >= 0] the result is at least [d]: in binary64 for
    every finite [d], and in exact arithmetic for every [d]. *)
Theorem C5_hole_diameter :
  (forall (T : Type) (num : PyNum T) (d f m : T),
      compute_hole_diameter d f m = pymax (d + m)%py (d * f)%py)
  /\ (forall d f m : float,
      is_finite d = true ->
      (1 <=? f)%float = true -> (0 <=? m)%float = true ->
      (d <=? compute_hole_diameter d f m)%float = true)
  /\ (forall d f m : R,
      compute_hole_diameter d f m = Rmax (d + m) (d * f)
      /\ (1 <= f -> 0 <= m -> d <= compute_hole_diameter d f m))%R.
Proof.
  split; [reflexivity|]. split.
  - intros d f m Fd _ Hm. now apply float_hole_diameter_ge.
  - intros d f m. split; [apply exact_compute_hole_diameter|].
    intros _ Hm. now apply exact_hole_diameter_ge.
Qed.

Lemma C5_hole_diameter_witness :
  (2.5 <=? compute_hole_diameter 2.5 1.2 1)%float = true
  /\ (2 <= compute_hole_diameter 2 1.5 1)%R.
Proof.
  split.
  - apply (proj1 (proj2 C5_hole_diameter) 2.5 1.2 1)%float; reflexivity.
  - apply (proj2 (proj2 (proj2 C5_hole_diameter) 2 1.5 1)%R); lra.
Defined.

(** ** C6: one row of holes *)

(** C6: for every non-empty list of widths, every [HoleCoords] returned by
    [compute_hole_centers] has [y = widthwise_border +
    max_short_handle_length]; and in the script, where that argument is
    [max] of the [head_short_length]s of all wrenches, every hole of the
    result has that [y]. *)
Theorem C6_same_y (T : Type) (num : PyNum T) :
  (forall (ws : list T) (s b wb m : T),
      ws <> [] ->
      exists cs, compute_hole_centers ws s b wb m = Ok cs
                 /\ Forall (fun c => y c = (wb + m)%py) cs)
  /\ (forall (hs : list (HexWrench T)) (p : HexWrenchHolderParameters T),
      hs <> [] ->
      exists d ms,
        main hs p = (all_statements, Finished d)
        /\ pymax_list (map head_short_length hs) = Ok ms
        /\ Forall (fun hd => exists c, hole_coords hd = Some c
                                       /\ y c = (widthwise_border p + ms)%py)
                  (final_hole_details d)).
Proof.
  assert (G : forall (ws : list T) (s b wb m : T) cs,
             compute_hole_centers ws s b wb m = Ok cs ->
             Forall (fun c => y c = (wb + m)%py) cs).
  { intros ws s b wb m cs H.
    apply compute_hole_centers_Ok in H as [-> _]. apply centers_loop_y. }
  split.
  - intros [|w ws] s b wb m Hne; [congruence|].
    eexists. split; [apply compute_hole_centers_cons|].
    eapply G. apply compute_hole_centers_cons.
  - intros hs p Hne. destruct (main_finishes hs p Hne) as [d Hd].
    destruct (main_Finished _ _ _ _ Hd)
      as (ms & md & cs & last & c & Hms & Hmd & Hcs & Hfin & _).
    exists d, ms. repeat split; try assumption.
    rewrite Hfin. apply Forall_forall. intros hd Hin.
    destruct (merge_hole_details_coords _ _ _ Hin) as (c' & Hc' & E).
    exists c'. split; [exact E|].
    pose proof (G _ _ _ _ _ _ Hcs) as Hy.
    rewrite Forall_forall in Hy. now apply Hy.
Qed.

Lemma C6_same_y_witness :
  (exists cs, compute_hole_centers [24; 31]%float 2.5%float 5%float 5%float 46%float = Ok cs
              /\ Forall (fun c => y c = (5 + 46)%float) cs)
  /\ (exists d ms,
        main (T:=float) hex_set hex_wrench_holder_parameters = (all_statements, Finished d)
        /\ pymax_list (map head_short_length hex_set) = Ok ms
        /\ Forall (fun hd => exists c, hole_coords hd = Some c
                      /\ y c = (widthwise_border hex_wrench_holder_parameters + ms)%py)
                  (final_hole_details d)).
Proof.
  split.
  - refine (proj1 (C6_same_y float binary64) [24; 31]%float
              2.5%float 5%float 5%float 46%float _). discriminate.
  - refine (proj2 (C6_same_y float binary64) hex_set hex_wrench_holder_parameters _).
    discriminate.
Defined.

(** ** C7: the empty wrench set *)

(** C7, as stated, fails on the code: run on the empty list with the shipped
    parameters, the script faults in the statement
    [max_handle_short_length = max([...])], before the holder length is
    computed. *)
Lemma C7_fault_site_counterexample :
  exists ran s e,
    main (T:=float) [] hex_wrench_holder_parameters = (ran, Fault s e)
    /\ s = S_max_handle_short_length
    /\ s <> S_holder_length
    /\ ~ In S_hole_centers ran.
Proof.
  do 3 eexists. split; [reflexivity|].
  split; [reflexivity|]. split; [discriminate|].
  cbn. intros [H|[H|[]]]; discriminate.
Qed.

(** C7, amended: on an empty wrench list the two list comprehensions
    complete, and the first fault is the [ValueError] of [max([])] in the
    statement that computes [max_handle_short_length]; neither
    [compute_hole_centers] nor the "last hole" access of the holder length
    is reached. *)
Theorem C7_empty_wrench_set (T : Type) (num : PyNum T)
    (p : HexWrenchHolderParameters T) :
  main [] p = ([S_hole_details; S_hex_wrench_widths],
               Fault S_max_handle_short_length ValueError).
Proof. reflexivity. Qed.

(** ** C8: the wrench constructor *)

(** C8, as the code has it.  The claim's "no error for any input" and its
    area formula both fail in binary64. *)
Lemma C8_create_hex_wrench_counterexample :
  AnySize.create_hex_wrench (Size_Decimal_sNaN false) 24 36 = Raise ValueError
  /\ AnySize.create_hex_wrench (Size_int (10 ^ 400)) 24 36 = Raise OverflowError
  /\ (let w := create_hex_wrench (dec 1 (-1)) 24%float 36%float in
      area w = 0.025980762113533163%float
      /\ (lit 3 / lit 2 * sqrt (lit 3) * (size_f w * size_f w))%py
         = 0.025980762113533167%float
      /\ PrimFloat.eqb (area w)
           (lit 3 / lit 2 * sqrt (lit 3) * (size_f w * size_f w))%py = false).
Proof. repeat split; vm_compute; reflexivity. Qed.

(** C8: [create_hex_wrench] raises exactly on a signaling NaN, the
    [ValueError] of [float(size)], and on an [int] of magnitude
    [2^1024 - 2^970] or more, its [OverflowError]; on every other size it
    returns a wrench that keeps its three arguments and has
    [size_f = float(size)], [circumference = 6 * size_f],
    [square = sqrt(2) * size_f] and [area = 3/2 * sqrt(3) * size_f * size_f],
    the products taken from left to right.  A finite decimal is never
    refused, and in exact arithmetic the area is
    [(3/2) * sqrt(3) * size_f^2]. *)
Theorem C8_create_hex_wrench :
  (forall (sz : PySize) (hw hsl : float) (e : PyExc),
      AnySize.create_hex_wrench sz hw hsl = Raise e <->
      ((exists sign, sz = Size_Decimal_sNaN sign) /\ e = ValueError)
      \/ ((exists z, sz = Size_int z /\ (2 ^ 1024 - 2 ^ 970 <= Z.abs z)%Z)
          /\ e = OverflowError))
  /\ (forall (sz : PySize) (hw hsl : float) (w : AnySize.HexWrench),
      AnySize.create_hex_wrench sz hw hsl = Ok w ->
      AnySize.size w = sz
      /\ AnySize.head_width w = hw /\ AnySize.head_short_length w = hsl
      /\ py_float sz = Ok (AnySize.size_f w)
      /\ AnySize.circumference w = (lit 6 * AnySize.size_f w)%py
      /\ AnySize.square w = (sqrt (lit 2) * AnySize.size_f w)%py
      /\ AnySize.area w
         = (lit 3 / lit 2 * sqrt (lit 3) * AnySize.size_f w * AnySize.size_f w)%py)
  /\ (forall (d : Decimal) (hw hsl : float),
      let w := create_hex_wrench d hw hsl in
      AnySize.create_hex_wrench (Size_Decimal d) hw hsl
      = Ok (AnySize.mkHexWrench (Size_Decimal d) (head_width w)
              (head_short_length w) (size_f w) (circumference w) (square w)
              (area w))
      /\ size w = d /\ head_width w = hw /\ head_short_length w = hsl
      /\ size_f w = float_of d)
  /\ (forall (sz : Decimal) (hw hsl : R),
      let w := create_hex_wrench sz hw hsl in
      size w = sz /\ head_width w = hw /\ head_short_length w = hsl
      /\ size_f w = R_of_Decimal sz
      /\ circumference w = (6 * size_f w)%R
      /\ square w = (R_sqrt.sqrt 2 * size_f w)%R
      /\ area w = (3 / 2 * R_sqrt.sqrt 3 * (size_f w) ^ 2)%R).
Proof.
  split; [|split; [|split]].
  - intros sz hw hsl e. unfold AnySize.create_hex_wrench.
    change (2 ^ 1024 - 2 ^ 970)%Z with int_overflow.
    destruct sz as [d|sign|sign|sign|z|f]; cbn [py_float bind].
    + split; [discriminate|].
      intros [[[sign H] _]|[[z [H _]] _]]; discriminate.
    + split; [discriminate|].
      intros [[[sign' H] _]|[[z [H _]] _]]; discriminate.
    + split; [discriminate|].
      intros [[[sign' H] _]|[[z [H _]] _]]; discriminate.
    + split.
      * intros [= <-]. left. split; [now exists sign | reflexivity].
      * intros [[_ ->]|[[z [H _]] _]]; [reflexivity | discriminate].
    + pose proof (float_of_Z_overflow z) as Hov.
      destruct (is_infinity (float_of_Z z)); cbn [bind].
      * split.
        -- intros [= <-]. right. split; [|reflexivity].
           exists z. split; [reflexivity | now apply Hov].
        -- intros [[[sign H] _]|[_ ->]]; [discriminate | reflexivity].
      * split; [discriminate|].
        intros [[[sign H] _]|[[z' [[= <-] Hz]] _]]; [discriminate|].
        apply Hov in Hz. discriminate.
    + split; [discriminate|].
      intros [[[sign H] _]|[[z [H _]] _]]; discriminate.
  - intros sz hw hsl w. unfold AnySize.create_hex_wrench.
    destruct (py_float sz) as [f|e]; cbn [bind]; [|discriminate].
    intros [= <-]. cbn. repeat split.
  - intros d hw hsl. cbn. repeat split.
  - intros sz hw hsl. cbn. repeat split. lra.
Qed.

Lemma C8_create_hex_wrench_witness :
  AnySize.create_hex_wrench (Size_int (- 10 ^ 400)) 24 36 = Raise OverflowError
  /\ (exists w,
        AnySize.create_hex_wrench (Size_float 2.5) 24 36 = Ok w
        /\ AnySize.size w = Size_float 2.5
        /\ AnySize.head_width w = 24%float /\ AnySize.head_short_length w = 36%float
        /\ py_float (Size_float 2.5) = Ok (AnySize.size_f w)
        /\ AnySize.circumference w = (lit 6 * AnySize.size_f w)%py
        /\ AnySize.square w = (sqrt (lit 2) * AnySize.size_f w)%py
        /\ AnySize.area w
           = (lit 3 / lit 2 * sqrt (lit 3) * AnySize.size_f w * AnySize.size_f w)%py).
Proof.
  split.
  - apply (proj1 C8_create_hex_wrench (Size_int (- 10 ^ 400)) 24%float 36%float
             OverflowError).
    right. split; [|reflexivity]. exists (- 10 ^ 400)%Z.
    split; [reflexivity|]. apply Z.leb_le. vm_compute. reflexivity.
  - eexists. split; [reflexivity|].
    exact (proj1 (proj2 C8_create_hex_wrench) (Size_float 2.5) 24%float 36%float
             _ eq_refl).
Defined.

(** ** C9: monotonicity of the hole diameter *)

(** C9: for a non-negative long diameter the hole diameter does not decrease
    when [enlarge_factor] grows and [enlarge_min] is fixed, and it does not
    decrease when [enlarge_min] grows and [enlarge_factor] is fixed: in
    binary64 for finite numbers, and in exact arithmetic. *)
Theorem C9_hole_diameter_monotone :
  (forall d f1 f2 m : float,
      is_finite d = true -> (0 <=? d)%float = true ->
      is_finite f1 = true -> is_finite f2 = true -> is_nan m = false ->
      (f1 <=? f2)%float = true ->
      (compute_hole_diameter d f1 m <=? compute_hole_diameter d f2 m)%float = true)
  /\ (forall d f m1 m2 : float,
      is_finite d = true -> (0 <=? d)%float = true ->
      (m1 <=? m2)%float = true ->
      (compute_hole_diameter d f m1 <=? compute_hole_diameter d f m2)%float = true)
  /\ (forall d f1 f2 m : R,
      0 <= d -> f1 <= f2 ->
      compute_hole_diameter d f1 m <= compute_hole_diameter d f2 m)%R
  /\ (forall d f m1 m2 : R,
      0 <= d -> m1 <= m2 ->
      compute_hole_diameter d f m1 <= compute_hole_diameter d f m2)%R.
Proof.
  split; [|split; [|split]].
  - intros d f1 f2 m Fd Hd F1 F2 Nm Hf.
    now apply float_hole_diameter_mono_factor.
  - intros d f m1 m2 Fd _ Hm. now apply float_hole_diameter_mono_min.
  - intros d f1 f2 m. apply exact_hole_diameter_mono_factor.
  - intros d f m1 m2 _. apply exact_hole_diameter_mono_min.
Qed.

Lemma C9_hole_diameter_monotone_witness :
  (compute_hole_diameter 2.5 1.2 1 <=? compute_hole_diameter 2.5 1.5 1)%float = true
  /\ (compute_hole_diameter 2.5 1.2 1 <=? compute_hole_diameter 2.5 1.2 3)%float = true
  /\ (compute_hole_diameter 2 1 1 <= compute_hole_diameter 2 2 1)%R
  /\ (compute_hole_diameter 2 1 1 <= compute_hole_diameter 2 1 3)%R.
Proof.
  split; [|split; [|split]].
  - apply (proj1 C9_hole_diameter_monotone 2.5 1.2 1.5 1)%float; reflexivity.
  - apply (proj1 (proj2 C9_hole_diameter_monotone) 2.5 1.2 1 3)%float; reflexivity.
  - apply (proj1 (proj2 (proj2 C9_hole_diameter_monotone)) 2 1 2 1)%R; lra.
  - apply (proj2 (proj2 (proj2 C9_hole_diameter_monotone)) 2 1 1 3)%R; lra.
Defined.

(** ** C10: every hole gets coordinates *)

(** C10: for a non-empty list [compute_hole_centers] returns exactly one
    [HoleCoords] per width; so for a non-empty wrench set the merged
    [hole_details] has one entry per wrench, each with coordinates, and no
    line of the table is the one printed for missing coordinates.  The
    shipped wrench set is non-empty: its run finishes with eight such
    entries. *)
Theorem C10_coords_populated :
  (forall (T : Type) (num : PyNum T) (ws : list T) (s b wb m : T),
      ws <> [] ->
      exists cs, compute_hole_centers ws s b wb m = Ok cs
                 /\ length cs = length ws)
  /\ (forall (T : Type) (num : PyNum T) (hs : list (HexWrench T))
             (p : HexWrenchHolderParameters T),
      hs <> [] ->
      exists d,
        main hs p = (all_statements, Finished d)
        /\ length (final_hole_details d) = length hs
        /\ Forall (fun hd => hole_coords hd <> None) (final_hole_details d)
        /\ Forall (fun r => prints_None r = false) (hole_table d))
  /\ (exists d,
        main (T:=float) hex_set hex_wrench_holder_parameters
          = (all_statements, Finished d)
        /\ length (final_hole_details d) = 8%nat
        /\ forallb (fun r => negb (prints_None r)) (hole_table d) = true).
Proof.
  split; [|split].
  - intros T num [|w ws] s b wb m Hne; [congruence|].
    eexists. split; [apply compute_hole_centers_cons|].
    cbn [length]. now rewrite centers_loop_length, length_map.
  - intros T num hs p Hne. destruct (main_finishes hs p Hne) as [d Hd].
    destruct (main_Finished _ _ _ _ Hd)
      as (ms & md & cs & last & c & Hms & Hmd & Hcs & Hfin & _).
    pose proof (main_centers_length _ _ _ _ Hcs) as Hl.
    assert (Hall : forall hd, In hd (final_hole_details d) -> hole_coords hd <> None).
    { intros hd Hin. rewrite Hfin in Hin.
      destruct (merge_hole_details_coords _ _ _ Hin) as (c' & _ & E).
      rewrite E. discriminate. }
    exists d. split; [exact Hd|]. split; [|split].
    + now rewrite Hfin, merge_hole_details_length, initial_hole_details_length.
    + now apply Forall_forall.
    + unfold hole_table. apply Forall_map. apply Forall_forall.
      intros hd Hin. specialize (Hall hd Hin). unfold table_row.
      destruct (hole_coords hd); [reflexivity | congruence].
  - eexists. split; [vm_compute; reflexivity|].
    split; vm_compute; reflexivity.
Qed.

Lemma C10_coords_populated_witness :
  (exists cs, compute_hole_centers [24; 31]%float 2.5%float 5%float 5%float 46%float = Ok cs
              /\ length cs = 2%nat)
  /\ (exists d,
        main (T:=float) hex_set hex_wrench_holder_parameters
          = (all_statements, Finished d)
        /\ length (final_hole_details d) = length (hex_set (T:=float))
        /\ Forall (fun hd => hole_coords hd <> None) (final_hole_details d)
        /\ Forall (fun r => prints_None r = false) (hole_table d)).
Proof.
  split.
  - refine (proj1 C10_coords_populated float binary64 [24; 31]%float
              2.5%float 5%float 5%float 46%float _). discriminate.
  - refine (proj1 (proj2 C10_coords_populated) float binary64
              hex_set hex_wrench_holder_parameters _). discriminate.
Defined.

(** * Further properties *)

(** ** Failures of [compute_hole_centers] and of the script *)

(** X1: [compute_hole_centers] raises exactly when the list of widths is
    empty, and then it is the [IndexError] of [half_widths[0]]; the other
    arguments never matter. *)
Theorem X1_hole_centers_raise (T : Type) (num : PyNum T)
    (ws : list T) (s b wb m : T) :
  ((exists e, compute_hole_centers ws s b wb m = Raise e) <-> ws = [])
  /\ (forall e, compute_hole_centers ws s b wb m = Raise e -> e = IndexError).
Proof.
  destruct ws as [|w ws].
  - split; [split; [reflexivity | intros _; now exists IndexError]|].
    intros e [= <-]. reflexivity.
  - rewrite compute_hole_centers_cons. split; [split|].
    + intros [e H]. discriminate.
    + discriminate.
    + intros e H. discriminate.
Qed.

Lemma X1_hole_centers_raise_witness :
  IndexError = IndexError.
Proof.
  exact (proj2 (X1_hole_centers_raise float binary64 [] 2.5%float 5%float
                  5%float 46%float) IndexError eq_refl).
Defined.

(** X2: the only way the script fails is on an empty wrench set, with the
    [ValueError] of [max([])] after the two list comprehensions; the
    [IndexError]s of [half_widths[0]] and [hole_details[-1]] and the
    [AttributeError] of [None.x] never occur, and a non-empty set always
    runs all eight statements. *)
Theorem X2_script_outcomes (T : Type) (num : PyNum T)
    (hs : list (HexWrench T)) (p : HexWrenchHolderParameters T) :
  (forall ran s e,
      main hs p = (ran, Fault s e) ->
      hs = [] /\ ran = [S_hole_details; S_hex_wrench_widths]
      /\ s = S_max_handle_short_length /\ e = ValueError)
  /\ (forall ran d,
      main hs p = (ran, Finished d) -> hs <> [] /\ ran = all_statements).
Proof.
  destruct hs as [|hw hs].
  - rewrite main_nil. split.
    + intros ran s e [= <- <- <-]. repeat split.
    + intros ran d H. discriminate.
  - destruct (main_finishes (hw :: hs) p ltac:(discriminate)) as [d Hd].
    rewrite Hd. split.
    + intros ran s e H. discriminate.
    + intros ran d' [= <- <-]. split; [discriminate | reflexivity].
Qed.

Lemma X2_script_outcomes_witness :
  @nil (HexWrench float) = []
  /\ [S_hole_details; S_hex_wrench_widths] = [S_hole_details; S_hex_wrench_widths]
  /\ S_max_handle_short_length = S_max_handle_short_length
  /\ ValueError = ValueError.
Proof.
  exact (proj1 (X2_script_outcomes float binary64 [] hex_wrench_holder_parameters)
           _ _ _ eq_refl).
Defined.

(** ** The final hole details line up with the wrenches *)

Section Alignment.
Context {T : Type} {num : PyNum T}.

Lemma combine_map_r {A B : Type} (g : A -> B) (l : list A) :
  combine l (map g l) = map (fun a => (a, g a)) l.
Proof. induction l as [|a l IH]; [reflexivity|]. cbn. now rewrite IH. Qed.

Lemma spacing_widths_map (hs : list (HexWrench T)) p :
  spacing_widths hs (initial_hole_details hs p)
  = map (fun hw =>
           pymax (compute_hole_diameter (compute_hex_long_diameter (size_f hw))
                    (hole_enlarge_factor p) (hole_enlarge_min p))
                 (head_width hw)) hs.
Proof.
  unfold spacing_widths, initial_hole_details.
  rewrite combine_map_r, map_map. reflexivity.
Qed.

Lemma map_merge {B : Type} (f : HoleDetails T -> B) :
  (forall hd c, f (mkHoleDetails (hex_size hd) (hex_long_diameter hd)
                     (hole_diameter hd) (Some c)) = f hd) ->
  forall ds cs, length cs = length ds ->
    map f (merge_hole_details ds cs) = map f ds.
Proof.
  intros Hf. unfold merge_hole_details.
  induction ds as [|d ds IH]; intros [|c cs] H; try discriminate; [reflexivity|].
  cbn [combine map]. rewrite Hf. f_equal. apply IH. simpl in H. lia.
Qed.

Lemma map_hole_coords_merge (ds : list (HoleDetails T)) :
  forall cs, length cs = length ds ->
    map hole_coords (merge_hole_details ds cs) = map Some cs.
Proof.
  unfold merge_hole_details.
  induction ds as [|d ds IH]; intros [|c cs] H; try discriminate; [reflexivity|].
  cbn [combine map hole_coords]. f_equal. apply IH. simpl in H. lia.
Qed.

Lemma nth_error_merge (ds : list (HoleDetails T)) :
  forall cs i d c,
    nth_error ds i = Some d -> nth_error cs i = Some c ->
    nth_error (merge_hole_details ds cs) i
    = Some (mkHoleDetails (hex_size d) (hex_long_diameter d) (hole_diameter d) (Some c)).
Proof.
  unfold merge_hole_details.
  induction ds as [|d0 ds IH]; intros [|c0 cs] [|i] d c Hd Hc; try discriminate.
  - injection Hd as <-. injection Hc as <-. reflexivity.
  - cbn [combine map nth_error] in *. now apply IH.
Qed.

End Alignment.

(** X3: for every non-empty wrench set the final hole details are in the
    order of the wrenches, one per wrench: the i-th entry has the size of the
    i-th wrench, the long diameter and the hole diameter computed from its
    [size_f], and the i-th center returned by [compute_hole_centers]; the
    merge changes nothing but the coordinates. *)
Theorem X3_details_aligned (T : Type) (num : PyNum T)
    (hs : list (HexWrench T)) (p : HexWrenchHolderParameters T) :
  hs <> [] ->
  exists d ms cs,
    main hs p = (all_statements, Finished d)
    /\ pymax_list (map head_short_length hs) = Ok ms
    /\ compute_hole_centers (spacing_widths hs (initial_hole_details hs p))
         (lengthwise_inner_spacing p) (lengthwise_border p)
         (widthwise_border p) ms = Ok cs
    /\ map hex_size (final_hole_details d) = map size hs
    /\ map hex_long_diameter (final_hole_details d)
       = map (fun hw => compute_hex_long_diameter (size_f hw)) hs
    /\ map hole_diameter (final_hole_details d)
       = map (fun hw => compute_hole_diameter
                          (compute_hex_long_diameter (size_f hw))
                          (hole_enlarge_factor p) (hole_enlarge_min p)) hs
    /\ map hole_coords (final_hole_details d) = map Some cs.
Proof.
  intros Hne. destruct (main_finishes hs p Hne) as [d Hd].
  destruct (main_Finished _ _ _ _ Hd)
    as (ms & md & cs & last & c & Hms & Hmd & Hcs & Hfin & _).
  pose proof (main_centers_length _ _ _ _ Hcs) as Hl.
  exists d, ms, cs. rewrite Hfin.
  rewrite !map_merge by (assumption || reflexivity).
  rewrite map_hole_coords_merge by assumption.
  unfold initial_hole_details. rewrite !map_map.
  repeat split; assumption || reflexivity.
Qed.

Lemma X3_details_aligned_witness :
  exists d ms cs,
    main (T:=float) hex_set hex_wrench_holder_parameters = (all_statements, Finished d)
    /\ pymax_list (map head_short_length hex_set) = Ok ms
    /\ compute_hole_centers
         (spacing_widths hex_set
            (initial_hole_details hex_set hex_wrench_holder_parameters))
         (lengthwise_inner_spacing hex_wrench_holder_parameters)
         (lengthwise_border hex_wrench_holder_parameters)
         (widthwise_border hex_wrench_holder_parameters) ms = Ok cs
    /\ map hex_size (final_hole_details d) = map size hex_set
    /\ map hex_long_diameter (final_hole_details d)
       = map (fun hw => compute_hex_long_diameter (size_f hw)) hex_set
    /\ map hole_diameter (final_hole_details d)
       = map (fun hw => compute_hole_diameter
                          (compute_hex_long_diameter (size_f hw))
                          (hole_enlarge_factor hex_wrench_holder_parameters)
                          (hole_enlarge_min hex_wrench_holder_parameters)) hex_set
    /\ map hole_coords (final_hole_details d) = map Some cs.
Proof.
  apply (X3_details_aligned float binary64 hex_set hex_wrench_holder_parameters).
  discriminate.
Defined.

(** ** The layout in exact arithmetic *)

Section ExactLayout.
Local Open Scope R_scope.

Lemma Rsum_app (l1 l2 : list R) : Rsum (l1 ++ l2) = Rsum l1 + Rsum l2.
Proof.
  unfold Rsum. induction l1 as [|a l1 IH]; simpl; [lra|]. rewrite IH. lra.
Qed.

Lemma Rsum_firstn_half (ws : list R) (k : nat) :
  2 * Rsum (firstn k (map (fun w => w / 2) ws)) = Rsum (firstn k ws).
Proof.
  unfold Rsum. revert k.
  induction ws as [|w ws IH]; intros [|k]; simpl; try lra.
  rewrite <- IH. lra.
Qed.

(** The k-th center of the loop, from the initial [pre_center]. *)
Lemma centers_loop_closed (yc s : R) (hs : list R) :
  forall pre k c hk,
    nth_error hs k = Some hk ->
    nth_error (centers_loop yc s hs pre []) k = Some c ->
    x c = pre + INR k * s + 2 * Rsum (firstn k hs) + hk.
Proof.
  induction hs as [|h hs IH]; intros pre k c hk Hk Hc.
  - destruct k; discriminate.
  - rewrite centers_loop_cons in Hc. destruct k as [|k].
    + injection Hk as <-. injection Hc as <-.
      unfold Rsum. simpl. lra.
    + cbn [nth_error] in Hk, Hc.
      rewrite (IH _ _ _ _ Hk Hc). rewrite S_INR.
      unfold Rsum. simpl. lra.
Qed.

Lemma nth_error_centers (ws : list R) (s b wb m : R) cs k :
  compute_hole_centers ws s b wb m = Ok cs ->
  (k < length ws)%nat -> exists c, nth_error cs k = Some c.
Proof.
  intros H Hk. apply compute_hole_centers_length in H.
  destruct (nth_error cs k) as [c|] eqn:E; [now exists c|].
  apply nth_error_None in E. lia.
Qed.

Lemma py_last_nth_error {A : Type} (l : list A) (a : A) :
  py_last l = Ok a -> nth_error l (length l - 1) = Some a.
Proof.
  induction l as [|b l IH]; [discriminate|].
  destruct l as [|c l].
  - intros [= <-]. reflexivity.
  - intros H. specialize (IH H). cbn [length] in *.
    replace (S (S (length l)) - 1)%nat with (S (S (length l) - 1)) by lia.
    exact IH.
Qed.

Lemma Rsum_firstn_last (l : list R) (a : R) :
  nth_error l (length l - 1) = Some a ->
  Rsum (firstn (length l - 1) l) = Rsum l - a.
Proof.
  intros H.
  assert (Hl : l <> []) by (intros ->; discriminate).
  destruct (exists_last Hl) as (l' & z & ->).
  rewrite length_app in *. cbn [length] in *.
  replace (length l' + 1 - 1)%nat with (length l') in * by lia.
  rewrite nth_error_app2 in H by lia. rewrite Nat.sub_diag in H.
  injection H as <-.
  rewrite firstn_app, Nat.sub_diag, firstn_all. cbn [firstn].
  rewrite app_nil_r, Rsum_app. unfold Rsum. simpl. lra.
Qed.

(** The k-th center of [compute_hole_centers]. *)
Lemma exact_center_closed_form (ws : list R) (s b wb m : R) (k : nat) (wk : R) :
  nth_error ws k = Some wk ->
  exists cs c w0,
    compute_hole_centers ws s b wb m = Ok cs
    /\ nth_error cs k = Some c
    /\ nth_error ws 0 = Some w0
    /\ (x c = b + INR k * s + Rsum (firstn k ws) + (wk - w0) / 2)%R.
Proof.
  intros Hk. destruct ws as [|w0 ws]; [destruct k; discriminate|].
  destruct (compute_hole_centers (w0 :: ws) s b wb m) as [cs|e] eqn:E;
    [|rewrite compute_hole_centers_cons in E; discriminate].
  destruct (nth_error_centers _ _ _ _ _ _ k E) as [c Hc].
  { apply nth_error_Some. congruence. }
  exists cs, c, w0. repeat split; try assumption.
  destruct (compute_hole_centers_Ok _ _ _ _ _ _ E) as [Hcs _].
  rewrite Hcs in Hc.
  change (map (fun w => (w / lit 2)%py) (w0 :: ws))
    with (map (fun w => (w / 2)%R) (w0 :: ws)) in Hc.
  assert (Hhk : nth_error (map (fun w => (w / 2)%R) (w0 :: ws)) k = Some (wk / 2)%R)
    by (rewrite nth_error_map, Hk; reflexivity).
  rewrite (centers_loop_closed _ _ _ _ _ _ _ Hhk Hc).
  rewrite Rsum_firstn_half. cbn [hd map sub exact]. lra.
Qed.

End ExactLayout.

(** X4: in exact arithmetic the k-th center is at
    [lengthwise_border + k * inner_spacing + (w_0 + ... + w_(k-1))
     + (w_k - w_0) / 2]: the border, the spacings and the full widths of the
    holes to its left, moved by half of its own width and back by half of the
    first one. *)
Theorem X4_center_closed_form (ws : list R) (s b wb m : R) (k : nat) (wk : R) :
  nth_error ws k = Some wk ->
  exists cs c w0,
    compute_hole_centers ws s b wb m = Ok cs
    /\ nth_error cs k = Some c
    /\ nth_error ws 0 = Some w0
    /\ (x c = b + INR k * s + Rsum (firstn k ws) + (wk - w0) / 2)%R.
Proof. apply exact_center_closed_form. Qed.


Lemma X4_center_closed_form_witness :
  exists cs c w0,
    compute_hole_centers [24; 24; 31]%R 2.5%R 5%R 5%R 46%R = Ok cs
    /\ nth_error cs 2 = Some c
    /\ nth_error [24; 24; 31]%R 0 = Some w0
    /\ (x c = 5 + INR 2 * 2.5 + Rsum (firstn 2 [24; 24; 31]) + (31 - w0) / 2)%R.
Proof.
  exact (X4_center_closed_form [24; 24; 31]%R 2.5%R 5%R 5%R 46%R 2 31%R eq_refl).
Defined.

Section ExactScript.
Local Open Scope R_scope.

Variable hs : list (HexWrench R).
Variable p : HexWrenchHolderParameters R.

(** The spacing width of a wrench is the greater of its hole diameter and
    its head width. *)
Lemma exact_spacing_width_ge (i : nat) (hw : HexWrench R) :
  nth_error hs i = Some hw ->
  exists w,
    nth_error (spacing_widths hs (initial_hole_details hs p)) i = Some w
    /\ compute_hole_diameter (compute_hex_long_diameter (size_f hw))
         (hole_enlarge_factor p) (hole_enlarge_min p) <= w
    /\ head_width hw <= w.
Proof.
  intros Hi. rewrite spacing_widths_map, nth_error_map, Hi. cbn [option_map].
  eexists. split; [reflexivity|]. rewrite exact_pymax.
  split; [apply Rmax_l | apply Rmax_r].
Qed.

Lemma nth_error_initial (i : nat) (hw : HexWrench R) :
  nth_error hs i = Some hw ->
  nth_error (initial_hole_details hs p) i
  = Some (compute_hole_detail (size hw) (compute_hex_long_diameter (size_f hw))
            (hole_enlarge_factor p) (hole_enlarge_min p)).
Proof.
  intros Hi. unfold initial_hole_details. now rewrite nth_error_map, Hi.
Qed.

(** The i-th final entry and its center. *)
Lemma exact_final_entry (d : Dimensions R) ran (i : nat) (hw : HexWrench R) :
  main hs p = (ran, Finished d) ->
  nth_error hs i = Some hw ->
  exists ms cs c,
    pymax_list (map head_short_length hs) = Ok ms
    /\ compute_hole_centers (spacing_widths hs (initial_hole_details hs p))
         (lengthwise_inner_spacing p) (lengthwise_border p)
         (widthwise_border p) ms = Ok cs
    /\ nth_error cs i = Some c
    /\ nth_error (final_hole_details d) i
       = Some (mkHoleDetails (size hw) (compute_hex_long_diameter (size_f hw))
                 (compute_hole_diameter (compute_hex_long_diameter (size_f hw))
                    (hole_enlarge_factor p) (hole_enlarge_min p))
                 (Some c)).
Proof.
  intros Hd Hi.
  destruct (main_Finished _ _ _ _ Hd)
    as (ms & md & cs & last & c0 & Hms & Hmd & Hcs & Hfin & _).
  destruct (nth_error_centers _ _ _ _ _ _ i Hcs) as [c Hc].
  { rewrite spacing_widths_length. apply nth_error_Some. congruence. }
  exists ms, cs, c. repeat split; try assumption.
  rewrite Hfin.
  rewrite (nth_error_merge _ _ _ _ _ (nth_error_initial _ _ Hi) Hc). reflexivity.
Qed.

Lemma exact_no_overlap (i : nat) (hw hw' : HexWrench R) :
  nth_error hs i = Some hw ->
  nth_error hs (S i) = Some hw' ->
  exists d hd hd' c c',
    main hs p = (all_statements, Finished d)
    /\ nth_error (final_hole_details d) i = Some hd
    /\ nth_error (final_hole_details d) (S i) = Some hd'
    /\ hole_coords hd = Some c /\ hole_coords hd' = Some c'
    /\ x c + hole_diameter hd / 2 + lengthwise_inner_spacing p
       <= x c' - hole_diameter hd' / 2
    /\ x c + head_width hw / 2 + lengthwise_inner_spacing p
       <= x c' - head_width hw' / 2.
Proof.
  intros Hi Hi'.
  assert (Hne : hs <> []) by (intros E; rewrite E in Hi; destruct i; discriminate).
  destruct (main_finishes hs p Hne) as [d Hd].
  destruct (exact_final_entry d _ i hw Hd Hi) as (ms & cs & c & Hms & Hcs & Hc & Hf).
  destruct (exact_final_entry d _ (S i) hw' Hd Hi')
    as (ms' & cs' & c' & Hms' & Hcs' & Hc' & Hf').
  rewrite Hms in Hms'. injection Hms' as <-. rewrite Hcs in Hcs'. injection Hcs' as <-.
  destruct (exact_spacing_width_ge i hw Hi) as (w & Hw & Hw1 & Hw2).
  destruct (exact_spacing_width_ge (S i) hw' Hi') as (w' & Hw' & Hw1' & Hw2').
  destruct (compute_hole_centers_Ok _ _ _ _ _ _ Hcs) as [Ecs _].
  rewrite Ecs in Hc, Hc'.
  assert (Hh : nth_error (map (fun w => (w / lit 2)%py)
                            (spacing_widths hs (initial_hole_details hs p))) i
               = Some (w / lit 2)%py)
    by (rewrite nth_error_map, Hw; reflexivity).
  assert (Hh' : nth_error (map (fun w => (w / lit 2)%py)
                             (spacing_widths hs (initial_hole_details hs p))) (S i)
                = Some (w' / lit 2)%py)
    by (rewrite nth_error_map, Hw'; reflexivity).
  pose proof (centers_loop_step _ _ _ _ i _ _ c c' Hh Hh' Hc Hc') as Hx.
  cbn [add div lit exact] in Hx.
  eexists d, _, _, c, c'.
  split; [exact Hd|]. split; [exact Hf|]. split; [exact Hf'|].
  cbn [hole_coords hole_diameter].
  split; [reflexivity|]. split; [reflexivity|]. split; lra.
Qed.

Lemma exact_compute_hex_long_diameter_nonneg (sz : R) :
  0 <= sz -> 0 <= compute_hex_long_diameter sz.
Proof.
  intros H. unfold compute_hex_long_diameter. cbn [mul div sqrt lit exact].
  assert (0 < R_sqrt.sqrt 3) by (apply sqrt_lt_R0; lra).
  apply Rmult_le_pos; [|exact H].
  apply Rlt_le, Rdiv_lt_0_compat; lra.
Qed.

Lemma exact_vertical_fit (i : nat) (hw : HexWrench R) :
  nth_error hs i = Some hw ->
  exists d hd c,
    main hs p = (all_statements, Finished d)
    /\ nth_error (final_hole_details d) i = Some hd
    /\ hole_coords hd = Some c
    /\ widthwise_border p <= y c - head_short_length hw
    /\ (0 <= size_f hw -> 0 <= hole_enlarge_min p ->
        y c + hole_diameter hd / 2 + widthwise_border p <= holder_width d).
Proof.
  intros Hi.
  assert (Hne : hs <> []) by (intros E; rewrite E in Hi; destruct i; discriminate).
  destruct (main_finishes hs p Hne) as [d Hd].
  destruct (exact_final_entry d _ i hw Hd Hi) as (ms & cs & c & Hms & Hcs & Hc & Hf).
  destruct (main_Finished _ _ _ _ Hd)
    as (ms' & md & cs' & last & c0 & Hms' & Hmd & _ & _ & _ & _ & _ & Hw & _).
  rewrite Hms in Hms'. injection Hms' as <-.
  destruct (exact_pymax_list_greatest _ _ Hms) as [_ Hmsge].
  destruct (exact_pymax_list_greatest _ _ Hmd) as [_ Hmdge].
  assert (Hy : y c = widthwise_border p + ms).
  { destruct (compute_hole_centers_Ok _ _ _ _ _ _ Hcs) as [Ecs _].
    pose proof (centers_loop_y (widthwise_border p + ms)%py
                  (lengthwise_inner_spacing p)
                  (map (fun w => (w / lit 2)%py)
                     (spacing_widths hs (initial_hole_details hs p)))
                  (lengthwise_border p
                   - hd (lit 0) (map (fun w => (w / lit 2)%py)
                       (spacing_widths hs (initial_hole_details hs p))))%py) as HF.
    rewrite <- Ecs in HF. rewrite Forall_forall in HF.
    apply HF. eapply nth_error_In; eassumption. }
  eexists d, _, c. split; [exact Hd|]. split; [exact Hf|].
  cbn [hole_coords hole_diameter]. split; [reflexivity|].
  assert (Hhs : head_short_length hw <= ms).
  { apply Hmsge. apply in_map. eapply nth_error_In; eassumption. }
  split; [rewrite Hy; lra|].
  intros Hsz Hmin.
  set (dia := compute_hole_diameter (compute_hex_long_diameter (size_f hw))
                (hole_enlarge_factor p) (hole_enlarge_min p)).
  assert (Hdia : dia <= md).
  { apply Hmdge. unfold initial_hole_details. rewrite map_map.
    apply (in_map (fun hw => hole_diameter
             (compute_hole_detail (size hw) (compute_hex_long_diameter (size_f hw))
                (hole_enlarge_factor p) (hole_enlarge_min p)))).
    eapply nth_error_In; eassumption. }
  assert (Hpos : 0 <= dia).
  { pose proof (exact_compute_hex_long_diameter_nonneg _ Hsz).
    pose proof (exact_hole_diameter_ge (compute_hex_long_diameter (size_f hw))
                  (hole_enlarge_factor p) (hole_enlarge_min p) Hmin).
    unfold dia. lra. }
  rewrite Hw, Hy. unfold compute_holder_width. cbn [add exact]. lra.
Qed.

End ExactScript.

Section ExactHolderLength.
Local Open Scope R_scope.

Lemma exact_holder_length_closed_form
    (hs : list (HexWrench R)) (p : HexWrenchHolderParameters R) :
  hs <> [] ->
  let ws := spacing_widths hs (initial_hole_details hs p) in
  exists d hw w0 wl,
    main hs p = (all_statements, Finished d)
    /\ py_last hs = Ok hw
    /\ nth_error ws 0 = Some w0
    /\ py_last ws = Ok wl
    /\ holder_length d
       = 2 * lengthwise_border p
         + INR (length hs - 1) * lengthwise_inner_spacing p
         + Rsum ws - (w0 + wl) / 2
         + compute_hex_long_diameter (size_f hw) / 2.
Proof.
  intros Hne ws. destruct (main_finishes hs p Hne) as [d Hd].
  destruct (main_Finished _ _ _ _ Hd)
    as (ms & md & cs & last & c & Hms & Hmd & Hcs & Hfin & Hlast & Hc & Hlen & _).
  pose proof (main_centers_length _ _ _ _ Hcs) as Hl.
  rewrite Hfin in Hlast.
  destruct (py_last_merge _ _ _ Hl Hlast) as (d0 & c0 & Hd0 & Hc0 & Elast).
  destruct (py_last_map _ _ _ Hd0) as (hw & Hhw & Ed0).
  rewrite Elast in Hc. cbn [hole_coords] in Hc. injection Hc as <-.
  assert (Hlw : length ws = length hs) by apply spacing_widths_length.
  assert (Hlc : length cs = length hs)
    by (rewrite Hl; apply initial_hole_details_length).
  assert (Hpos : (0 < length hs)%nat) by (destruct hs; [congruence | simpl; lia]).
  destruct (py_last_nonempty ws) as [wl Hwl].
  { intros E. fold ws in Hlw. rewrite E in Hlw. simpl in Hlw. lia. }
  pose proof (py_last_nth_error _ _ Hwl) as Hnwl.
  pose proof (py_last_nth_error _ _ Hc0) as Hnc.
  rewrite Hlc in Hnc. rewrite Hlw in Hnwl.
  destruct (exact_center_closed_form ws (lengthwise_inner_spacing p)
              (lengthwise_border p) (widthwise_border p) ms
              (length hs - 1) wl Hnwl) as (cs' & c' & w0 & Hcs' & Hc' & Hw0 & Hx).
  fold ws in Hcs. rewrite Hcs in Hcs'. injection Hcs' as <-.
  rewrite Hnc in Hc'. injection Hc' as <-.
  exists d, hw, w0, wl. repeat split; try assumption.
  rewrite Hlen, Elast, Ed0. cbn [hex_long_diameter compute_hole_detail].
  unfold compute_holder_length. cbn [add div lit exact]. rewrite Hx.
  rewrite <- Hlw. rewrite (Rsum_firstn_last ws wl) by (rewrite Hlw; exact Hnwl).
  lra.
Qed.

End ExactHolderLength.

(** X5: in exact arithmetic the holder length of a non-empty wrench set is
    twice the lengthwise border, plus one inner spacing for each pair of
    neighbours, plus all spacing widths but half of the first and half of the
    last, plus half of the long diameter of the last wrench. *)
Theorem X5_holder_length_closed_form
    (hs : list (HexWrench R)) (p : HexWrenchHolderParameters R) :
  hs <> [] ->
  let ws := spacing_widths hs (initial_hole_details hs p) in
  exists d hw w0 wl,
    main hs p = (all_statements, Finished d)
    /\ py_last hs = Ok hw
    /\ nth_error ws 0 = Some w0
    /\ py_last ws = Ok wl
    /\ (holder_length d
        = 2 * lengthwise_border p
          + INR (length hs - 1) * lengthwise_inner_spacing p
          + Rsum ws - (w0 + wl) / 2
          + compute_hex_long_diameter (size_f hw) / 2)%R.
Proof. apply exact_holder_length_closed_form. Qed.

Lemma X5_holder_length_closed_form_witness :
  let hs := [create_hex_wrench (T:=R) (dec 2 0) 24%R 36%R] in
  let p := mkHexWrenchHolderParameters 5%R 2.5%R 5%R 38%R 1.2%R 1%R in
  let ws := spacing_widths hs (initial_hole_details hs p) in
  exists d hw w0 wl,
    main hs p = (all_statements, Finished d)
    /\ py_last hs = Ok hw
    /\ nth_error ws 0 = Some w0
    /\ py_last ws = Ok wl
    /\ (holder_length d
        = 2 * lengthwise_border p
          + INR (length hs - 1) * lengthwise_inner_spacing p
          + Rsum ws - (w0 + wl) / 2
          + compute_hex_long_diameter (size_f hw) / 2)%R.
Proof.
  intros hs p. apply (X5_holder_length_closed_form hs p). discriminate.
Defined.

(** X6: in exact arithmetic neighbouring holes never overlap: between the
    right edge of a hole and the left edge of the next one there is at least
    the inner spacing, and so there is between the heads of the two
    wrenches. *)
Theorem X6_no_overlap (hs : list (HexWrench R)) (p : HexWrenchHolderParameters R)
    (i : nat) (hw hw' : HexWrench R) :
  nth_error hs i = Some hw ->
  nth_error hs (S i) = Some hw' ->
  exists d hd hd' c c',
    main hs p = (all_statements, Finished d)
    /\ nth_error (final_hole_details d) i = Some hd
    /\ nth_error (final_hole_details d) (S i) = Some hd'
    /\ hole_coords hd = Some c /\ hole_coords hd' = Some c'
    /\ (x c + hole_diameter hd / 2 + lengthwise_inner_spacing p
        <= x c' - hole_diameter hd' / 2)%R
    /\ (x c + head_width hw / 2 + lengthwise_inner_spacing p
        <= x c' - head_width hw' / 2)%R.
Proof. apply exact_no_overlap. Qed.

Lemma X6_no_overlap_witness :
  let hs := [create_hex_wrench (T:=R) (dec 2 0) 24%R 36%R;
             create_hex_wrench (T:=R) (dec 10 0) 31%R 46%R] in
  let p := mkHexWrenchHolderParameters 5%R 2.5%R 5%R 38%R 1.2%R 1%R in
  exists d hd hd' c c',
    main hs p = (all_statements, Finished d)
    /\ nth_error (final_hole_details d) 0 = Some hd
    /\ nth_error (final_hole_details d) 1 = Some hd'
    /\ hole_coords hd = Some c /\ hole_coords hd' = Some c'
    /\ (x c + hole_diameter hd / 2 + lengthwise_inner_spacing p
        <= x c' - hole_diameter hd' / 2)%R
    /\ (x c + 24 / 2 + lengthwise_inner_spacing p <= x c' - 31 / 2)%R.
Proof.
  intros hs p. exact (X6_no_overlap hs p 0 _ _ eq_refl eq_refl).
Defined.

(** X7: in exact arithmetic every hole is at least the widthwise border
    plus the head short length of its own wrench away from the mounting edge
    [y = 0]; and for a wrench of non-negative size and a non-negative
    [hole_enlarge_min], the far edge of its hole is at least the widthwise
    border inside the holder width. *)
Theorem X7_vertical_fit (hs : list (HexWrench R)) (p : HexWrenchHolderParameters R)
    (i : nat) (hw : HexWrench R) :
  nth_error hs i = Some hw ->
  exists d hd c,
    main hs p = (all_statements, Finished d)
    /\ nth_error (final_hole_details d) i = Some hd
    /\ hole_coords hd = Some c
    /\ (widthwise_border p <= y c - head_short_length hw)%R
    /\ (0 <= size_f hw -> 0 <= hole_enlarge_min p ->
        y c + hole_diameter hd / 2 + widthwise_border p <= holder_width d)%R.
Proof. apply exact_vertical_fit. Qed.

Lemma X7_vertical_fit_witness :
  let hs := [create_hex_wrench (T:=R) (dec 2 0) 24%R 36%R] in
  let p := mkHexWrenchHolderParameters 5%R 2.5%R 5%R 38%R 1.2%R 1%R in
  exists d hd c,
    main hs p = (all_statements, Finished d)
    /\ nth_error (final_hole_details d) 0 = Some hd
    /\ hole_coords hd = Some c
    /\ (5 <= y c - 36)%R
    /\ (y c + hole_diameter hd / 2 + 5 <= holder_width d)%R.
Proof.
  intros hs p.
  destruct (X7_vertical_fit hs p 0 _ eq_refl) as (d & hd & c & H1 & H2 & H3 & H4 & H5).
  exists d, hd, c. repeat split; try assumption.
  apply H5.
  - cbn [size_f create_hex_wrench float_of exact]. unfold R_of_Decimal, dec.
    cbn [dec_sign dec_coefficient dec_exponent powerRZ Z.of_N]. lra.
  - unfold p. cbn [hole_enlarge_min]. lra.
Defined.

(** ** The text functions *)

Section Text.
Local Open Scope Z_scope.

Lemma length_append (s1 s2 : string) :
  String.length (String.append s1 s2) = (String.length s1 + String.length s2)%nat.
Proof. induction s1 as [|c s1 IH]; cbn; [reflexivity | now rewrite IH]. Qed.


Lemma length_str_repeat (s : string) (n : nat) :
  String.length (str_repeat s n) = (n * String.length s)%nat.
Proof.
  induction n as [|n IH]; cbn [str_repeat]; [reflexivity|].
  rewrite length_append, IH. lia.
Qed.

Lemma len_str_times (s : string) (n : Z) :
  len (str_times s n) = Z.max 0 n * len s.
Proof. unfold len, str_times. rewrite length_str_repeat. lia. Qed.

Lemma expandtabs_from_no_tab (s : string) :
  has_tab s = false -> forall column, expandtabs_from column s = s.
Proof.
  induction s as [|c s IH]; intros H column; [reflexivity|].
  cbn [has_tab] in H. apply orb_false_iff in H as [Hc Hs].
  cbn [expandtabs_from]. rewrite Hc. f_equal. now apply IH.
Qed.

Lemma length_expandtabs_from (s : string) :
  forall column,
    (String.length s <= String.length (expandtabs_from column s))%nat.
Proof.
  induction s as [|c s IH]; intros column; [apply Nat.le_refl|].
  cbn [expandtabs_from].
  destruct (Ascii.eqb c "009"%char).
  - rewrite length_append, length_str_repeat. cbn [String.length].
    specialize (IH (column + (8 - column mod 8))%nat).
    pose proof (Nat.mod_upper_bound column 8 ltac:(discriminate)). lia.
  - cbn [String.length]. apply le_n_S, IH.
Qed.

Lemma len_expandtabs_ge (s : string) : len s <= len (expandtabs s).
Proof. unfold len, expandtabs. pose proof (length_expandtabs_from s 0). lia. Qed.

Lemma len_nonneg (s : string) : 0 <= len s.
Proof. unfold len. lia. Qed.




Lemma table_header_lines (title header sep : string) (nbr : Z) :
  exists underline,
    print_table_header title header sep nbr
    = repeat EmptyString (Z.to_nat nbr)
      ++ [String.append title ":"; header; underline]
    /\ List.length (print_table_header title header sep nbr) = (Z.to_nat nbr + 3)%nat
    /\ len underline = len (expandtabs header) * len sep
    /\ len header <= len (expandtabs header)
    /\ (has_tab header = false -> len sep = 1 -> len underline = len header).
Proof.
  eexists. split; [reflexivity|]. split; [|split; [|split]].
  - unfold print_table_header. rewrite length_app, repeat_length. cbn. lia.
  - rewrite len_str_times.
    rewrite Z.max_r by apply len_nonneg. reflexivity.
  - apply len_expandtabs_ge.
  - intros Htab Hsep. rewrite len_str_times, Hsep.
    unfold expandtabs. rewrite expandtabs_from_no_tab by assumption.
    rewrite Z.max_r by apply len_nonneg. lia.
Qed.

Lemma has_tab_append (s1 s2 : string) :
  has_tab (String.append s1 s2) = (has_tab s1 || has_tab s2)%bool.
Proof.
  induction s1 as [|c s1 IH]; [reflexivity|].
  cbn [String.append has_tab]. rewrite IH. apply orb_assoc.
Qed.

Lemma has_tab_spaces (n : nat) : has_tab (str_repeat " " n) = false.
Proof. induction n as [|n IH]; [reflexivity|]. cbn [str_repeat]. now rewrite has_tab_append, IH. Qed.

Lemma has_tab_expandtabs_from (s : string) :
  forall column, has_tab (expandtabs_from column s) = false.
Proof.
  induction s as [|c s IH]; intros column; [reflexivity|].
  cbn [expandtabs_from].
  destruct (Ascii.eqb c "009"%char) eqn:E.
  - now rewrite has_tab_append, has_tab_spaces, IH.
  - cbn [has_tab]. now rewrite E, IH.
Qed.










End Text.

(** A line feed in the text breaks the box: the five [print] calls give six
    lines, of three lengths. *)
Example box_with_line_feed :
  lines (stdout (print_boxed_text (String "a" (String "010" "b")) None 1))
  = ["+-----+"; "|     |"; "| a"; "b |"; "|     |"; "+-----+"]%string.
Proof. reflexivity. Qed.





(** X10 ([print_table_header]): the header block is [nbr_blank_lines] empty
    lines, the title followed by a colon, the header, and an underline.  The
    underline has the length of the header with its tabs expanded (once per
    character of the separator); that expansion has no tab left and is never
    shorter than the header. *)
Theorem X10_table_header (title header sep : string) (nbr : Z) :
  exists underline,
    print_table_header title header sep nbr
    = repeat EmptyString (Z.to_nat nbr)
      ++ [String.append title ":"; header; underline]
    /\ len underline = (len (expandtabs header) * len sep)%Z
    /\ has_tab (expandtabs header) = false
    /\ (len header <= len (expandtabs header))%Z.
Proof.
  destruct (table_header_lines title header sep nbr) as (u & H1 & _ & H3 & H4 & _).
  exists u. repeat split; try assumption.
  apply has_tab_expandtabs_from.
Qed.

(** ** The hole diameter and the size of the wrench *)

Section FloatSizes.
Local Open Scope Z_scope.

(** [x + y] is monotone in a finite [x]. *)
Lemma SFadd_mono_l x1 x2 y :
  valid_binary x1 = true -> valid_binary x2 = true -> valid_binary y = true ->
  SFnum x1 -> SFnum x2 -> y <> S754_nan ->
  SFval x1 <= SFval x2 ->
  SFval (SFadd prec emax x1 y) <= SFval (SFadd prec emax x2 y).
Proof.
  intros V1 V2 Vy N1 N2 Ny Hle.
  destruct (not_nan_cases y Ny) as [Hy|[s ->]].
  - destruct (SFadd_num x1 y V1 Vy N1 Hy) as [_ ->].
    destruct (SFadd_num x2 y V2 Vy N2 Hy) as [_ ->].
    apply nearest_even_Z_mono. lia.
  - rewrite !SFadd_inf_r by assumption. reflexivity.
Qed.

Lemma SFmul_mono_l x1 x2 y :
  valid_binary x1 = true -> valid_binary x2 = true -> valid_binary y = true ->
  SFnum x1 -> SFnum x2 -> SFnum y ->
  0 <= SFval y -> SFval x1 <= SFval x2 ->
  SFval (SFmul prec emax x1 y) <= SFval (SFmul prec emax x2 y).
Proof.
  intros V1 V2 Vy N1 N2 Ny Hy Hle.
  destruct (SFmul_num x1 y V1 Vy N1 Ny) as [_ ->].
  destruct (SFmul_num x2 y V2 Vy N2 Ny) as [_ ->].
  apply nearest_even_Z_mono. apply Z.div_le_mono; [reflexivity|].
  now apply Z.mul_le_mono_nonneg_r.
Qed.

Lemma SFmul_num_inv_r x y : SFnum x -> SFnum (SFmul prec emax x y) -> SFnum y.
Proof.
  destruct x as [sx|sx| |sx mx ex]; try contradiction;
    destruct y as [sy|sy| |sy my ey]; cbn [SFmul SFnum]; auto.
Qed.

Lemma float_hole_diameter_mono_dia d1 d2 f m :
  is_finite d1 = true -> is_finite d2 = true -> (d1 <=? d2)%float = true ->
  is_finite f = true -> (0 <=? f)%float = true -> is_nan m = false ->
  (compute_hole_diameter d1 f m <=? compute_hole_diameter d2 f m)%float = true.
Proof.
  intros F1 F2 Hd Ff Hf Nm.
  pose proof (is_finite_num d1 F1) as N1.
  pose proof (is_finite_num d2 F2) as N2.
  pose proof (is_finite_num f Ff) as Nf.
  apply is_nan_false in Nm.
  destruct (leb_true_inv _ _ Hd) as (_ & _ & Hle).
  destruct (leb_true_inv _ _ Hf) as (_ & _ & Hf0).
  change (float_val 0%float) with 0 in Hf0.
  unfold compute_hole_diameter. cbn [add mul binary64].
  assert (Na1 : Prim2SF (d1 + m)%float <> S754_nan).
  { rewrite add_spec. apply SFadd_num_l_not_nan; try apply Prim2SF_valid; assumption. }
  assert (Na2 : Prim2SF (d2 + m)%float <> S754_nan).
  { rewrite add_spec. apply SFadd_num_l_not_nan; try apply Prim2SF_valid; assumption. }
  assert (Nb1 : Prim2SF (d1 * f)%float <> S754_nan).
  { rewrite mul_spec. apply SFmul_num; try apply Prim2SF_valid; assumption. }
  assert (Nb2 : Prim2SF (d2 * f)%float <> S754_nan).
  { rewrite mul_spec. apply SFmul_num; try apply Prim2SF_valid; assumption. }
  assert (Ha : float_val (d1 + m)%float <= float_val (d2 + m)%float).
  { unfold float_val. rewrite !add_spec.
    apply SFadd_mono_l; try apply Prim2SF_valid; assumption. }
  assert (Hb : float_val (d1 * f)%float <= float_val (d2 * f)%float).
  { unfold float_val. rewrite !mul_spec.
    apply SFmul_mono_l; try apply Prim2SF_valid; assumption. }
  destruct (pymax_float_val _ _ Na1 Nb1) as [Nr1 Er1].
  destruct (pymax_float_val _ _ Na2 Nb2) as [Nr2 Er2].
  rewrite leb_float_val by assumption. apply Z.leb_le.
  change (float_val (pymax (d1 + m)%float (d1 * f)%float)
          <= float_val (pymax (d2 + m)%float (d2 * f)%float)).
  lia.
Qed.

Lemma long_diameter_factor :
  Prim2SF (lit 2 / sqrt (lit 3))%py = S754_finite false 5200308914369309 (-52).
Proof. vm_compute. reflexivity. Qed.

Lemma float_long_diameter_finite_inv s :
  is_finite (compute_hex_long_diameter s) = true -> SFnum (Prim2SF s).
Proof.
  intros F. apply is_finite_num in F.
  unfold compute_hex_long_diameter in F.
  set (c := (lit 2 / sqrt (lit 3))%py) in F.
  change (c * s)%py with (c * s)%float in F.
  rewrite mul_spec in F.
  apply SFmul_num_inv_r in F; [exact F|].
  unfold c. rewrite long_diameter_factor. exact I.
Qed.

Lemma float_long_diameter_mono s1 s2 :
  is_finite (compute_hex_long_diameter s1) = true ->
  is_finite (compute_hex_long_diameter s2) = true ->
  (s1 <=? s2)%float = true ->
  (compute_hex_long_diameter s1 <=? compute_hex_long_diameter s2)%float = true.
Proof.
  intros F1 F2 Hs.
  pose proof (float_long_diameter_finite_inv s1 F1) as N1.
  pose proof (float_long_diameter_finite_inv s2 F2) as N2.
  destruct (leb_true_inv _ _ Hs) as (_ & _ & Hle).
  rewrite leb_float_val
    by (apply num_not_nan, is_finite_num; assumption).
  apply Z.leb_le. unfold compute_hex_long_diameter.
  set (c := (lit 2 / sqrt (lit 3))%py).
  change (float_val (c * s1)%float <= float_val (c * s2)%float).
  unfold float_val. rewrite !mul_spec.
  unfold c. rewrite long_diameter_factor.
  apply SFmul_mono; try apply Prim2SF_valid; try assumption; try exact I.
  - reflexivity.
  - cbn [SFval cond_Zopp]. apply Z.mul_nonneg_nonneg; [lia|].
    apply Z.lt_le_incl, pow2_pos. unfold kscale. lia.
Qed.


End FloatSizes.

Section ExactSizes.
Local Open Scope R_scope.

Lemma exact_long_diameter_mono (s1 s2 : R) :
  s1 <= s2 -> compute_hex_long_diameter s1 <= compute_hex_long_diameter s2.
Proof.
  intros H. unfold compute_hex_long_diameter. cbn [mul div sqrt lit exact].
  assert (0 < R_sqrt.sqrt 3) by (apply sqrt_lt_R0; lra).
  apply Rmult_le_compat_l; [|exact H].
  apply Rlt_le, Rdiv_lt_0_compat; lra.
Qed.

Lemma exact_hole_diameter_mono_dia (d1 d2 f m : R) :
  d1 <= d2 -> 0 <= f ->
  compute_hole_diameter d1 f m <= compute_hole_diameter d2 f m.
Proof.
  intros Hd Hf. rewrite !exact_compute_hole_diameter.
  apply Rmax_lub.
  - apply Rle_trans with (d2 + m); [lra | apply Rmax_l].
  - apply Rle_trans with (d2 * f); [now apply Rmult_le_compat_r | apply Rmax_r].
Qed.

End ExactSizes.

(** X11: a larger wrench never gets a smaller long diameter nor a smaller
    hole, for a non-negative [hole_enlarge_factor]: in binary64 as long as
    the two long diameters are finite, and in exact arithmetic. *)
Theorem X11_hole_grows_with_size :
  (forall s1 s2 f m : float,
      (s1 <=? s2)%float = true ->
      is_finite (compute_hex_long_diameter s1) = true ->
      is_finite (compute_hex_long_diameter s2) = true ->
      is_finite f = true -> (0 <=? f)%float = true -> is_nan m = false ->
      (compute_hex_long_diameter s1 <=? compute_hex_long_diameter s2)%float = true
      /\ (compute_hole_diameter (compute_hex_long_diameter s1) f m
          <=? compute_hole_diameter (compute_hex_long_diameter s2) f m)%float = true)
  /\ (forall s1 s2 f m : R,
      s1 <= s2 -> 0 <= f ->
      compute_hex_long_diameter s1 <= compute_hex_long_diameter s2
      /\ compute_hole_diameter (compute_hex_long_diameter s1) f m
         <= compute_hole_diameter (compute_hex_long_diameter s2) f m)%R.
Proof.
  split.
  - intros s1 s2 f m Hs F1 F2 Ff Hf Nm.
    pose proof (float_long_diameter_mono s1 s2 F1 F2 Hs) as Hd.
    split; [exact Hd|]. now apply float_hole_diameter_mono_dia.
  - intros s1 s2 f m Hs Hf.
    pose proof (exact_long_diameter_mono s1 s2 Hs) as Hd.
    split; [exact Hd|]. now apply exact_hole_diameter_mono_dia.
Qed.

Lemma X11_hole_grows_with_size_witness :
  ((compute_hex_long_diameter 2.5 <=? compute_hex_long_diameter 10)%float = true
   /\ (compute_hole_diameter (compute_hex_long_diameter 2.5) 1.2 1
       <=? compute_hole_diameter (compute_hex_long_diameter 10) 1.2 1)%float = true)
  /\ (compute_hex_long_diameter 2 <= compute_hex_long_diameter 10
      /\ compute_hole_diameter (compute_hex_long_diameter 2) 1 1
         <= compute_hole_diameter (compute_hex_long_diameter 10) 1 1)%R.
Proof.
  split.
  - apply (proj1 X11_hole_grows_with_size 2.5 10 1.2 1)%float; reflexivity.
  - apply (proj2 X11_hole_grows_with_size 2 10 1 1)%R; lra.
Defined.

(** ** The layout in binary64 *)

Section FloatLayout.
Local Open Scope Z_scope.

Lemma num_of_val_bounds x :
  x <> S754_nan -> - 2 ^ (1024 + kscale) < SFval x < 2 ^ (1024 + kscale) -> SFnum x.
Proof.
  destruct x as [s|s| |s m e]; intros N H; try exact I; [|congruence].
  cbn [SFval] in H. destruct s; cbn [cond_Zopp] in H; lia.
Qed.

Lemma div_eucl_div_mod a b : Z.div_eucl a b = (a / b, a mod b).
Proof. unfold Z.div, Z.modulo. destruct (Z.div_eucl a b); reflexivity. Qed.

Lemma Zdigits2_mul_pow2 (p : positive) k :
  0 <= k -> Zdigits2 (Zpos p * 2 ^ k) = Zdigits2 (Zpos p) + k.
Proof.
  intros Hk.
  assert (Hp : 0 < Zpos p * 2 ^ k) by (pose proof (pow2_pos k Hk); nia).
  destruct (Zpos p * 2 ^ k) as [|q|q] eqn:E; try lia.
  rewrite !Zdigits2_log2, <- E, Z.log2_mul_pow2 by lia. lia.
Qed.

(** [binary_round_aux] at the least exponent, on a mantissa of at most 52
    bits: no shift, only the rounding of the last place. *)
Lemma binary_round_aux_least s m l :
  0 <= m < 2 ^ 52 ->
  let r := binary_round_aux prec emax s m (-1074) l in
  SFnum r /\ (s = false -> 0 <= SFval r).
Proof.
  intros Hm r. subst r.
  assert (C52 : 2 ^ 52 = 4503599627370496) by reflexivity.
  assert (C53 : 2 ^ 53 = 9007199254740992) by reflexivity.
  assert (Hd : forall q, 0 <= q < 2 ^ 53 -> fexp prec emax (Zdigits2 q + -1074) - -1074 = 0).
  { intros q Hq. rewrite fexp64.
    destruct (Z.eq_dec q 0) as [->|Hq0]; [reflexivity|].
    pose proof (Zdigits2_small q ltac:(lia)). lia. }
  unfold binary_round_aux, shr_fexp.
  rewrite (Hd m) by lia. cbn [shr].
  set (m1 := round_nearest_even (shr_m (shr_record_of_loc m l))
               (loc_of_shr_record (shr_record_of_loc m l))).
  assert (Hm1 : m <= m1 <= m + 1).
  { subst m1. destruct l as [|[ | | ]]; cbn [shr_record_of_loc shr_m loc_of_shr_record round_nearest_even];
      try destruct (Z.even m); lia. }
  rewrite (Hd m1) by lia. cbn [shr shr_record_of_loc shr_m].
  destruct m1 as [|p|p]; try lia.
  - split; [exact I | intros _; cbn; lia].
  - change (-1074 <=? emax - prec) with true. cbn iota.
    split; [exact I|]. intros ->. cbn [SFval cond_Zopp].
    apply Z.mul_nonneg_nonneg; [lia|].
    apply Z.lt_le_incl, pow2_pos. unfold kscale. lia.
Qed.

(** Half of a non-negative finite number is a non-negative finite number. *)
Lemma SFdiv_two_num x :
  valid_binary x = true -> SFnum x -> 0 <= SFval x ->
  SFnum (SFdiv prec emax x SFtwo) /\ 0 <= SFval (SFdiv prec emax x SFtwo).
Proof.
  intros V N H0.
  destruct x as [sx|sx| |sx mx ex]; try contradiction.
  - destruct sx; cbn; split; (exact I || lia).
  - assert (HP : 0 < Zpos mx * 2 ^ (ex + kscale)).
    { cbn [valid_binary SpecFloat.valid_binary] in V.
      pose proof (finite_val_bounds mx ex V). lia. }
    destruct sx; [cbn [SFval cond_Zopp] in H0; lia|].
    cbn [valid_binary SpecFloat.valid_binary] in V.
    destruct (bounded_facts mx ex V) as (Hex & Hmx & Hn & Hc).
    pose proof (finite_val_bounds mx ex V) as HB.
    rewrite fexp64 in Hc.
    assert (C52 : 2 ^ 52 = 4503599627370496) by reflexivity.
    assert (C53 : 2 ^ 53 = 9007199254740992) by reflexivity.
    assert (Hd1 : 1 <= Zdigits2 (Zpos mx) <= 53) by (apply Zdigits2_small; lia).
    unfold SFtwo. cbn [SFdiv xorb]. unfold SFdiv_core_binary.
    change (Zdigits2 (Zpos 4503599627370496)) with 53.
    rewrite fexp64.
    set (d1 := Zdigits2 (Zpos mx)) in *.
    replace (Z.min (Z.max (d1 + ex - (53 + -51) - 53) (-1074)) (ex - -51))
      with (Z.max (d1 + ex - 55) (-1074)) by lia.
    set (e' := Z.max (d1 + ex - 55) (-1074)).
    destruct (Z.eq_dec ex (-1074)) as [E|E].
    + (* the least exponent *)
      assert (He' : e' = -1074) by (unfold e'; lia).
      rewrite He'. subst ex.
      change (-1074 - -51 - -1074) with 51.
      rewrite Z.shiftl_mul_pow2 by lia.
      rewrite div_eucl_div_mod.
      destruct (binary_round_aux_least false
                  (Zpos mx * 2 ^ 51 / 4503599627370496)
                  (new_location 4503599627370496
                     ((Zpos mx * 2 ^ 51) mod 4503599627370496))) as [H1 H2].
      * split; [apply Z.div_pos; lia|].
        apply Z.div_lt_upper_bound; [lia|].
        assert (2 ^ 51 = 2251799813685248) by reflexivity. lia.
      * split; [exact H1 | now apply H2].
    + (* the quotient is exact *)
      assert (Hs : 52 <= ex - -51 - e') by (unfold e'; lia).
      destruct (ex - -51 - e') as [|ps|ps] eqn:Es; try lia.
      rewrite Z.shiftl_mul_pow2 by lia.
      rewrite div_eucl_div_mod. rewrite <- Es.
      set (k := ex - -51 - e' - 52).
      assert (Hk : 0 <= k) by (unfold k; lia).
      assert (Hq : Zpos mx * 2 ^ (ex - -51 - e') = Zpos mx * 2 ^ k * Zpos 4503599627370496).
      { replace (ex - -51 - e') with (k + 52) by (unfold k; lia).
        rewrite pow2_add by lia. rewrite C52. lia. }
      rewrite Hq, Z.div_mul, Z.mod_mul by lia.
      change (new_location (Zpos 4503599627370496) 0) with loc_Exact.
      assert (Hqp : 0 < Zpos mx * 2 ^ k) by (pose proof (pow2_pos k Hk); nia).
      pose proof (Zdigits2_mul_pow2 mx k Hk) as Hdig.
      destruct (Zpos mx * 2 ^ k) as [|q|q] eqn:Eq; try lia.
      destruct (binary_round_aux_val false q e') as [H1 H2].
      * rewrite Hdig, fexp64. fold d1. unfold k, e'. lia.
      * unfold e', kscale. lia.
      * set (r := binary_round_aux prec emax false (Zpos q) e' loc_Exact) in *.
        cbn [cond_Zopp] in H2.
        assert (HV : Zpos q * 2 ^ (e' + kscale) <= Zpos mx * 2 ^ (ex + kscale)).
        { rewrite <- Eq, <- Z.mul_assoc, <- pow2_add by (unfold e', kscale; lia).
          apply Z.mul_le_mono_nonneg_l; [lia|].
          apply pow2_le. unfold k, e', kscale. lia. }
        assert (HVp : 0 < Zpos q * 2 ^ (e' + kscale)).
        { pose proof (pow2_pos (e' + kscale) ltac:(unfold e', kscale; lia)). nia. }
        pose proof (nearest_even_ov_mono _ _ HVp HV) as Hmono.
        pose proof (nearest_even_ov_bounds _ HVp) as Hb.
        assert (Hrep : nearest_even_ov (Zpos mx * 2 ^ (ex + kscale)) = Zpos mx * 2 ^ (ex + kscale)).
        { pose proof (SFval_num_representable (S754_finite false mx ex) V I) as Hr.
          cbn [SFval cond_Zopp] in Hr. rewrite nearest_even_Z_pos in Hr by lia. exact Hr. }
        split; [apply num_of_val_bounds; [exact H1|] |]; lia.
Qed.

Lemma SFsub_num_not_nan x y :
  valid_binary x = true -> valid_binary y = true -> SFnum x -> SFnum y ->
  SFsub prec emax x y <> S754_nan.
Proof.
  intros Vx Vy Nx Ny.
  destruct x as [sx|sx| |sx mx ex]; try contradiction;
  destruct y as [sy|sy| |sy my ey]; try contradiction; cbn [SFsub].
  - destruct sx, sy; discriminate.
  - discriminate.
  - discriminate.
  - cbn [valid_binary SpecFloat.valid_binary] in Vx, Vy.
    destruct (bounded_facts mx ex Vx) as (Hex & _).
    destruct (bounded_facts my ey Vy) as (Hey & _).
    apply binary_normalize_val. unfold kscale. lia.
Qed.

(** Adding a non-negative finite number to anything but NaN. *)
Lemma SFadd_ge_any x y :
  valid_binary x = true -> valid_binary y = true ->
  x <> S754_nan -> SFnum y -> 0 <= SFval y ->
  SFadd prec emax x y <> S754_nan /\ SFval x <= SFval (SFadd prec emax x y).
Proof.
  intros Vx Vy Nx Ny Hy.
  destruct (not_nan_cases x Nx) as [Hx|[s ->]].
  - split; [now apply SFadd_num|].
    apply SFadd_ge; try assumption. now apply num_not_nan.
  - destruct y as [sy|sy| |sy my ey]; try contradiction;
      cbn [SFadd]; (split; [discriminate | reflexivity]).
Qed.

Lemma float_add_ge_any (a h : float) :
  Prim2SF a <> S754_nan -> SFnum (Prim2SF h) -> 0 <= float_val h ->
  Prim2SF (a + h)%float <> S754_nan /\ float_val a <= float_val (a + h)%float.
Proof.
  intros Na Nh Hh. unfold float_val. rewrite add_spec.
  apply SFadd_ge_any; try apply Prim2SF_valid; assumption.
Qed.

Lemma lit_two : Prim2SF (lit 2) = SFtwo.
Proof. vm_compute. reflexivity. Qed.

Lemma float_step_of_leb (w : float) :
  is_finite w = true -> (0 <=? w)%float = true -> float_step w.
Proof.
  intros F H. split; [now apply is_finite_num|].
  destruct (leb_true_inv _ _ H) as (_ & _ & H0). exact H0.
Qed.

Lemma float_half_step (w : float) :
  is_finite w = true -> (0 <=? w)%float = true -> float_step (w / lit 2)%py.
Proof.
  intros F H. destruct (float_step_of_leb w F H) as [N H0].
  unfold float_step, float_val.
  change (w / lit 2)%py with (w / lit 2)%float.
  rewrite div_spec, lit_two.
  apply SFdiv_two_num; try apply Prim2SF_valid; assumption.
Qed.

Lemma float_centers_loop_bounds (yc s : float) (hs : list float) :
  float_step s -> Forall float_step hs ->
  forall pre, Prim2SF pre <> S754_nan ->
    Forall (fun c => Prim2SF (x c) <> S754_nan /\ float_val pre <= float_val (x c))
           (centers_loop yc s hs pre []).
Proof.
  intros [Ns Hs] Hhs. induction Hhs as [|h hs [Nh Hh] _ IH]; intros pre Np.
  - constructor.
  - rewrite centers_loop_cons.
    destruct (float_add_ge_any pre h Np Nh Hh) as [N1 L1].
    destruct (float_add_ge_any _ h N1 Nh Hh) as [N2 L2].
    destruct (float_add_ge_any _ s N2 Ns Hs) as [N3 L3].
    constructor; [split; [exact N1 | exact L1]|].
    specialize (IH _ N3). revert IH. apply Forall_impl.
    intros c [Nc Lc]. split; [exact Nc|].
    apply (Z.le_trans _ _ _ L1). apply (Z.le_trans _ _ _ L2).
    apply (Z.le_trans _ _ _ L3). exact Lc.
Qed.

(** A later center is at least one half width and one inner spacing to the
    right of an earlier one. *)
Lemma float_centers_loop_sorted (yc s : float) (hs : list float) :
  float_step s -> Forall float_step hs ->
  forall pre i j h c c',
    Prim2SF pre <> S754_nan -> (i < j)%nat ->
    nth_error hs i = Some h ->
    nth_error (centers_loop yc s hs pre []) i = Some c ->
    nth_error (centers_loop yc s hs pre []) j = Some c' ->
    (x c <=? (x c + h + s)%py)%float = true
    /\ ((x c + h + s)%py <=? x c')%float = true.
Proof.
  intros Ss Hhs. induction Hhs as [|h0 hs Sh0 Hhs IH];
    intros pre i j h c c' Np Hij Hh Hc Hc'.
  - destruct i; discriminate.
  - rewrite centers_loop_cons in Hc, Hc'.
    destruct j as [|j]; [lia|]. cbn [nth_error] in Hc'.
    destruct Sh0 as [Nh0 Hh0]. pose proof Ss as [Ns Hs].
    destruct (float_add_ge_any pre h0 Np Nh0 Hh0) as [N1 L1].
    destruct (float_add_ge_any _ h0 N1 Nh0 Hh0) as [N2 L2].
    destruct (float_add_ge_any _ s N2 Ns Hs) as [N3 L3].
    destruct i as [|i].
    + cbn [nth_error] in Hh, Hc. injection Hh as <-. injection Hc as <-.
      cbn [x].
      pose proof (float_centers_loop_bounds yc s hs Ss Hhs _ N3) as Hb.
      rewrite Forall_forall in Hb.
      destruct (Hb c' (nth_error_In _ _ Hc')) as [Nc' Lc'].
      change (pre + h0 + h0 + s)%py with (pre + h0 + h0 + s)%float.
      change (pre + h0)%py with (pre + h0)%float.
      rewrite !leb_float_val by assumption.
      split; apply Z.leb_le; [exact (Z.le_trans _ _ _ L2 L3) | exact Lc'].
    + cbn [nth_error] in Hh, Hc.
      apply (IH _ i j h c c' N3); (lia || assumption).
Qed.

Lemma float_first_pre (b h : float) :
  is_finite b = true -> float_step h -> Prim2SF (b - h)%py <> S754_nan.
Proof.
  intros Fb [Nh _]. change (b - h)%py with (b - h)%float.
  rewrite sub_spec. apply SFsub_num_not_nan; try apply Prim2SF_valid.
  - now apply is_finite_num.
  - exact Nh.
Qed.

Lemma float_centers_sorted (ws : list float) (s b wb m : float) cs
    (i j : nat) (w : float) (c c' : HoleCoords float) :
  Forall (fun w => is_finite w = true /\ (0 <=? w)%float = true) ws ->
  is_finite s = true -> (0 <=? s)%float = true ->
  is_finite b = true ->
  compute_hole_centers ws s b wb m = Ok cs ->
  (i < j)%nat ->
  nth_error ws i = Some w ->
  nth_error cs i = Some c -> nth_error cs j = Some c' ->
  (x c <=? (x c + w / lit 2 + s)%py)%float = true
  /\ ((x c + w / lit 2 + s)%py <=? x c')%float = true.
Proof.
  intros Hws Fs Hs Fb Hcs Hij Hw Hc Hc'.
  pose proof (float_step_of_leb s Fs Hs) as Ss.
  assert (Hhs : Forall float_step (map (fun w => w / lit 2)%py ws)).
  { apply Forall_map. revert Hws. apply Forall_impl.
    intros a [Fa Ha]. now apply float_half_step. }
  apply compute_hole_centers_Ok in Hcs as [-> Hne].
  set (hs := map (fun w => (w / lit 2)%py) ws) in *.
  assert (Np : Prim2SF (b - hd (lit 0) hs)%py <> S754_nan).
  { destruct ws as [|w0 ws]; [congruence|]. cbn [hs map hd].
    apply Forall_inv in Hhs. now apply float_first_pre. }
  assert (Hhi : nth_error hs i = Some (w / lit 2)%py)
    by (unfold hs; rewrite nth_error_map, Hw; reflexivity).
  exact (float_centers_loop_sorted _ s hs Ss Hhs _ i j _ c c' Np Hij Hhi Hc Hc').
Qed.

(** The holder length is not left of the last center. *)
Lemma float_holder_length_ge (xl d b : float) :
  Prim2SF xl <> S754_nan ->
  is_finite d = true -> (0 <=? d)%float = true ->
  is_finite b = true -> (0 <=? b)%float = true ->
  Prim2SF (compute_holder_length xl d b) <> S754_nan
  /\ float_val xl <= float_val (compute_holder_length xl d b).
Proof.
  intros Nx Fd Hd Fb Hb.
  destruct (float_half_step d Fd Hd) as [Nh Hh].
  destruct (float_step_of_leb b Fb Hb) as [Nb Hb0].
  unfold compute_holder_length.
  destruct (float_add_ge_any xl _ Nx Nh Hh) as [N1 L1].
  destruct (float_add_ge_any _ b N1 Nb Hb0) as [N2 L2].
  split; [exact N2 | exact (Z.le_trans _ _ _ L1 L2)].
Qed.

Lemma float_pymax_step (a b : float) :
  is_finite a = true -> is_finite b = true -> (0 <=? b)%float = true ->
  is_finite (pymax a b) = true /\ (0 <=? pymax a b)%float = true.
Proof.
  intros Fa Fb Hb. unfold pymax. cbn [ltb binary64].
  destruct (a <? b)%float eqn:E; [now split|].
  split; [exact Fa|].
  pose proof (num_not_nan _ (is_finite_num a Fa)) as Na.
  pose proof (num_not_nan _ (is_finite_num b Fb)) as Nb.
  rewrite ltb_float_val in E by assumption. apply Z.ltb_ge in E.
  destruct (leb_true_inv _ _ Hb) as (N0 & _ & H0).
  rewrite leb_float_val by assumption. apply Z.leb_le. lia.
Qed.

Lemma float_long_diameter_nonneg (s : float) :
  is_finite (compute_hex_long_diameter s) = true -> (0 <=? s)%float = true ->
  (0 <=? compute_hex_long_diameter s)%float = true.
Proof.
  intros F H.
  exact (float_long_diameter_mono 0%float s eq_refl F H).
Qed.

Lemma float_leb_trans (a b c : float) :
  (a <=? b)%float = true -> (b <=? c)%float = true -> (a <=? c)%float = true.
Proof.
  intros H1 H2.
  destruct (leb_true_inv _ _ H1) as (Na & Nb & L1).
  destruct (leb_true_inv _ _ H2) as (_ & Nc & L2).
  rewrite leb_float_val by assumption. apply Z.leb_le. lia.
Qed.

Lemma float_centers_not_nan (ws : list float) (s b wb m : float) cs :
  Forall (fun w => is_finite w = true /\ (0 <=? w)%float = true) ws ->
  is_finite s = true -> (0 <=? s)%float = true ->
  is_finite b = true ->
  compute_hole_centers ws s b wb m = Ok cs ->
  Forall (fun c => Prim2SF (x c) <> S754_nan) cs.
Proof.
  intros Hws Fs Hs Fb Hcs.
  pose proof (float_step_of_leb s Fs Hs) as Ss.
  assert (Hhs : Forall float_step (map (fun w => w / lit 2)%py ws)).
  { apply Forall_map. revert Hws. apply Forall_impl.
    intros a [Fa Ha]. now apply float_half_step. }
  apply compute_hole_centers_Ok in Hcs as [-> Hne].
  set (hs := map (fun w => (w / lit 2)%py) ws) in *.
  assert (Np : Prim2SF (b - hd (lit 0) hs)%py <> S754_nan).
  { destruct ws as [|w0 ws]; [congruence|]. cbn [hs map hd].
    apply Forall_inv in Hhs. now apply float_first_pre. }
  pose proof (float_centers_loop_bounds (wb + m)%py s hs Ss Hhs _ Np) as Hb.
  revert Hb. apply Forall_impl. intros c [Nc _]. exact Nc.
Qed.

(** No center is right of the last one. *)
Lemma float_centers_le_last (ws : list float) (s b wb m : float) cs
    (k : nat) (c cl : HoleCoords float) :
  Forall (fun w => is_finite w = true /\ (0 <=? w)%float = true) ws ->
  is_finite s = true -> (0 <=? s)%float = true ->
  is_finite b = true ->
  compute_hole_centers ws s b wb m = Ok cs ->
  py_last cs = Ok cl -> nth_error cs k = Some c ->
  (x c <=? x cl)%float = true.
Proof.
  intros Hws Fs Hs Fb Hcs Hl Hk.
  pose proof (float_centers_not_nan _ _ _ _ _ _ Hws Fs Hs Fb Hcs) as Hnn.
  rewrite Forall_forall in Hnn.
  pose proof (compute_hole_centers_length _ _ _ _ _ _ Hcs) as Hlen.
  apply py_last_nth_error in Hl.
  assert (Hk' : (k < length cs)%nat) by (apply nth_error_Some; congruence).
  destruct (Nat.eq_dec k (length cs - 1)) as [->|Hne].
  - rewrite Hl in Hk. injection Hk as ->.
    pose proof (Hnn c (nth_error_In _ _ Hl)) as Nc.
    rewrite leb_float_val by assumption. apply Z.leb_le. lia.
  - destruct (nth_error ws k) as [w|] eqn:Hw.
    2:{ apply nth_error_None in Hw. lia. }
    destruct (float_centers_sorted ws s b wb m cs k (length cs - 1) w c cl
                Hws Fs Hs Fb Hcs ltac:(lia) Hw Hk Hl) as [H1 H2].
    exact (float_leb_trans _ _ _ H1 H2).
Qed.

End FloatLayout.

Section FloatBox.
Local Open Scope Z_scope.

Lemma nonneg_finite_true (a : float) :
  nonneg_finite a = true <-> is_finite a = true /\ (0 <=? a)%float = true.
Proof. unfold nonneg_finite. apply andb_true_iff. Qed.

Lemma nonneg_finite_step (a : float) : nonneg_finite a = true -> float_step a.
Proof. intros H. apply nonneg_finite_true in H as [F H]. now apply float_step_of_leb. Qed.

Lemma nearest_even_Z_opp z : nearest_even_Z (- z) = - nearest_even_Z z.
Proof. destruct z; cbn [Z.opp nearest_even_Z]; lia. Qed.

(** The difference of two finite numbers is the rounded exact difference. *)
Lemma SFsub_num x y :
  valid_binary x = true -> valid_binary y = true -> SFnum x -> SFnum y ->
  SFsub prec emax x y <> S754_nan
  /\ SFval (SFsub prec emax x y) = nearest_even_Z (SFval x - SFval y).
Proof.
  intros Vx Vy Nx Ny.
  destruct x as [sx|sx| |sx mx ex]; try contradiction;
  destruct y as [sy|sy| |sy my ey]; try contradiction.
  - cbn [SFsub SFval]. destruct sx, sy; split; (discriminate || reflexivity).
  - cbn [SFsub]. split; [discriminate|].
    pose proof (SFval_num_representable (S754_finite (negb sy) my ey) Vy I) as Hr.
    rewrite <- Hr. f_equal. cbn [SFval]. destruct sy; cbn [negb cond_Zopp]; lia.
  - cbn [SFsub]. split; [discriminate|].
    change (SFval (S754_zero sy)) with 0.
    rewrite Z.sub_0_r. symmetry. now apply SFval_num_representable.
  - cbn [valid_binary SpecFloat.valid_binary] in Vx, Vy.
    destruct (bounded_facts mx ex Vx) as (Hex & _).
    destruct (bounded_facts my ey Vy) as (Hey & _).
    cbn [SFsub]. set (ez := Z.min ex ey).
    destruct (binary_normalize_val
                (cond_Zopp sx (Zpos (fst (shl_align mx ex ez)))
                 - cond_Zopp sy (Zpos (fst (shl_align my ey ez)))) ez) as [H1 H2];
      [unfold kscale, ez; lia|].
    split; [exact H1|]. rewrite H2. f_equal.
    rewrite !shl_align_fst by (unfold ez; lia).
    rewrite Z.mul_sub_distr_r, !cond_Zopp_mul. cbn [SFval].
    rewrite <- !Z.mul_assoc, <- !pow2_add by (unfold kscale, ez; lia).
    do 4 f_equal; lia.
Qed.

(** The first center [(b - h) + h] is not negative when [b] and [h] are
    not. *)
Lemma float_first_center_nonneg (b h : float) :
  float_step b -> float_step h ->
  Prim2SF (b - h + h)%py <> S754_nan /\ 0 <= float_val (b - h + h)%py.
Proof.
  intros [Nb Hb] [Nh Hh].
  change (b - h + h)%py with (b - h + h)%float.
  unfold float_val in *. rewrite add_spec, sub_spec.
  unfold SF64add, SF64sub.
  pose proof (Prim2SF_valid b) as Vb. pose proof (Prim2SF_valid h) as Vh.
  set (B := Prim2SF b) in *. set (H := Prim2SF h) in *.
  destruct (SFsub_num B H Vb Vh Nb Nh) as [N1 E1].
  assert (Vr : valid_binary (SFsub prec emax B H) = true).
  { unfold B, H. rewrite <- sub_spec. apply Prim2SF_valid. }
  pose proof (num_val_bounds B Vb Nb) as BB.
  pose proof (num_val_bounds H Vh Nh) as BH.
  assert (L1 : - SFval H <= SFval (SFsub prec emax B H)).
  { rewrite E1. rewrite <- (SFval_num_representable H Vh Nh) at 1.
    rewrite <- nearest_even_Z_opp. apply nearest_even_Z_mono. lia. }
  assert (U1 : SFval (SFsub prec emax B H) <= SFval B).
  { rewrite E1. rewrite <- (SFval_num_representable B Vb Nb) at 2.
    apply nearest_even_Z_mono. lia. }
  assert (Nr : SFnum (SFsub prec emax B H)) by (apply num_of_val_bounds; [exact N1 | lia]).
  destruct (SFadd_num _ H Vr Vh Nr Nh) as [N2 E2].
  split; [exact N2|]. rewrite E2.
  change 0 with (nearest_even_Z 0) at 1. apply nearest_even_Z_mono. lia.
Qed.

Lemma float_fold_pymax_ok (l : list float) :
  forall a, nonneg_finite a = true -> forallb nonneg_finite l = true ->
    nonneg_finite (fold_left pymax l a) = true.
Proof.
  induction l as [|b l IH]; intros a Ha Hl; [exact Ha|].
  cbn [forallb] in Hl. apply andb_true_iff in Hl as [Hb Hl].
  cbn [fold_left]. apply IH; [|exact Hl].
  apply nonneg_finite_true in Ha as [Fa _].
  apply nonneg_finite_true in Hb as [Fb Hb].
  apply nonneg_finite_true. now apply float_pymax_step.
Qed.

Lemma float_pymax_list_ok (l : list float) (m : float) :
  forallb nonneg_finite l = true -> pymax_list l = Ok m -> nonneg_finite m = true.
Proof.
  destruct l as [|a l]; [discriminate|].
  cbn [forallb pymax_list]. intros H [= <-].
  apply andb_true_iff in H as [Ha Hl]. now apply float_fold_pymax_ok.
Qed.

Lemma float_hole_diameter_ok (d f m : float) :
  nonneg_finite d = true -> (0 <=? m)%float = true ->
  is_finite (compute_hole_diameter d f m) = true ->
  nonneg_finite (compute_hole_diameter d f m) = true.
Proof.
  intros Hd Hm F. apply nonneg_finite_true in Hd as [Fd Hd].
  apply nonneg_finite_true. split; [exact F|].
  exact (float_leb_trans _ _ _ Hd (float_hole_diameter_ge d f m Fd Hm)).
Qed.

(** The holder width is not below the row of the centers. *)
Lemma float_holder_width_ge (ms md wb : float) :
  float_step ms -> float_step md -> float_step wb ->
  (wb <=? (wb + ms)%py)%float = true
  /\ ((wb + ms)%py <=? compute_holder_width ms md wb)%float = true.
Proof.
  intros [Nms Hms] [Nmd Hmd] [Nwb Hwb].
  pose proof (num_not_nan _ Nwb) as N0.
  unfold compute_holder_width.
  destruct (float_add_ge_any wb ms N0 Nms Hms) as [N1 L1].
  destruct (float_add_ge_any _ md N1 Nmd Hmd) as [N2 L2].
  destruct (float_add_ge_any _ wb N2 Nwb Hwb) as [N3 L3].
  change (wb + ms + md + wb)%py with (wb + ms + md + wb)%float.
  change (wb + ms)%py with (wb + ms)%float.
  rewrite !leb_float_val by assumption.
  split; apply Z.leb_le; [exact L1 | exact (Z.le_trans _ _ _ L2 L3)].
Qed.

End FloatBox.

Section ScriptLayout.
Context {T : Type} {num : PyNum T}.

(** What the dimensions of a finished run are computed from. *)
Lemma main_dimensions (hs : list (HexWrench T)) p ran d :
  main hs p = (ran, Finished d) ->
  exists ms md cs cl hwl,
    pymax_list (map head_short_length hs) = Ok ms
    /\ pymax_list (map (fun hw => compute_hole_diameter
                                   (compute_hex_long_diameter (size_f hw))
                                   (hole_enlarge_factor p) (hole_enlarge_min p)) hs)
       = Ok md
    /\ compute_hole_centers (spacing_widths hs (initial_hole_details hs p))
         (lengthwise_inner_spacing p) (lengthwise_border p)
         (widthwise_border p) ms = Ok cs
    /\ final_hole_details d = merge_hole_details (initial_hole_details hs p) cs
    /\ py_last cs = Ok cl /\ py_last hs = Ok hwl
    /\ holder_length d
       = compute_holder_length (x cl) (compute_hex_long_diameter (size_f hwl))
           (lengthwise_border p)
    /\ holder_width d = compute_holder_width ms md (widthwise_border p).
Proof.
  intros Hd.
  destruct (main_Finished _ _ _ _ Hd)
    as (ms & md & cs & last & c & Hms & Hmd & Hcs & Hfin & Hlast & Hc & Hlen & Hwid & _).
  rewrite Hfin in Hlast.
  destruct (py_last_merge _ _ _ (main_centers_length _ _ _ _ Hcs) Hlast)
    as (d0 & c0 & Hd0 & Hc0 & ->).
  cbn [hole_coords hex_long_diameter] in Hc, Hlen. injection Hc as <-.
  unfold initial_hole_details in Hd0, Hmd.
  destruct (py_last_map _ _ _ Hd0) as (hwl & Hhwl & ->).
  rewrite map_map in Hmd. cbn [compute_hole_detail hole_diameter] in Hmd.
  exists ms, md, cs, c0, hwl. repeat split; assumption.
Qed.

(** An entry of the final list is the entry of the first pass with its
    center. *)
Lemma nth_error_final (ds : list (HoleDetails T)) cs (k : nat) hd c :
  nth_error (merge_hole_details ds cs) k = Some hd ->
  hole_coords hd = Some c ->
  nth_error cs k = Some c
  /\ exists d0, nth_error ds k = Some d0 /\ hole_diameter hd = hole_diameter d0.
Proof.
  unfold merge_hole_details. rewrite nth_error_map.
  destruct (nth_error (combine ds cs) k) as [[d0 c0]|] eqn:E; [|discriminate].
  cbn [option_map]. intros [= <-]. cbn [hole_coords hole_diameter]. intros [= <-].
  revert cs k E. induction ds as [|a ds IH]; intros [|b cs] [|k] E; try discriminate.
  - injection E as <- <-. split; [reflexivity|]. now exists a.
  - cbn [combine nth_error] in E |- *. now apply IH.
Qed.

End ScriptLayout.

Section FloatScript.

Lemma float_centers_nonneg (ws : list float) (s b wb m : float) cs
    (k : nat) (c : HoleCoords float) :
  Forall (fun w => is_finite w = true /\ (0 <=? w)%float = true) ws ->
  is_finite s = true -> (0 <=? s)%float = true ->
  nonneg_finite b = true ->
  compute_hole_centers ws s b wb m = Ok cs ->
  nth_error cs k = Some c ->
  (0 <=? x c)%float = true.
Proof.
  intros Hws Fs Hs Hb Hcs Hk.
  pose proof (nonneg_finite_step b Hb) as Sb.
  apply nonneg_finite_true in Hb as [Fb _].
  destruct ws as [|w0 ws0] eqn:Ews; [discriminate|].
  pose proof Hcs as Hcs0. rewrite compute_hole_centers_cons in Hcs0.
  injection Hcs0 as Ecs.
  destruct (Forall_inv Hws) as [Fw0 Hw0].
  destruct (float_first_center_nonneg b _ Sb (float_half_step w0 Fw0 Hw0)) as [N0 L0].
  assert (H0 : (0 <=? (b - w0 / lit 2 + w0 / lit 2)%py)%float = true).
  { rewrite leb_float_val by (assumption || discriminate). now apply Z.leb_le. }
  destruct k as [|k].
  - rewrite <- Ecs in Hk. injection Hk as <-. exact H0.
  - assert (Hc0 : nth_error cs 0 = Some (mkHoleCoords (b - w0 / lit 2 + w0 / lit 2)%py (wb + m)%py))
      by (rewrite <- Ecs; reflexivity).
    destruct (float_centers_sorted (w0 :: ws0) s b wb m cs 0 (S k) w0 _ c
                Hws Fs Hs Fb Hcs ltac:(lia) eq_refl Hc0 Hk) as [H1 H2].
    exact (float_leb_trans _ _ _ H0 (float_leb_trans _ _ _ H1 H2)).
Qed.

Lemma float_script_box (hs : list (HexWrench float))
    (p : HexWrenchHolderParameters float) :
  hs <> [] -> layout_inputs_ok hs p = true ->
  exists d,
    main hs p = (all_statements, Finished d)
    /\ (forall k hd c,
          nth_error (final_hole_details d) k = Some hd ->
          hole_coords hd = Some c ->
          (0 <=? x c)%float = true
          /\ (x c <=? holder_length d)%float = true
          /\ (widthwise_border p <=? y c)%float = true
          /\ (y c <=? holder_width d)%float = true)
    /\ (forall i j hw hd hd' c c',
          (i < j)%nat ->
          nth_error hs i = Some hw ->
          nth_error (final_hole_details d) i = Some hd ->
          nth_error (final_hole_details d) j = Some hd' ->
          hole_coords hd = Some c -> hole_coords hd' = Some c' ->
          (x c <=? x c')%float = true
          /\ ((x c + pymax (hole_diameter hd) (head_width hw) / lit 2
               + lengthwise_inner_spacing p)%py <=? x c')%float = true).
Proof.
  intros Hne Hok. unfold layout_inputs_ok in Hok.
  rewrite !andb_true_iff in Hok.
  destruct Hok as ((((Hok & Hbd) & Hsp) & Hwb) & Hm).
  assert (Hhs : forall hw, In hw hs ->
            nonneg_finite (size_f hw) = true
            /\ nonneg_finite (head_width hw) = true
            /\ nonneg_finite (head_short_length hw) = true
            /\ nonneg_finite (compute_hex_long_diameter (size_f hw)) = true
            /\ nonneg_finite (compute_hole_diameter
                                (compute_hex_long_diameter (size_f hw))
                                (hole_enlarge_factor p) (hole_enlarge_min p)) = true).
  { intros hw Hin. rewrite forallb_forall in Hok. specialize (Hok hw Hin).
    unfold wrench_ok in Hok. rewrite !andb_true_iff in Hok.
    destruct Hok as ((((H1 & H2) & H3) & H4) & H5).
    assert (Hld : nonneg_finite (compute_hex_long_diameter (size_f hw)) = true).
    { apply nonneg_finite_true. split; [assumption|].
      apply float_long_diameter_nonneg; [assumption|].
      now apply nonneg_finite_true in H1 as [_ ?]. }
    repeat split; try assumption.
    now apply float_hole_diameter_ok. }
  clear Hok.
  apply nonneg_finite_true in Hsp as [Fs Hs].
  pose proof Hbd as Hbd'. apply nonneg_finite_true in Hbd' as [Fb Hb].
  destruct (main_finishes hs p Hne) as [d Hd].
  destruct (main_dimensions _ _ _ _ Hd)
    as (ms & md & cs & cl & hwl & Hms & Hmd & Hcs & Hfin & Hcl & Hhwl & HL & HW).
  assert (Hws : Forall (fun w => is_finite w = true /\ (0 <=? w)%float = true)
                  (spacing_widths hs (initial_hole_details hs p))).
  { rewrite spacing_widths_map. apply Forall_map. apply Forall_forall.
    intros hw Hin. destruct (Hhs hw Hin) as (_ & Hw & _ & _ & Hd0).
    apply nonneg_finite_true in Hw as [Fw Hw].
    apply nonneg_finite_true in Hd0 as [Fd _].
    now apply float_pymax_step. }
  assert (Sms : float_step ms).
  { apply nonneg_finite_step. apply (float_pymax_list_ok _ _) in Hms; [exact Hms|].
    apply forallb_forall. intros a Ha. apply in_map_iff in Ha as (hw & <- & Hin).
    now destruct (Hhs hw Hin) as (_ & _ & H3 & _). }
  assert (Smd : float_step md).
  { apply nonneg_finite_step. apply (float_pymax_list_ok _ _) in Hmd; [exact Hmd|].
    apply forallb_forall. intros a Ha. apply in_map_iff in Ha as (hw & <- & Hin).
    now destruct (Hhs hw Hin) as (_ & _ & _ & _ & H5). }
  pose proof (nonneg_finite_step _ Hwb) as Swb.
  destruct (float_holder_width_ge ms md _ Sms Smd Swb) as [HY1 HY2].
  rewrite <- HW in HY2.
  assert (Hy : Forall (fun c => y c = (widthwise_border p + ms)%py) cs).
  { destruct (compute_hole_centers_Ok _ _ _ _ _ _ Hcs) as [-> _]. apply centers_loop_y. }
  rewrite Forall_forall in Hy.
  exists d. split; [exact Hd|]. rewrite Hfin. split.
  - intros k hd c Hk Hc.
    destruct (nth_error_final _ _ _ _ _ Hk Hc) as [Hck _].
    split; [|split; [|split]].
    + exact (float_centers_nonneg _ _ _ _ _ _ k c Hws Fs Hs Hbd Hcs Hck).
    + pose proof (float_centers_le_last _ _ _ _ _ _ k c cl Hws Fs Hs Fb Hcs Hcl Hck) as Hle.
      destruct (leb_true_inv _ _ Hle) as (_ & Ncl & _).
      destruct (Hhs hwl (py_last_In _ _ Hhwl)) as (_ & _ & _ & Hld & _).
      apply nonneg_finite_true in Hld as [Fl Hl0].
      destruct (float_holder_length_ge (x cl) _ _ Ncl Fl Hl0 Fb Hb) as [NL LL].
      rewrite <- HL in NL, LL.
      apply (float_leb_trans _ _ _ Hle).
      rewrite leb_float_val by assumption. now apply Z.leb_le.
    + rewrite (Hy c (nth_error_In _ _ Hck)). exact HY1.
    + rewrite (Hy c (nth_error_In _ _ Hck)). exact HY2.
  - intros i j hw hd hd' c c' Hij Hi Hk Hk' Hc Hc'.
    destruct (nth_error_final _ _ _ _ _ Hk Hc) as [Hci (d0 & Hd0 & Ed)].
    destruct (nth_error_final _ _ _ _ _ Hk' Hc') as [Hcj _].
    unfold initial_hole_details in Hd0. rewrite nth_error_map, Hi in Hd0.
    injection Hd0 as <-. cbn [compute_hole_detail hole_diameter] in Ed.
    assert (Hw : nth_error (spacing_widths hs (initial_hole_details hs p)) i
                 = Some (pymax (hole_diameter hd) (head_width hw))).
    { rewrite spacing_widths_map, nth_error_map, Hi, Ed. reflexivity. }
    destruct (float_centers_sorted _ _ _ _ _ _ i j _ c c' Hws Fs Hs Fb Hcs Hij Hw Hci Hcj)
      as [H1 H2].
    split; [exact (float_leb_trans _ _ _ H1 H2) | exact H2].
Qed.

End FloatScript.

(** X12: in binary64, for finite non-negative widths, a finite non-negative
    inner spacing and a finite lengthwise border, the centers returned by
    [compute_hole_centers] are in order, whatever the rounding: a later
    center is not left of an earlier one, and not left of the earlier one
    moved by half of its width and by the inner spacing (as the loop adds
    them). *)
Theorem X12_float_centers_in_order (ws : list float) (s b wb m : float)
    (i j : nat) (w w' : float) :
  Forall (fun w => is_finite w = true /\ (0 <=? w)%float = true) ws ->
  is_finite s = true -> (0 <=? s)%float = true ->
  is_finite b = true ->
  (i < j)%nat ->
  nth_error ws i = Some w -> nth_error ws j = Some w' ->
  exists cs c c',
    compute_hole_centers ws s b wb m = Ok cs
    /\ nth_error cs i = Some c /\ nth_error cs j = Some c'
    /\ (x c <=? x c')%float = true
    /\ ((x c + w / lit 2 + s)%py <=? x c')%float = true.
Proof.
  intros Hws Fs Hs Fb Hij Hw Hw'.
  destruct ws as [|w0 ws0] eqn:Ews; [destruct i; discriminate|].
  rewrite <- Ews in *.
  destruct (compute_hole_centers ws s b wb m) as [cs|e] eqn:Hcs.
  2:{ rewrite Ews, compute_hole_centers_cons in Hcs. discriminate. }
  pose proof (compute_hole_centers_length _ _ _ _ _ _ Hcs) as Hlen.
  destruct (nth_error cs i) as [c|] eqn:Hc.
  2:{ apply nth_error_None in Hc.
      assert (i < length ws)%nat by (apply nth_error_Some; congruence). lia. }
  destruct (nth_error cs j) as [c'|] eqn:Hc'.
  2:{ apply nth_error_None in Hc'.
      assert (j < length ws)%nat by (apply nth_error_Some; congruence). lia. }
  destruct (float_centers_sorted ws s b wb m cs i j w c c'
              Hws Fs Hs Fb Hcs Hij Hw Hc Hc') as [H1 H2].
  exists cs, c, c'. repeat split; try reflexivity; try assumption.
  exact (float_leb_trans _ _ _ H1 H2).
Qed.

Lemma X12_float_centers_in_order_witness :
  exists cs c c',
    compute_hole_centers [24; 24; 31]%float 2.5%float 5%float 5%float 46%float = Ok cs
    /\ nth_error cs 0 = Some c /\ nth_error cs 2 = Some c'
    /\ (x c <=? x c')%float = true
    /\ ((x c + 24 / lit 2 + 2.5)%py <=? x c')%float = true.
Proof.
  apply (X12_float_centers_in_order [24; 24; 31]%float 2.5%float 5%float
           5%float 46%float 0 2 24%float 31%float);
    try reflexivity; [|lia].
  repeat (apply Forall_cons; [split; reflexivity|]). apply Forall_nil.
Defined.

(** X13: in binary64, whatever the rounding, a run on a non-empty wrench
    set whose numbers pass [layout_inputs_ok] (sizes, head widths, head short
    lengths, borders and inner spacing finite and not negative,
    [hole_enlarge_min] not negative, long diameters and hole diameters
    finite) finishes with every hole center inside the holder,
    [0 <= x <= holder_length] and [widthwise_border <= y <= holder_width],
    and with the centers in order: of two holes the later one is centered
    not left of the earlier one, nor of the earlier one moved by half of its
    spacing width and by the inner spacing. *)
Theorem X13_float_script_layout (hs : list (HexWrench float))
    (p : HexWrenchHolderParameters float) :
  hs <> [] -> layout_inputs_ok hs p = true ->
  exists d,
    main hs p = (all_statements, Finished d)
    /\ (forall k hd c,
          nth_error (final_hole_details d) k = Some hd ->
          hole_coords hd = Some c ->
          (0 <=? x c)%float = true
          /\ (x c <=? holder_length d)%float = true
          /\ (widthwise_border p <=? y c)%float = true
          /\ (y c <=? holder_width d)%float = true)
    /\ (forall i j hw hd hd' c c',
          (i < j)%nat ->
          nth_error hs i = Some hw ->
          nth_error (final_hole_details d) i = Some hd ->
          nth_error (final_hole_details d) j = Some hd' ->
          hole_coords hd = Some c -> hole_coords hd' = Some c' ->
          (x c <=? x c')%float = true
          /\ ((x c + pymax (hole_diameter hd) (head_width hw) / lit 2
               + lengthwise_inner_spacing p)%py <=? x c')%float = true).
Proof. apply float_script_box. Qed.

Lemma X13_float_script_layout_witness :
  exists d,
    main (T:=float) hex_set hex_wrench_holder_parameters = (all_statements, Finished d)
    /\ (forall k hd c,
          nth_error (final_hole_details d) k = Some hd ->
          hole_coords hd = Some c ->
          (0 <=? x c)%float = true
          /\ (x c <=? holder_length d)%float = true
          /\ (widthwise_border (T:=float) hex_wrench_holder_parameters <=? y c)%float = true
          /\ (y c <=? holder_width d)%float = true)
    /\ (forall i j hw hd hd' c c',
          (i < j)%nat ->
          nth_error (hex_set (T:=float)) i = Some hw ->
          nth_error (final_hole_details d) i = Some hd ->
          nth_error (final_hole_details d) j = Some hd' ->
          hole_coords hd = Some c -> hole_coords hd' = Some c' ->
          (x c <=? x c')%float = true
          /\ ((x c + pymax (hole_diameter hd) (head_width hw) / lit 2
               + lengthwise_inner_spacing hex_wrench_holder_parameters)%py
              <=? x c')%float = true).
Proof.
  apply (X13_float_script_layout hex_set hex_wrench_holder_parameters);
    [discriminate | vm_compute; reflexivity].
Defined.
